(** * Caissa-frame: geometry, project state and persistence

    A shallow embedding of the card composer's pure logic
    ([src/utils/imageUtils.ts], [src/utils/storage.ts], [src/App.tsx],
    [src/components/CardComposerCanvas.tsx],
    [src/components/MaskEditor.tsx],
    [src/components/FrameUploadGallery.tsx], [src/types.ts]) together with
    the properties the specification states about it.

    Numbers.  A TypeScript [number] is embedded as a rational [Q], and the
    numeric code comes in three forms.  The exact form computes in the
    real-number arithmetic the source formulas denote; statements that the
    specification gives "within floating-point tolerance" are proved on it
    with tolerance zero, as [Qeq] ([==]) and [Qle] facts.  The rounded form
    ([Rounded]) follows every operation by a rounding [rnd] of relative
    error at most [u], the standard model of IEEE-754 arithmetic; bounds
    and read-backs that rounding disturbs are proved on it, with the slack
    spelled out.  The binary64 form ([Binary64]) runs the fit calculator on
    the machine's own floating-point numbers, to evaluate it at inputs
    where rounding shows.  Pixel coordinates, image sizes and channel
    values are integers and are embedded as [Z]. *)

From Stdlib Require Import ZArith QArith Qminmax Qabs Lqa Lia List Bool String.
From Stdlib Require Import Floats.PrimFloat.
From stdpp Require Import base option list strings gmap.

Open Scope Q_scope.

(** ** Data model ([src/types.ts]) *)

Module Types.

(** [MaskGeometry]; the [type] field has the single value ['rectangle']. *)
Record MaskGeometry := mkMask {
  mask_x : Q;
  mask_y : Q;
  mask_width : Q;
  mask_height : Q
}.

Record PhotoTransform := mkTransform {
  pt_x : Q;
  pt_y : Q;
  pt_scale : Q;
  pt_rotation : Q
}.

Record FrameAsset := mkFrame {
  frame_id : string;
  frame_name : string;
  frame_imageData : string;
  frame_width : Q;
  frame_height : Q;
  frame_mask : option MaskGeometry
}.

Record PhotoAsset := mkPhoto {
  photo_id : string;
  photo_name : string;
  photo_imageData : string;
  photo_width : Q;
  photo_height : Q
}.

Record TextProperties := mkText {
  content : string;
  fontFamily : string;
  fontSize : Q;
  color : string;
  text_x : Q;
  text_y : Q;
  outlineColor : string;
  outlineWidth : Q;
  shadowEnabled : bool;
  visible : bool
}.

Record CardProject := mkProject {
  selectedFrameId : option string;
  selectedPhotoId : option string;
  photoTransform : PhotoTransform;
  textProperties : TextProperties
}.

Definition DEFAULT_PHOTO_TRANSFORM : PhotoTransform :=
  {| pt_x := 0; pt_y := 0; pt_scale := 1; pt_rotation := 0 |}.

Definition DEFAULT_TEXT_PROPERTIES : TextProperties :=
  {| content := "Happy Birthday!";
     fontFamily := "Dancing Script";
     fontSize := 48;
     color := "#FFD700";
     text_x := 540;
     text_y := 200;
     outlineColor := "#8B4513";
     outlineWidth := 2;
     shadowEnabled := true;
     visible := false |}.

Definition CANVAS_WIDTH : Q := 1080.
Definition CANVAS_HEIGHT : Q := 1920.

End Types.

Export Types.

(** ** Number helpers *)

(** [a > b] on numbers, as a boolean. *)
Definition Qgt_bool (a b : Q) : bool := negb (Qle_bool a b).

(** ** The fit transform calculator ([src/utils/imageUtils.ts]) *)

Module ImageUtils.

Inductive Mode := fit | fill | center.

Definition Mode_eqb (a b : Mode) : bool :=
  match a, b with
  | fit, fit | fill, fill | center, center => true
  | _, _ => false
  end.

(** The scale chosen by [calculateFitTransform]. *)
Definition fitScale (photoWidth photoHeight : Q) (mask : MaskGeometry)
    (mode : Mode) : Q :=
  let maskAspect := mask_width mask / mask_height mask in
  let photoAspect := photoWidth / photoHeight in
  if Mode_eqb mode fit then
    if Qgt_bool photoAspect maskAspect
    then mask_width mask / photoWidth
    else mask_height mask / photoHeight
  else
    if Qgt_bool photoAspect maskAspect
    then mask_height mask / photoHeight
    else mask_width mask / photoWidth.

(** [calculateFitTransform] with the mode given. *)
Definition calculateFitTransformWith (photoWidth photoHeight : Q)
    (mask : MaskGeometry) (mode : Mode) : PhotoTransform :=
  let scale := fitScale photoWidth photoHeight mask mode in
  let scaledWidth := photoWidth * scale in
  let scaledHeight := photoHeight * scale in
  let x := mask_x mask + (mask_width mask - scaledWidth) / 2 in
  let y :=
    if Mode_eqb mode center then
      mask_y mask + (mask_height mask - scaledHeight) / 2
    else
      let overflow := scaledHeight - mask_height mask in
      mask_y mask - overflow * 0.2 in
  {| pt_x := x; pt_y := y; pt_scale := scale; pt_rotation := 0 |}.

(** [calculateFitTransform]: the [mode] parameter is optional and defaults
    to ['fill'] when the caller leaves it out. *)
Definition calculateFitTransform (photoWidth photoHeight : Q)
    (mask : MaskGeometry) (mode : option Mode) : PhotoTransform :=
  calculateFitTransformWith photoWidth photoHeight mask (default fill mode).

(** The scaled photo size a transform stands for. *)
Definition scaledWidth (photoWidth : Q) (t : PhotoTransform) : Q :=
  photoWidth * pt_scale t.
Definition scaledHeight (photoHeight : Q) (t : PhotoTransform) : Q :=
  photoHeight * pt_scale t.


(** *** Mask auto-detection ([detectTransparentRegion]) *)

(** The decoded frame: canvas size and the RGBA bytes of [getImageData],
    four per pixel, row by row. *)
Record ImageData := mkImageData {
  img_width : Z;
  img_height : Z;
  img_data : list Z
}.

(** What [getImageData] guarantees: a positive size (it throws on an empty
    rectangle) and four bytes per pixel. *)
Definition wellFormedImage (img : ImageData) : Prop :=
  (0 < img_width img)%Z /\ (0 < img_height img)%Z /\
  Z.of_nat (length (img_data img)) = (img_width img * img_height img * 4)%Z.

(** Reading a typed array: an index past the end reads [undefined]. *)
Definition readPixel (data : list Z) (i : Z) : option Z :=
  if (i <? 0)%Z then None else data !! Z.to_nat i.

(** [v < n] and [v > n] where [v] may be [undefined]: a comparison with
    [undefined] is false. *)
Definition js_lt (v : option Z) (n : Z) : bool :=
  match v with Some a => (a <? n)%Z | None => false end.
Definition js_gt (v : option Z) (n : Z) : bool :=
  match v with Some a => (n <? a)%Z | None => false end.

(** The bounding box the scan keeps, with the [foundTransparent] flag. *)
Record ScanState := mkScan {
  minX : Z;
  minY : Z;
  maxX : Z;
  maxY : Z;
  foundTransparent : bool
}.

Definition padding : Z := 5.

Section Scan.

(** [pixels idx] is the read [pixels[idx]] of the source. *)
Variable pixels : Z -> option Z.
Variable width height : Z.

Definition pixelIndex (x y : Z) : Z := ((y * width + x) * 4)%Z.

(** Transparent, or nearly white and opaque: the window area. *)
Definition isWindowPixel (idx : Z) : bool :=
  let alpha := pixels (idx + 3)%Z in
  js_lt alpha 10
  || (js_gt (pixels idx) 240 && js_gt (pixels (idx + 1)%Z) 240
      && js_gt (pixels (idx + 2)%Z) 240 && js_gt alpha 200).

(** The body of the inner loop at pixel [(x, y)]. *)
Definition visitPixel (y : Z) (st : ScanState) (x : Z) : ScanState :=
  if isWindowPixel (pixelIndex x y) then
    {| minX := Z.min (minX st) x;
       minY := Z.min (minY st) y;
       maxX := Z.max (maxX st) x;
       maxY := Z.max (maxY st) y;
       foundTransparent := true |}
  else st.

(** [for (let x = 0; x < canvas.width; x++)] *)
Definition scanRow (st : ScanState) (y : Z) : ScanState :=
  fold_left (visitPixel y) (seqZ 0 width) st.

Definition initialScan : ScanState :=
  {| minX := width; minY := height; maxX := 0; maxY := 0;
     foundTransparent := false |}.

(** [for (let y = 0; y < canvas.height; y++)] *)
Definition scanImage : ScanState :=
  fold_left scanRow (seqZ 0 height) initialScan.

(** The default rectangle used when no significant window is found. *)
Definition fallbackMask : MaskGeometry :=
  {| mask_x := inject_Z width * 0.15;
     mask_y := inject_Z height * 0.15;
     mask_width := inject_Z width * 0.7;
     mask_height := inject_Z height * 0.5 |}.

(** The detected box with the padding added. *)
Definition paddedMask (st : ScanState) : MaskGeometry :=
  {| mask_x := inject_Z (Z.max 0 (minX st - padding));
     mask_y := inject_Z (Z.max 0 (minY st - padding));
     mask_width :=
       inject_Z (Z.min (width - minX st + padding * 2)
                       (maxX st - minX st + padding * 2));
     mask_height :=
       inject_Z (Z.min (height - minY st + padding * 2)
                       (maxY st - minY st + padding * 2)) |}.

(** The test that discards a detection. *)
Definition insignificant (st : ScanState) : bool :=
  negb (foundTransparent st)
  || (maxX st - minX st <? 50)%Z
  || (maxY st - minY st <? 50)%Z.

(** The [img.onload] handler once a 2d context is at hand. *)
Definition detectRegion : MaskGeometry :=
  let st := scanImage in
  if insignificant st then fallbackMask else paddedMask st.

End Scan.

(** How loading the data URL ends: [img.onerror], or [img.onload] with or
    without a 2d context.  The image of [Loaded] is meant to be a
    [wellFormedImage]: on an empty canvas [getImageData] throws and the
    promise never resolves. *)
Inductive ImageLoad :=
| LoadError
| Loaded (img : ImageData) (hasContext : bool).

(** [detectTransparentRegion]: the value the promise resolves with. *)
Definition detectTransparentRegion (l : ImageLoad) : option MaskGeometry :=
  match l with
  | LoadError => None
  | Loaded _ false => None
  | Loaded img true =>
      Some (detectRegion (readPixel (img_data img))
                         (img_width img) (img_height img))
  end.

End ImageUtils.

Export ImageUtils.

(** ** Exceptions and the key/value store *)

Module Js.

(** How an expression completes: with a value, or by throwing. *)
Inductive Completion (A : Type) : Type :=
| Normal (a : A)
| Throw (error : string).
Arguments Normal {A} a.
Arguments Throw {A} error.

Definition bind {A B : Type} (c : Completion A) (k : A -> Completion B)
    : Completion B :=
  match c with
  | Normal a => k a
  | Throw e => Throw e
  end.

(** [try { body } catch (error) { handler }] *)
Definition tryCatch {A : Type} (body : Completion A)
    (handler : string -> Completion A) : Completion A :=
  match body with
  | Normal a => Normal a
  | Throw e => handler e
  end.

(** [localStorage]: the stored items, whether the browser denies access to
    the store (every access then throws), and which writes the quota
    refuses. *)
Record LocalStorage := mkStorage {
  ls_items : gmap string string;
  ls_denied : bool;
  ls_overQuota : string -> string -> bool
}.

Definition getItem (ls : LocalStorage) (key : string)
    : Completion (option string) :=
  if ls_denied ls then Throw "SecurityError" else Normal (ls_items ls !! key).

Definition setItem (ls : LocalStorage) (key value : string)
    : Completion LocalStorage :=
  if ls_denied ls then Throw "SecurityError"
  else if ls_overQuota ls key value then Throw "QuotaExceededError"
  else Normal {| ls_items := <[key := value]> (ls_items ls);
                 ls_denied := false;
                 ls_overQuota := ls_overQuota ls |}.

(** The truthiness of [string | null]: [null] and the empty string are
    falsy. *)
Definition truthy (data : option string) : option string :=
  match data with
  | Some EmptyString => None
  | other => other
  end.

(** [JSON.parse] at a result type: [None] stands for the [SyntaxError]. *)
Definition JSON_parse {T : Type} (parser : string -> option T) (text : string)
    : Completion T :=
  match parser text with
  | Some v => Normal v
  | None => Throw "SyntaxError"
  end.

End Js.

Export Js.

#[export] Instance Completion_bind : MBind Completion :=
  fun A B k c => Js.bind c k.

(** ** Persistence ([src/utils/storage.ts]) *)

Module Storage.

Definition FRAMES : string := "birthday-card-frames".
Definition PHOTOS : string := "birthday-card-photos".
Definition PROJECT : string := "birthday-card-project".

Section Load.

Variable parseFrames : string -> option (list FrameAsset).
Variable parsePhotos : string -> option (list PhotoAsset).
Variable parseProject : string -> option CardProject.

Definition loadFrames (ls : LocalStorage) : Completion (list FrameAsset) :=
  tryCatch
    (data ← getItem ls FRAMES;
     match truthy data with
     | Some text => JSON_parse parseFrames text
     | None => Normal []
     end)
    (fun _ => Normal []).

Definition loadPhotos (ls : LocalStorage) : Completion (list PhotoAsset) :=
  tryCatch
    (data ← getItem ls PHOTOS;
     match truthy data with
     | Some text => JSON_parse parsePhotos text
     | None => Normal []
     end)
    (fun _ => Normal []).

Definition defaultProject : CardProject :=
  {| selectedFrameId := None;
     selectedPhotoId := None;
     photoTransform := DEFAULT_PHOTO_TRANSFORM;
     textProperties := DEFAULT_TEXT_PROPERTIES |}.

(** The [try] block either returns from the function ([Some]) or falls
    through to the default ([None]); the [catch] block falls through. *)
Definition loadProject (ls : LocalStorage) : Completion CardProject :=
  returned ←
    tryCatch
      (data ← getItem ls PROJECT;
       match truthy data with
       | Some text => p ← JSON_parse parseProject text; Normal (Some p)
       | None => Normal None
       end)
      (fun _ => Normal None);
  match returned with
  | Some p => Normal p
  | None => Normal defaultProject
  end.

End Load.

End Storage.

Export Storage.

(** ** Project state ([src/App.tsx]) *)

Module App.

(** [id === selected] against a nullable selection. *)
Definition isSelected (id : string) (selected : option string) : bool :=
  match selected with
  | Some s => String.eqb id s
  | None => false
  end.

(** The frame-to-canvas conversion every handler spells out: uniform
    scale-to-fit and centring offsets. *)
Definition frameScaleOf (frame : FrameAsset) : Q :=
  Qmin (CANVAS_WIDTH / frame_width frame) (CANVAS_HEIGHT / frame_height frame).

Definition frameOffsetXOf (frame : FrameAsset) : Q :=
  (CANVAS_WIDTH - frame_width frame * frameScaleOf frame) / 2.

Definition frameOffsetYOf (frame : FrameAsset) : Q :=
  (CANVAS_HEIGHT - frame_height frame * frameScaleOf frame) / 2.

Definition scaledMask (frame : FrameAsset) (mask : MaskGeometry)
    : MaskGeometry :=
  let frameScale := frameScaleOf frame in
  let frameOffsetX := frameOffsetXOf frame in
  let frameOffsetY := frameOffsetYOf frame in
  {| mask_x := frameOffsetX + mask_x mask * frameScale;
     mask_y := frameOffsetY + mask_y mask * frameScale;
     mask_width := mask_width mask * frameScale;
     mask_height := mask_height mask * frameScale |}.

Section Handlers.

(** The asset collections the callbacks close over. *)
Variable frames : list FrameAsset.
Variable photos : list PhotoAsset.

(** The updater [handleFrameSelect] passes to [setProject]. *)
Definition handleFrameSelect (frameId : string) (prev : CardProject)
    : CardProject :=
  let frame := List.find (fun f => String.eqb (frame_id f) frameId) frames in
  let photo :=
    List.find (fun p => isSelected (photo_id p) (selectedPhotoId prev))
              photos in
  let newTransform :=
    match frame, photo with
    | Some f, Some p =>
        match frame_mask f with
        | Some m =>
            calculateFitTransform (photo_width p) (photo_height p)
                                  (scaledMask f m) (Some fill)
        | None => photoTransform prev
        end
    | _, _ => photoTransform prev
    end in
  {| selectedFrameId := Some frameId;
     selectedPhotoId := selectedPhotoId prev;
     photoTransform := newTransform;
     textProperties := textProperties prev |}.

(** The updater [handlePhotoSelect] passes to [setProject]. *)
Definition handlePhotoSelect (photoId : string) (prev : CardProject)
    : CardProject :=
  let photo := List.find (fun p => String.eqb (photo_id p) photoId) photos in
  let frame :=
    List.find (fun f => isSelected (frame_id f) (selectedFrameId prev))
              frames in
  let newTransform :=
    match frame, photo with
    | Some f, Some p =>
        match frame_mask f with
        | Some m =>
            calculateFitTransform (photo_width p) (photo_height p)
                                  (scaledMask f m) (Some fill)
        | None => DEFAULT_PHOTO_TRANSFORM
        end
    | _, _ => DEFAULT_PHOTO_TRANSFORM
    end in
  {| selectedFrameId := selectedFrameId prev;
     selectedPhotoId := Some photoId;
     photoTransform := newTransform;
     textProperties := textProperties prev |}.

(** [selectedFrame]: the frame the project points at, or [null]. *)
Definition selectedFrame (project : CardProject) : option FrameAsset :=
  List.find (fun f => isSelected (frame_id f) (selectedFrameId project))
            frames.

(** [getCurrentMask]: the selected frame's mask in canvas coordinates. *)
Definition getCurrentMask (project : CardProject) : option MaskGeometry :=
  match selectedFrame project with
  | Some f =>
      match frame_mask f with
      | Some m => Some (scaledMask f m)
      | None => None
      end
  | None => None
  end.

End Handlers.

(** [getMaskInCanvas] of [CardComposerCanvas.tsx]: the region the renderer
    clips the photo to; without a mask it is a fixed region of the canvas. *)
Definition defaultCanvasRegion : MaskGeometry :=
  {| mask_x := CANVAS_WIDTH * 0.15;
     mask_y := CANVAS_HEIGHT * 0.15;
     mask_width := CANVAS_WIDTH * 0.7;
     mask_height := CANVAS_HEIGHT * 0.5 |}.

Definition getMaskInCanvas (frame : option FrameAsset) : MaskGeometry :=
  match frame with
  | Some f =>
      match frame_mask f with
      | Some m => scaledMask f m
      | None => defaultCanvasRegion
      end
  | None => defaultCanvasRegion
  end.

(** The inverse of [scaledMask]: undo the offsets, then the scale.  The
    source never converts back; this is the inverse the specification's
    round trip speaks of. *)
Definition unscaledMask_spec (frame : FrameAsset) (mask : MaskGeometry)
    : MaskGeometry :=
  let frameScale := frameScaleOf frame in
  {| mask_x := (mask_x mask - frameOffsetXOf frame) / frameScale;
     mask_y := (mask_y mask - frameOffsetYOf frame) / frameScale;
     mask_width := mask_width mask / frameScale;
     mask_height := mask_height mask / frameScale |}.

(** Equality of masks as rectangles of numbers. *)
Definition mask_eq (a b : MaskGeometry) : Prop :=
  mask_x a == mask_x b /\ mask_y a == mask_y b /\
  mask_width a == mask_width b /\ mask_height a == mask_height b.

(** *** The saved-card gallery ([handleSaveCard]) *)

Record SavedCard := mkCard {
  card_id : string;
  card_timestamp : string;
  card_imageData : string;
  card_frameId : option string;
  card_photoId : option string
}.

Definition SAVED_CARDS : string := "caissa-saved-cards".

(** [savedCards.unshift(newCard); if (savedCards.length > 20)
    savedCards.pop();] *)
Definition keepLastCards (newCard : SavedCard) (savedCards : list SavedCard)
    : list SavedCard :=
  let unshifted := newCard :: savedCards in
  if (20 <? length unshifted)%nat then removelast unshifted else unshifted.

Section SaveCard.

Variable parseCards : string -> option (list SavedCard).
Variable stringifyCards : list SavedCard -> string.

(** [handleSaveCard].  [stage] is [stageRef.current] reduced to what
    [toDataURL] yields ([None] when it throws); [now] and [isoNow] are
    the clock readings.  The result is the store afterwards. *)
Definition handleSaveCard (stage : option (option string))
    (frame : option FrameAsset) (project : CardProject)
    (now isoNow : string) (ls : LocalStorage) : LocalStorage :=
  match stage, frame with
  | Some rendered, Some _ =>
      let attempt :=
        dataUrl ← match rendered with
                  | Some url => Normal url
                  | None => Throw "Error"
                  end;
        stored ← getItem ls SAVED_CARDS;
        savedCards ← JSON_parse parseCards
                       (default "[]"%string (truthy stored));
        let newCard :=
          {| card_id := "card-" +:+ now;
             card_timestamp := isoNow;
             card_imageData := dataUrl;
             card_frameId := selectedFrameId project;
             card_photoId := selectedPhotoId project |} in
        setItem ls SAVED_CARDS
                (stringifyCards (keepLastCards newCard savedCards)) in
      match attempt with
      | Normal ls' => ls'
      | Throw _ => ls
      end
  | _, _ => ls
  end.

End SaveCard.

End App.

Export App.

(** ** Notions used to state and prove the properties *)

Module Notions.

(** Equality of transforms as tuples of numbers. *)
Definition transform_eq (a b : PhotoTransform) : Prop :=
  pt_x a == pt_x b /\ pt_y a == pt_y b /\
  pt_scale a == pt_scale b /\ pt_rotation a == pt_rotation b.

Definition maskless_frame : FrameAsset :=
  mkFrame "f2" "plain.png" "data:image/png;base64,AAAA" 1080 1920 None.
Definition portrait_photo : PhotoAsset :=
  mkPhoto "p1" "me.jpg" "data:image/jpeg;base64,BBBB" 600 800.
Definition dragged_project : CardProject :=
  {| selectedFrameId := Some "f1"%string;
     selectedPhotoId := Some "p1"%string;
     photoTransform :=
       {| pt_x := 120; pt_y := 340; pt_scale := 2; pt_rotation := 15 |};
     textProperties := DEFAULT_TEXT_PROPERTIES |}.

Definition sample_card : SavedCard :=
  mkCard "card-1" "2024-01-01T00:00:00.000Z" "data:image/png;base64,CCCC"
         (Some "f1"%string) (Some "p1"%string).
Definition newest_card : SavedCard :=
  mkCard "card-2" "2024-01-02T00:00:00.000Z" "data:image/png;base64,DDDD"
         (Some "f1"%string) (Some "p1"%string).

(** A read of [key] fails or finds nothing: the store denies access, the
    key is absent (or holds the empty string), or the stored text does not
    parse. *)
Definition readFails {T : Type} (parser : string -> option T)
    (ls : LocalStorage) (key : string) : Prop :=
  ls_denied ls = true \/
  truthy (ls_items ls !! key) = None \/
  (exists text, ls_items ls !! key = Some text /\ parser text = None).

(** The pixel a coordinate pair names is a window pixel. *)
Definition windowAt (pixels : Z -> option Z) (width : Z) (p : Z * Z) : bool :=
  isWindowPixel pixels (pixelIndex width p.1 p.2).

(** One step of the scan at a coordinate pair. *)
Definition visit (pixels : Z -> option Z) (width : Z) (st : ScanState)
    (p : Z * Z) : ScanState :=
  visitPixel pixels width p.2 st p.1.

(** The coordinates of a row, and of the image, in scan order. *)
Definition rowCoords (width y : Z) : list (Z * Z) :=
  (fun x => (x, y)) <$> seqZ 0 width.
Definition imageCoords (width height : Z) : list (Z * Z) :=
  seqZ 0 height ≫= rowCoords width.

(** What the scan state says about the pixels [ps] visited so far: nothing
    found and the state untouched, or the exact bounding box of the window
    pixels among [ps]. *)
Definition boundsOf (pixels : Z -> option Z) (width height : Z)
    (ps : list (Z * Z)) (st : ScanState) : Prop :=
  (foundTransparent st = false ->
   st = initialScan width height /\
   forall p, p ∈ ps -> windowAt pixels width p = false) /\
  (foundTransparent st = true ->
   (forall p, p ∈ ps -> windowAt pixels width p = true ->
      (minX st <= p.1 <= maxX st)%Z /\ (minY st <= p.2 <= maxY st)%Z) /\
   (exists p, p ∈ ps /\ windowAt pixels width p = true /\ p.1 = minX st) /\
   (exists p, p ∈ ps /\ windowAt pixels width p = true /\ p.1 = maxX st) /\
   (exists p, p ∈ ps /\ windowAt pixels width p = true /\ p.2 = minY st) /\
   (exists p, p ∈ ps /\ windowAt pixels width p = true /\ p.2 = maxY st)).

Definition inImage (width height : Z) (p : Z * Z) : Prop :=
  (0 <= p.1 < width)%Z /\ (0 <= p.2 < height)%Z.

(** The RGBA bytes of an image whose pixel at [(x, y)] is [pixelAt x y],
    row by row. *)
Definition rgbaData (width height : Z) (pixelAt : Z -> Z -> list Z)
    : list Z :=
  seqZ 0 (width * height)
    ≫= (fun i => pixelAt (i `mod` width)%Z (i `div` width)%Z).

(** The read of byte [idx] of [rgbaData], computed from the formula. *)
Definition pixelRead (width height : Z) (pixelAt : Z -> Z -> list Z)
    (idx : Z) : option Z :=
  if ((idx <? 0) || (width * height * 4 <=? idx))%Z then None
  else pixelAt ((idx `div` 4) `mod` width)%Z ((idx `div` 4) `div` width)%Z
         !! Z.to_nat (idx `mod` 4).

Definition transparentPixel : list Z := [0; 0; 0; 0]%Z.
Definition grayPixel : list Z := [128; 128; 128; 255]%Z.

(** Opaque mid-gray everywhere. *)
Definition grayImage (width height : Z) : ImageData :=
  mkImageData width height (rgbaData width height (fun _ _ => grayPixel)).

(** The pixel of a frame that is opaque mid-gray except for a fully
    transparent square of side [side] with its corner at [(left, top)]. *)
Definition squareWindowPixel (left top side x y : Z) : list Z :=
  if ((left <=? x) && (x <? left + side)
      && (top <=? y) && (y <? top + side))%Z
  then transparentPixel else grayPixel.

Definition squareWindowImage (width height left top side : Z) : ImageData :=
  mkImageData width height
    (rgbaData width height (squareWindowPixel left top side)).

(** A 400x400 frame with a transparent 200x200 square at (100,100). *)
Definition centredWindowFrame : ImageData :=
  squareWindowImage 400 400 100 100 200.

(** A 60x60 frame that is transparent throughout. *)
Definition clearFrame : ImageData := squareWindowImage 60 60 0 0 60.

(** A 2x1 frame: one transparent pixel, one opaque mid-gray pixel. *)
Definition speckFrame : ImageData :=
  mkImageData 2 1 (transparentPixel ++ grayPixel).

(** A 1x1 opaque mid-gray frame, byte by byte. *)
Definition grayDot : ImageData := mkImageData 1 1 grayPixel.

(** The window test on the four bytes of one pixel. *)
Definition pixelIsWindow (rgba : list Z) : bool :=
  js_lt (rgba !! 3%nat) 10
  || (js_gt (rgba !! 0%nat) 240 && js_gt (rgba !! 1%nat) 240
      && js_gt (rgba !! 2%nat) 240 && js_gt (rgba !! 3%nat) 200).

End Notions.

Export Notions.

(** ** Further code of the cited files *)

(** [Math.min(a, b, c)] *)
Definition Qmin3 (a b c : Q) : Q := Qmin (Qmin a b) c.

(** [a || b] on numbers: [0] is falsy. *)
Definition js_or (a b : Q) : Q := if Qeq_bool a 0 then b else a.

(** *** Writes to the store ([src/utils/storage.ts]) *)

Module StorageWrites.

Definition removeItem (ls : LocalStorage) (key : string)
    : Completion LocalStorage :=
  if ls_denied ls then Throw "SecurityError"
  else Normal {| ls_items := delete key (ls_items ls);
                 ls_denied := false;
                 ls_overQuota := ls_overQuota ls |}.

Section Save.

Variable stringifyFrames : list FrameAsset -> string.
Variable stringifyPhotos : list PhotoAsset -> string.
Variable stringifyProject : CardProject -> string.

(** The save functions return nothing; the embedding returns the store
    as they leave it. *)
Definition saveFrames (ls : LocalStorage) (frames : list FrameAsset)
    : Completion LocalStorage :=
  tryCatch (setItem ls FRAMES (stringifyFrames frames)) (fun _ => Normal ls).

Definition savePhotos (ls : LocalStorage) (photos : list PhotoAsset)
    : Completion LocalStorage :=
  tryCatch (setItem ls PHOTOS (stringifyPhotos photos)) (fun _ => Normal ls).

Definition saveProject (ls : LocalStorage) (project : CardProject)
    : Completion LocalStorage :=
  tryCatch (setItem ls PROJECT (stringifyProject project))
           (fun _ => Normal ls).

End Save.

(** [clearStorage]: the three keys in the order of [STORAGE_KEYS], with no
    [try] around the removals. *)
Definition clearStorage (ls : LocalStorage) : Completion LocalStorage :=
  ls1 ← removeItem ls FRAMES;
  ls2 ← removeItem ls1 PHOTOS;
  removeItem ls2 PROJECT.

End StorageWrites.

Export StorageWrites.

(** *** More of [src/App.tsx] *)

Module AppMore.

Definition DEFAULT_FRAME_ID : string := "default-caissa-frame".

(** The frame [loadDefaultFrame] resolves with once the bundled image is
    decoded. *)
Definition defaultFrameOf (imageData : string) (width height : Q)
    : FrameAsset :=
  {| frame_id := DEFAULT_FRAME_ID;
     frame_name := "Caissa Birthday Frame";
     frame_imageData := imageData;
     frame_width := width;
     frame_height := height;
     frame_mask := Some {| mask_x := 86; mask_y := 235;
                           mask_width := 400; mask_height := 385 |} |}.

(** The frame collection [initializeApp] sets: [defaultFrame] is what
    [loadDefaultFrame] resolves with ([None] for [null]). *)
Definition initialFrames (savedFrames : list FrameAsset)
    (defaultFrame : option FrameAsset) : list FrameAsset :=
  let hasDefaultFrame :=
    existsb (fun f => String.eqb (frame_id f) DEFAULT_FRAME_ID) savedFrames in
  if negb hasDefaultFrame then
    match defaultFrame with
    | Some d => d :: savedFrames
    | None => savedFrames
    end
  else savedFrames.

(** [{ ...frame, mask }] *)
Definition withMask (frame : FrameAsset) (mask : MaskGeometry) : FrameAsset :=
  {| frame_id := frame_id frame;
     frame_name := frame_name frame;
     frame_imageData := frame_imageData frame;
     frame_width := frame_width frame;
     frame_height := frame_height frame;
     frame_mask := Some mask |}.

(** [{ ...prev, photoTransform }] *)
Definition withTransform (project : CardProject) (t : PhotoTransform)
    : CardProject :=
  {| selectedFrameId := selectedFrameId project;
     selectedPhotoId := selectedPhotoId project;
     photoTransform := t;
     textProperties := textProperties project |}.

(** [handleMaskSave]: the frame collection and the project afterwards.
    [editingMaskFrameId] is falsy when [null] or empty. *)
Definition handleMaskSave (editingMaskFrameId : option string)
    (frames : list FrameAsset) (photos : list PhotoAsset)
    (project : CardProject) (mask : MaskGeometry)
    : list FrameAsset * CardProject :=
  match truthy editingMaskFrameId with
  | None => (frames, project)
  | Some editing =>
      let frames' :=
        map (fun frame =>
               if String.eqb (frame_id frame) editing
               then withMask frame mask else frame) frames in
      let selectedPhoto :=
        List.find (fun p => isSelected (photo_id p) (selectedPhotoId project))
                  photos in
      let project' :=
        match isSelected editing (selectedFrameId project), selectedPhoto with
        | true, Some photo =>
            match List.find (fun f => String.eqb (frame_id f) editing)
                            frames with
            | Some frame =>
                withTransform project
                  (calculateFitTransform (photo_width photo)
                     (photo_height photo) (scaledMask frame mask) (Some fill))
            | None => project
            end
        | _, _ => project
        end in
      (frames', project')
  end.

(** The [newCard] that [handleSaveCard] builds. *)
Definition newCardOf (project : CardProject) (now isoNow dataUrl : string)
    : SavedCard :=
  {| card_id := "card-" +:+ now;
     card_timestamp := isoNow;
     card_imageData := dataUrl;
     card_frameId := selectedFrameId project;
     card_photoId := selectedPhotoId project |}.

End AppMore.

Export AppMore.

(** *** The galleries ([FrameUploadGallery.tsx]) *)

Module Gallery.

(** A file of the upload with what the asynchronous steps yield for it:
    [loadImageAsBase64] (or [None] when it rejects), the outcome of loading
    the data URL in [detectTransparentRegion], and [generateId]. *)
Record UploadFile := mkUpload {
  file_type : string;
  file_name : string;
  file_loaded : option (string * Q * Q);
  file_detection : ImageLoad;
  file_newId : string
}.

(** One turn of the upload loop: the frame pushed, if any. *)
Definition uploadedFrame (file : UploadFile) : option FrameAsset :=
  if negb (String.prefix "image/" (file_type file)) then None
  else
    match file_loaded file with
    | None => None
    | Some (data, width, height) =>
        Some {| frame_id := file_newId file;
                frame_name := file_name file;
                frame_imageData := data;
                frame_width := width;
                frame_height := height;
                frame_mask :=
                  detectTransparentRegion (file_detection file) |}
    end.

(** [handleUpload]: the collection passed to [onFramesChange]; [None] when
    the input has no file list and nothing is called. *)
Definition handleUpload (frames : list FrameAsset)
    (files : option (list UploadFile)) : option (list FrameAsset) :=
  match files with
  | None => None
  | Some files => Some (frames ++ omap uploadedFrame files)
  end.

(** [handleDelete]: the collection passed to [onFramesChange]. *)
Definition handleDelete (frames : list FrameAsset) (frameId : string)
    : list FrameAsset :=
  List.filter (fun f => negb (String.eqb (frame_id f) frameId)) frames.

End Gallery.

Export Gallery.

(** *** The PDF page layout ([handleExportPDF]) *)

Module PdfExport.


End PdfExport.

Export PdfExport.

(** ** The fit transform calculator in binary64 *)

(** The same function over IEEE 754 binary64 numbers, the [number] of the
    source, each operation rounded as the processor rounds it.  It serves to
    evaluate the code at concrete inputs where rounding shows. *)

Module Binary64.

Record Mask64 := mkMask64 {
  m64_x : float;
  m64_y : float;
  m64_width : float;
  m64_height : float
}.

Record Transform64 := mkTransform64 {
  t64_x : float;
  t64_y : float;
  t64_scale : float;
  t64_rotation : float
}.

(** The literal [0.2]: the binary64 number nearest to one fifth. *)
Definition literal_0_2 : float := 0x1.999999999999ap-3%float.

Definition calculateFitTransform64 (photoWidth photoHeight : float)
    (mask : Mask64) (mode : option Mode) : Transform64 :=
  let mode := default fill mode in
  let maskAspect := (m64_width mask / m64_height mask)%float in
  let photoAspect := (photoWidth / photoHeight)%float in
  let scale :=
    if Mode_eqb mode fit then
      if (maskAspect <? photoAspect)%float
      then (m64_width mask / photoWidth)%float
      else (m64_height mask / photoHeight)%float
    else
      if (maskAspect <? photoAspect)%float
      then (m64_height mask / photoHeight)%float
      else (m64_width mask / photoWidth)%float in
  let scaledWidth := (photoWidth * scale)%float in
  let scaledHeight := (photoHeight * scale)%float in
  let x := (m64_x mask + (m64_width mask - scaledWidth) / 2)%float in
  let y :=
    if Mode_eqb mode center then
      (m64_y mask + (m64_height mask - scaledHeight) / 2)%float
    else
      let overflow := (scaledHeight - m64_height mask)%float in
      (m64_y mask - overflow * literal_0_2)%float in
  {| t64_x := x; t64_y := y; t64_scale := scale; t64_rotation := 0%float |}.

(** The scaled photo rectangle lies inside the mask rectangle, as a test on
    binary64 numbers. *)
Definition photoInsideMask64 (photoWidth photoHeight : float)
    (mask : Mask64) (t : Transform64) : bool :=
  let scaledWidth := (photoWidth * t64_scale t)%float in
  let scaledHeight := (photoHeight * t64_scale t)%float in
  (m64_x mask <=? t64_x t)%float
  && (t64_x t + scaledWidth <=? m64_x mask + m64_width mask)%float
  && (m64_y mask <=? t64_y t)%float
  && (t64_y t + scaledHeight <=? m64_y mask + m64_height mask)%float.

End Binary64.

Export Binary64.

(** ** The numeric code with rounding *)

(** The numeric code with every arithmetic operation followed by a
    rounding [rnd], as a processor rounds each result to a representable
    number.  With [rnd] rounding to binary64 the functions are the
    source's; with [rnd] the identity the arithmetic is exact, as in
    [calculateFitTransform] and [scaledMask] above.  Comparisons,
    [Math.min] and [Math.max] round nothing. *)

Module Rounded.

(** [rnd] rounds with relative error at most [u]: what the IEEE standard
    asks of every operation, with [u] = 2^-53 in binary64, for results in
    the normal range. *)
Definition rounds (rnd : Q -> Q) (u : Q) : Prop :=
  0 <= u /\ u <= 1 # 16 /\ forall q, Qabs (rnd q - q) <= u * Qabs q.

(** The slack granted to a comparison between a computed rectangle of
    extent [s] and one of extent [m] at coordinate [c]. *)
Definition slack (u c m s : Q) : Q := u * (Qabs c + 8 * (m + s)).

(** [b] is [a] up to [e] roundings: within [e * u] times the magnitude
    of [a]. *)
Definition near (u e a b : Q) : Prop :=
  a - e * u * Qabs a <= b /\ b <= a + e * u * Qabs a.

(** A rounding to try the statements at: every result a thousandth too
    large in magnitude. *)
Definition inflate (q : Q) : Q := q * (1001 # 1000).

Section Rounding.

Variable rnd : Q -> Q.

(** [calculateFitTransform]; the literal [0.2] is the representable number
    nearest to one fifth. *)
Definition calculateFitTransformR (photoWidth photoHeight : Q)
    (mask : MaskGeometry) (mode : option Mode) : PhotoTransform :=
  let mode := default fill mode in
  let maskAspect := rnd (mask_width mask / mask_height mask) in
  let photoAspect := rnd (photoWidth / photoHeight) in
  let scale :=
    if Mode_eqb mode fit then
      if Qgt_bool photoAspect maskAspect
      then rnd (mask_width mask / photoWidth)
      else rnd (mask_height mask / photoHeight)
    else
      if Qgt_bool photoAspect maskAspect
      then rnd (mask_height mask / photoHeight)
      else rnd (mask_width mask / photoWidth) in
  let scaledWidth := rnd (photoWidth * scale) in
  let scaledHeight := rnd (photoHeight * scale) in
  let x := rnd (mask_x mask + rnd (rnd (mask_width mask - scaledWidth) / 2)) in
  let y :=
    if Mode_eqb mode center then
      rnd (mask_y mask + rnd (rnd (mask_height mask - scaledHeight) / 2))
    else
      let overflow := rnd (scaledHeight - mask_height mask) in
      rnd (mask_y mask - rnd (overflow * rnd 0.2)) in
  {| pt_x := x; pt_y := y; pt_scale := scale; pt_rotation := 0 |}.

(** [photoWidth * scale] and [photoHeight * scale], as computed. *)
Definition scaledWidthR (photoWidth : Q) (t : PhotoTransform) : Q :=
  rnd (photoWidth * pt_scale t).
Definition scaledHeightR (photoHeight : Q) (t : PhotoTransform) : Q :=
  rnd (photoHeight * pt_scale t).

(** [createPreviewImage]: the size the preview is drawn at. *)
Definition previewSizeR (maxWidth maxHeight width height : Q) : Q * Q :=
  let scale := Qmin3 (rnd (maxWidth / width)) (rnd (maxHeight / height)) 1 in
  (rnd (width * scale), rnd (height * scale)).

(** The frame-to-canvas conversion of [App.tsx]. *)
Definition frameScaleOfR (frame : FrameAsset) : Q :=
  Qmin (rnd (CANVAS_WIDTH / frame_width frame))
       (rnd (CANVAS_HEIGHT / frame_height frame)).

Definition frameOffsetXOfR (frame : FrameAsset) : Q :=
  rnd (rnd (CANVAS_WIDTH - rnd (frame_width frame * frameScaleOfR frame)) / 2).

Definition frameOffsetYOfR (frame : FrameAsset) : Q :=
  rnd (rnd (CANVAS_HEIGHT - rnd (frame_height frame * frameScaleOfR frame))
       / 2).

Definition scaledMaskR (frame : FrameAsset) (mask : MaskGeometry)
    : MaskGeometry :=
  let frameScale := frameScaleOfR frame in
  let frameOffsetX := frameOffsetXOfR frame in
  let frameOffsetY := frameOffsetYOfR frame in
  {| mask_x := rnd (frameOffsetX + rnd (mask_x mask * frameScale));
     mask_y := rnd (frameOffsetY + rnd (mask_y mask * frameScale));
     mask_width := rnd (mask_width mask * frameScale);
     mask_height := rnd (mask_height mask * frameScale) |}.

(** [handleFrameSelect] and [getCurrentMask] over the rounded
    conversion. *)
Definition handleFrameSelectR (frames : list FrameAsset)
    (photos : list PhotoAsset) (frameId : string) (prev : CardProject)
    : CardProject :=
  let frame := List.find (fun f => String.eqb (frame_id f) frameId) frames in
  let photo :=
    List.find (fun p => isSelected (photo_id p) (selectedPhotoId prev))
              photos in
  let newTransform :=
    match frame, photo with
    | Some f, Some p =>
        match frame_mask f with
        | Some m =>
            calculateFitTransformR (photo_width p) (photo_height p)
                                   (scaledMaskR f m) (Some fill)
        | None => photoTransform prev
        end
    | _, _ => photoTransform prev
    end in
  {| selectedFrameId := Some frameId;
     selectedPhotoId := selectedPhotoId prev;
     photoTransform := newTransform;
     textProperties := textProperties prev |}.

Definition getCurrentMaskR (frames : list FrameAsset) (project : CardProject)
    : option MaskGeometry :=
  match selectedFrame frames project with
  | Some f =>
      match frame_mask f with
      | Some m => Some (scaledMaskR f m)
      | None => None
      end
  | None => None
  end.

(** The composer's stage ([CardComposerCanvas.tsx]). *)
Definition displayScaleR (containerWidth containerHeight : Q) : Q :=
  Qmin3 (rnd (containerWidth / CANVAS_WIDTH))
        (rnd (containerHeight / CANVAS_HEIGHT)) 1.

Definition stageWidthR (displayScale : Q) : Q :=
  rnd (CANVAS_WIDTH * displayScale).
Definition stageHeightR (displayScale : Q) : Q :=
  rnd (CANVAS_HEIGHT * displayScale).

(** [pixelRatio] of [handleSaveCard] and of
    [generateHighQualityExport]. *)
Definition exportPixelRatioR (currentWidth currentHeight : Q) : Q :=
  Qmax (rnd (CANVAS_WIDTH / currentWidth))
       (rnd (CANVAS_HEIGHT / currentHeight)).

(** The photo node's position, and [handlePhotoDrag] reading it back. *)
Definition photoNodeXR (t : PhotoTransform) (mask : MaskGeometry)
    (displayScale : Q) : Q :=
  rnd (js_or (pt_x t) (mask_x mask) * displayScale).
Definition photoNodeYR (t : PhotoTransform) (mask : MaskGeometry)
    (displayScale : Q) : Q :=
  rnd (js_or (pt_y t) (mask_y mask) * displayScale).

Definition handlePhotoDragR (t : PhotoTransform)
    (nodeX nodeY displayScale : Q) : PhotoTransform :=
  {| pt_x := rnd (nodeX / displayScale);
     pt_y := rnd (nodeY / displayScale);
     pt_scale := pt_scale t;
     pt_rotation := pt_rotation t |}.

(** [getPhotoDisplayProps]. *)
Definition getPhotoDisplayPropsR (photo : option PhotoAsset)
    (t : PhotoTransform) (mask : MaskGeometry) : option (Q * Q) :=
  match photo with
  | None => None
  | Some photo =>
      let photoAspect := rnd (photo_width photo / photo_height photo) in
      let maskAspect := rnd (mask_width mask / mask_height mask) in
      let size :=
        if Qgt_bool photoAspect maskAspect then
          let photoDisplayHeight := rnd (mask_height mask / pt_scale t) in
          let photoDisplayWidth := rnd (photoDisplayHeight * photoAspect) in
          (photoDisplayWidth, photoDisplayHeight)
        else
          let photoDisplayWidth := rnd (mask_width mask / pt_scale t) in
          let photoDisplayHeight := rnd (photoDisplayWidth / photoAspect) in
          (photoDisplayWidth, photoDisplayHeight) in
      Some (rnd (size.1 * pt_scale t), rnd (size.2 * pt_scale t))
  end.

(** The mask editor ([MaskEditor.tsx]). *)
Definition editorScaleR (containerWidth containerHeight : Q)
    (frame : FrameAsset) : Q :=
  Qmin3 (rnd (rnd (containerWidth - 40) / frame_width frame))
        (rnd (rnd (containerHeight - 40) / frame_height frame)) 1.

Definition handleDragEndR (mask : MaskGeometry) (nodeX nodeY scale : Q)
    : MaskGeometry :=
  {| mask_x := rnd (nodeX / scale);
     mask_y := rnd (nodeY / scale);
     mask_width := mask_width mask;
     mask_height := mask_height mask |}.

Definition handleTransformEndR (nodeX nodeY nodeWidth nodeHeight : Q)
    (scaleX scaleY scale : Q) : MaskGeometry :=
  {| mask_x := rnd (nodeX / scale);
     mask_y := rnd (nodeY / scale);
     mask_width := rnd (rnd (nodeWidth * scaleX) / scale);
     mask_height := rnd (rnd (nodeHeight * scaleY) / scale) |}.

End Rounding.

End Rounded.

Export Rounded.

(** * Properties *)

(** A bound of the box is still attained by the pixel that attained it
    before ([old_extreme]), or is attained by the pixel just visited
    ([new_extreme]). *)
Ltac old_extreme H :=
  let q := fresh "q" in
  destruct H as (q & ? & ? & ?); exists q; rewrite elem_of_app; auto.
Ltac new_extreme p :=
  exists p; rewrite elem_of_app, list_elem_of_singleton; auto.

(** Unfolding a read of the store down to its case analysis; the cases of
    a read that returns, with [parser] the parser it uses; the cases of a
    read that fails. *)
Ltac unfold_read :=
  unfold getItem, JSON_parse, mbind, Completion_bind, Js.bind.
Ltac read_returns parser :=
  destruct (ls_denied _); simpl; [eauto |];
  destruct (truthy _); simpl; [| eauto];
  destruct (parser _); simpl; eauto.
Ltac read_fails :=
  let Hdenied := fresh "Hdenied" in
  let Hnone := fresh "Hnone" in
  let text := fresh "text" in
  let Hget := fresh "Hget" in
  let Hparse := fresh "Hparse" in
  intros [Hdenied | [Hnone | (text & Hget & Hparse)]];
  [ rewrite Hdenied; reflexivity
  | destruct (ls_denied _); simpl; [reflexivity |];
    rewrite Hnone; reflexivity
  | destruct (ls_denied _); simpl; [reflexivity |];
    rewrite Hget; destruct text; simpl; [reflexivity |];
    rewrite Hparse; reflexivity ].

(** ** Numbers *)

Lemma Qgt_bool_true (a b : Q) : Qgt_bool a b = true -> b < a.
Proof.
  unfold Qgt_bool. intros H. apply negb_true_iff in H.
  destruct (Qlt_le_dec b a) as [Hlt | Hle]; [exact Hlt |].
  apply Qle_bool_iff in Hle. congruence.
Qed.

Lemma Qgt_bool_false (a b : Q) : Qgt_bool a b = false -> a <= b.
Proof.
  unfold Qgt_bool. intros H. apply negb_false_iff in H.
  now apply Qle_bool_iff.
Qed.

Lemma Qhalf (a : Q) : a / 2 == a * (1 # 2).
Proof. field. Qed.

(** Comparing two aspect ratios is comparing the cross products. *)
Lemma aspect_lt_cross (a b c d : Q) :
  0 < b -> 0 < d -> a / b < c / d -> a * d < c * b.
Proof.
  intros Hb Hd H.
  assert (Hbd : 0 < b * d) by (apply Qmult_lt_0_compat; assumption).
  apply (Qmult_lt_r _ _ (b * d) Hbd) in H.
  assert (E1 : a / b * (b * d) == a * d) by (field; lra).
  assert (E2 : c / d * (b * d) == c * b) by (field; lra).
  rewrite E1, E2 in H. exact H.
Qed.

Lemma aspect_le_cross (a b c d : Q) :
  0 < b -> 0 < d -> a / b <= c / d -> a * d <= c * b.
Proof.
  intros Hb Hd H.
  assert (Hbd : 0 < b * d) by (apply Qmult_lt_0_compat; assumption).
  apply (Qmult_le_r _ _ (b * d) Hbd) in H.
  assert (E1 : a / b * (b * d) == a * d) by (field; lra).
  assert (E2 : c / d * (b * d) == c * b) by (field; lra).
  rewrite E1, E2 in H. exact H.
Qed.

(** [p * (m / p)] is [m]; [q * (m / p)] is at most [n] when [q*m <= n*p]. *)
Lemma scaled_exact (p m : Q) : 0 < p -> p * (m / p) == m.
Proof. intros Hp. field. lra. Qed.

Lemma scaled_le (q m p n : Q) : 0 < p -> q * m <= n * p -> q * (m / p) <= n.
Proof.
  intros Hp H.
  assert (E : q * (m / p) == q * m / p) by (field; lra).
  rewrite E. apply Qle_shift_div_r; assumption.
Qed.

Lemma scaled_ge (q m p n : Q) : 0 < p -> n * p <= q * m -> n <= q * (m / p).
Proof.
  intros Hp H.
  assert (E : q * (m / p) == q * m / p) by (field; lra).
  rewrite E. apply Qle_shift_div_l; assumption.
Qed.

Section FitTransform.

Variables photoWidth photoHeight : Q.
Variable mask : MaskGeometry.
Hypothesis photoWidth_pos : 0 < photoWidth.
Hypothesis photoHeight_pos : 0 < photoHeight.
Hypothesis maskWidth_pos : 0 < mask_width mask.
Hypothesis maskHeight_pos : 0 < mask_height mask.

(** In 'fit' mode the scaled photo is no larger than the mask. *)
Lemma fit_scale_contained :
  photoWidth * fitScale photoWidth photoHeight mask fit <= mask_width mask /\
  photoHeight * fitScale photoWidth photoHeight mask fit <= mask_height mask.
Proof.
  unfold fitScale; simpl.
  destruct (Qgt_bool _ _) eqn:E.
  - apply Qgt_bool_true, aspect_lt_cross in E; try assumption.
    split.
    + rewrite scaled_exact by assumption. apply Qle_refl.
    + apply scaled_le; [assumption | lra].
  - apply Qgt_bool_false, aspect_le_cross in E; try assumption.
    split.
    + apply scaled_le; [assumption | lra].
    + rewrite scaled_exact by assumption. apply Qle_refl.
Qed.

(** In every other mode the scaled photo is no smaller than the mask. *)
Lemma cover_scale_covers (mode : Mode) :
  mode <> fit ->
  mask_width mask <= photoWidth * fitScale photoWidth photoHeight mask mode /\
  mask_height mask <= photoHeight * fitScale photoWidth photoHeight mask mode.
Proof.
  intros Hmode. unfold fitScale.
  replace (Mode_eqb mode fit) with false
    by (destruct mode; [exfalso; apply Hmode | |]; reflexivity).
  destruct (Qgt_bool _ _) eqn:E.
  - apply Qgt_bool_true, aspect_lt_cross in E; try assumption.
    split.
    + apply scaled_ge; [assumption | lra].
    + rewrite scaled_exact by assumption. apply Qle_refl.
  - apply Qgt_bool_false, aspect_le_cross in E; try assumption.
    split.
    + rewrite scaled_exact by assumption. apply Qle_refl.
    + apply scaled_ge; [assumption | lra].
Qed.

End FitTransform.

(** ** The fit transform calculator *)

(** C1.  For a photo and a mask with positive sizes, the transform computed
    in 'fit' mode scales the photo to at most the mask's width and at most
    the mask's height: the whole photo is contained in the mask. *)
Theorem fit_mode_contains_photo (photoWidth photoHeight : Q)
    (mask : MaskGeometry) :
  0 < photoWidth -> 0 < photoHeight ->
  0 < mask_width mask -> 0 < mask_height mask ->
  let t := calculateFitTransform photoWidth photoHeight mask (Some fit) in
  scaledWidth photoWidth t <= mask_width mask /\
  scaledHeight photoHeight t <= mask_height mask.
Proof.
  intros Hpw Hph Hmw Hmh. cbv zeta.
  unfold scaledWidth, scaledHeight, calculateFitTransform,
    calculateFitTransformWith. simpl.
  apply fit_scale_contained; assumption.
Qed.

Lemma fit_mode_contains_photo_witness :
  let mask := mkMask 10 20 200 200 in
  let t := calculateFitTransform 400 300 mask (Some fit) in
  scaledWidth 400 t <= mask_width mask /\
  scaledHeight 300 t <= mask_height mask.
Proof.
  apply (fit_mode_contains_photo 400 300 (mkMask 10 20 200 200));
    reflexivity.
Defined.

(** C2.  For a photo and a mask with positive sizes, the transform computed
    in 'fill' mode, which is also the mode used when none is given, scales
    the photo to at least the mask's width and at least the mask's height:
    the mask is fully covered. *)
Theorem fill_mode_covers_mask (photoWidth photoHeight : Q)
    (mask : MaskGeometry) (mode : option Mode) :
  0 < photoWidth -> 0 < photoHeight ->
  0 < mask_width mask -> 0 < mask_height mask ->
  mode = Some fill \/ mode = None ->
  let t := calculateFitTransform photoWidth photoHeight mask mode in
  mask_width mask <= scaledWidth photoWidth t /\
  mask_height mask <= scaledHeight photoHeight t.
Proof.
  intros Hpw Hph Hmw Hmh Hmode. cbv zeta.
  assert (Hfill : default fill mode = fill)
    by (destruct Hmode; subst mode; reflexivity).
  unfold scaledWidth, scaledHeight, calculateFitTransform,
    calculateFitTransformWith. rewrite Hfill. simpl.
  apply cover_scale_covers; try assumption. discriminate.
Qed.

Lemma fill_mode_covers_mask_witness :
  let mask := mkMask 10 20 200 200 in
  (let t := calculateFitTransform 400 300 mask (Some fill) in
   mask_width mask <= scaledWidth 400 t /\
   mask_height mask <= scaledHeight 300 t) /\
  (let t := calculateFitTransform 400 300 mask None in
   mask_width mask <= scaledWidth 400 t /\
   mask_height mask <= scaledHeight 300 t).
Proof.
  split.
  - apply (fill_mode_covers_mask 400 300 (mkMask 10 20 200 200) (Some fill));
      try reflexivity. left; reflexivity.
  - apply (fill_mode_covers_mask 400 300 (mkMask 10 20 200 200) None);
      try reflexivity. right; reflexivity.
Defined.

(** C3.  For a photo and a mask with positive sizes: in every mode the
    transform's x centres the scaled photo horizontally in the mask,
    x = mask.x + (mask.width - scaledWidth)/2; in 'center' mode its y
    centres it vertically, y = mask.y + (mask.height - scaledHeight)/2; in
    'fit' and 'fill' mode (and with the mode left out) its y carries the
    fixed upward bias, y = mask.y - (scaledHeight - mask.height) * 0.2.
    The rotation is 0. *)
Theorem transform_position (photoWidth photoHeight : Q)
    (mask : MaskGeometry) (mode : option Mode) :
  0 < photoWidth -> 0 < photoHeight ->
  0 < mask_width mask -> 0 < mask_height mask ->
  let t := calculateFitTransform photoWidth photoHeight mask mode in
  pt_x t = mask_x mask + (mask_width mask - scaledWidth photoWidth t) / 2 /\
  (mode = Some center ->
   pt_y t
   = mask_y mask + (mask_height mask - scaledHeight photoHeight t) / 2) /\
  (mode <> Some center ->
   pt_y t
   = mask_y mask - (scaledHeight photoHeight t - mask_height mask) * 0.2) /\
  pt_rotation t = 0.
Proof.
  intros _ _ _ _. cbv zeta.
  unfold scaledWidth, scaledHeight, calculateFitTransform,
    calculateFitTransformWith.
  destruct mode as [[ | | ] | ]; simpl; repeat split;
    intros; try reflexivity; try discriminate; contradiction.
Qed.

Lemma transform_position_witness :
  let mask := mkMask 10 20 200 200 in
  let t := calculateFitTransform 400 300 mask (Some center) in
  pt_x t = mask_x mask + (mask_width mask - scaledWidth 400 t) / 2 /\
  (Some center = Some center ->
   pt_y t = mask_y mask + (mask_height mask - scaledHeight 300 t) / 2) /\
  (Some center <> Some center ->
   pt_y t = mask_y mask - (scaledHeight 300 t - mask_height mask) * 0.2) /\
  pt_rotation t = 0.
Proof.
  apply (transform_position 400 300 (mkMask 10 20 200 200) (Some center));
    reflexivity.
Defined.

(** C10 in exact arithmetic: the four inequalities hold as the claim
    states them. *)
Lemma fit_mode_exact_containment (photoWidth photoHeight : Q)
    (mask : MaskGeometry) :
  0 < photoWidth -> 0 < photoHeight ->
  0 < mask_width mask -> 0 < mask_height mask ->
  let t := calculateFitTransform photoWidth photoHeight mask (Some fit) in
  mask_x mask <= pt_x t /\
  pt_x t + scaledWidth photoWidth t <= mask_x mask + mask_width mask /\
  mask_y mask <= pt_y t /\
  pt_y t + scaledHeight photoHeight t <= mask_y mask + mask_height mask.
Proof.
  intros Hpw Hph Hmw Hmh. cbv zeta.
  destruct (fit_scale_contained photoWidth photoHeight mask) as [Hw Hh];
    try assumption.
  unfold scaledWidth, scaledHeight, calculateFitTransform,
    calculateFitTransformWith. simpl.
  set (s := fitScale photoWidth photoHeight mask fit) in *.
  rewrite Qhalf. repeat split; lra.
Qed.

(** C10, as stated, fails in the code's binary64 arithmetic: for a 800x600
    photo and the mask (100, 385, 880, 900) in 'fit' mode the scaled width
    is 880.0000000000001, more than the mask's 880, and x is
    99.99999999999994, left of the mask's x = 100.  The statement the code
    does meet, with the slack that rounding needs, is proved under
    rounding below. *)
Lemma fit_mode_photo_inside_mask_counterexample :
  let mask := mkMask64 100 385 880 900 in
  let t := calculateFitTransform64 800 600 mask (Some fit) in
  photoInsideMask64 800 600 mask t = false /\
  (t64_x t <? m64_x mask)%float = true /\
  (m64_width mask <? 800 * t64_scale t)%float = true.
Proof. vm_compute. repeat split. Qed.

(** The miss is small: at that input x is within 2^-40 of the mask's and
    the scaled width within 2^-40 of the mask's width. *)
Lemma fit_mode_binary64_near_miss :
  let mask := mkMask64 100 385 880 900 in
  let t := calculateFitTransform64 800 600 mask (Some fit) in
  (m64_x mask - 0x1p-40 <? t64_x t)%float = true /\
  (800 * t64_scale t <? m64_width mask + 0x1p-40)%float = true.
Proof. vm_compute. split; reflexivity. Qed.

(** ** Frame space and canvas space *)

Lemma frameScaleOf_pos (frame : FrameAsset) :
  0 < frame_width frame -> 0 < frame_height frame -> 0 < frameScaleOf frame.
Proof.
  intros Hw Hh. unfold frameScaleOf.
  apply Q.min_glb_lt; apply Qlt_shift_div_l; try assumption;
    rewrite Qmult_0_l; reflexivity.
Qed.

(** C7.  For a frame with positive width and height, converting a mask from
    the frame's own pixel space to canvas space (scale by [frameScale], add
    the centring offsets) and then applying the inverse of the same scale
    and offsets gives back the original mask. *)
Theorem mask_canvas_round_trip (frame : FrameAsset) (mask : MaskGeometry) :
  0 < frame_width frame -> 0 < frame_height frame ->
  mask_eq (unscaledMask_spec frame (scaledMask frame mask)) mask.
Proof.
  intros Hw Hh.
  pose proof (frameScaleOf_pos frame Hw Hh) as Hs.
  unfold mask_eq, unscaledMask_spec, scaledMask; simpl.
  set (s := frameScaleOf frame) in *.
  repeat split; field; lra.
Qed.

Lemma mask_canvas_round_trip_witness :
  let frame := mkFrame "f" "frame" "" 572 800 None in
  let mask := mkMask 86 235 400 385 in
  mask_eq (unscaledMask_spec frame (scaledMask frame mask)) mask.
Proof.
  apply (mask_canvas_round_trip (mkFrame "f" "frame" "" 572 800 None)
                                (mkMask 86 235 400 385)); reflexivity.
Defined.

(** ** Selecting a frame *)

(** C4, as the source has it.  Selecting a frame yields, in one state
    update, the new frame id together with the transform.  When the frame is
    in the collection with a mask and the selected photo is in the photo
    collection, the transform is recomputed by [calculateFitTransform] in
    'fill' mode against the frame's mask in canvas coordinates.  When the
    frame has no mask the transform is the previous one: nothing is
    recomputed. *)
Theorem handleFrameSelect_transition (frames : list FrameAsset)
    (photos : list PhotoAsset) (frameId : string) (prev : CardProject)
    (frame : FrameAsset) (photo : PhotoAsset) :
  List.find (fun f => String.eqb (frame_id f) frameId) frames = Some frame ->
  List.find (fun p => isSelected (photo_id p) (selectedPhotoId prev)) photos
    = Some photo ->
  let next := handleFrameSelect frames photos frameId prev in
  selectedFrameId next = Some frameId /\
  selectedPhotoId next = selectedPhotoId prev /\
  textProperties next = textProperties prev /\
  (forall mask, frame_mask frame = Some mask ->
     photoTransform next =
       calculateFitTransform (photo_width photo) (photo_height photo)
                             (scaledMask frame mask) (Some fill)) /\
  (frame_mask frame = None -> photoTransform next = photoTransform prev).
Proof.
  intros Hframe Hphoto. cbv zeta. unfold handleFrameSelect.
  rewrite Hframe, Hphoto. simpl.
  repeat split.
  - intros mask Hmask. rewrite Hmask. reflexivity.
  - intros Hmask. rewrite Hmask. reflexivity.
Qed.

Lemma handleFrameSelect_transition_witness :
  let next :=
    handleFrameSelect [maskless_frame] [portrait_photo] "f2" dragged_project in
  selectedFrameId next = Some "f2"%string /\
  photoTransform next = photoTransform dragged_project.
Proof.
  pose proof (handleFrameSelect_transition [maskless_frame] [portrait_photo]
                "f2" dragged_project maskless_frame portrait_photo
                eq_refl eq_refl) as H.
  cbv zeta in H. destruct H as (Hid & _ & _ & _ & Hkeep).
  split; [exact Hid | exact (Hkeep eq_refl)].
Defined.

(** C4, as the specification words it, fails: with a photo selected,
    selecting a frame that has no mask leaves the transform as it was; it is
    neither the 'fill' transform against the default centred region nor the
    default transform. *)
Lemma handleFrameSelect_no_mask_counterexample :
  let next :=
    handleFrameSelect [maskless_frame] [portrait_photo] "f2" dragged_project in
  List.find (fun f => String.eqb (frame_id f) "f2") [maskless_frame]
    = Some maskless_frame /\
  frame_mask maskless_frame = None /\
  List.find (fun p => isSelected (photo_id p)
                        (selectedPhotoId dragged_project)) [portrait_photo]
    = Some portrait_photo /\
  ~ transform_eq (photoTransform next)
      (calculateFitTransform (photo_width portrait_photo)
         (photo_height portrait_photo) defaultCanvasRegion (Some fill)) /\
  ~ transform_eq (photoTransform next) DEFAULT_PHOTO_TRANSFORM.
Proof.
  cbv zeta. repeat split; try reflexivity.
  - intros (_ & _ & Hscale & _). vm_compute in Hscale. discriminate.
  - intros (_ & _ & Hscale & _). vm_compute in Hscale. discriminate.
Qed.

(** ** The saved-card gallery *)

Lemma removelast_cons_nonempty {A : Type} (a : A) (l : list A) :
  l <> [] -> removelast (a :: l) = a :: removelast l.
Proof. destruct l; [contradiction | reflexivity]. Qed.

Lemma removelast_length_pred {A : Type} (l : list A) :
  length (removelast l) = Nat.pred (length l).
Proof.
  rewrite removelast_firstn_len, length_firstn. lia.
Qed.

(** C8.  For a saved-card list of at most 20 entries, saving a card puts the
    new card first and keeps at most 20 entries: below 20 the old entries
    all follow it, and at 20 (21 after the insertion) the last, oldest entry
    is dropped. *)
Theorem keepLastCards_bounded (newCard : SavedCard)
    (savedCards : list SavedCard) :
  (length savedCards <= 20)%nat ->
  let saved := keepLastCards newCard savedCards in
  (length saved <= 20)%nat /\
  head saved = Some newCard /\
  ((length savedCards < 20)%nat -> saved = newCard :: savedCards) /\
  (length savedCards = 20%nat ->
   saved = newCard :: removelast savedCards /\
   newCard :: savedCards = saved ++ [List.last savedCards newCard]).
Proof.
  intros Hlen. cbv zeta. unfold keepLastCards.
  destruct (20 <? length (newCard :: savedCards))%nat eqn:E.
  - apply Nat.ltb_lt in E. simpl in E.
    assert (H20 : length savedCards = 20%nat) by lia.
    assert (Hne : savedCards <> []) by (intros ->; discriminate).
    rewrite (removelast_cons_nonempty _ _ Hne).
    repeat split.
    + simpl. rewrite removelast_length_pred. lia.
    + intros; lia.
    + rewrite <- app_comm_cons. f_equal.
      apply app_removelast_last. exact Hne.
  - apply Nat.ltb_ge in E. simpl in E.
    repeat split; simpl; try lia.
Qed.

Lemma keepLastCards_bounded_witness :
  let saved := keepLastCards newest_card (repeat sample_card 20) in
  (length saved <= 20)%nat /\ head saved = Some newest_card /\
  saved = newest_card :: removelast (repeat sample_card 20).
Proof.
  pose proof (keepLastCards_bounded newest_card (repeat sample_card 20)) as H.
  cbv zeta in H.
  destruct H as (Hlen & Hhead & _ & Hfull); [vm_compute; lia |].
  destruct (Hfull eq_refl) as [Hevict _].
  repeat split; assumption.
Defined.

(** [handleSaveCard] writes exactly the list [keepLastCards] builds. *)
Lemma handleSaveCard_stores (parseCards : string -> option (list SavedCard))
    (stringifyCards : list SavedCard -> string)
    (dataUrl now isoNow : string) (frame : FrameAsset)
    (project : CardProject) (ls : LocalStorage)
    (savedCards : list SavedCard) :
  ls_denied ls = false ->
  parseCards (default "[]"%string (truthy (ls_items ls !! SAVED_CARDS)))
    = Some savedCards ->
  (forall value, ls_overQuota ls SAVED_CARDS value = false) ->
  let newCard :=
    {| card_id := "card-" +:+ now;
       card_timestamp := isoNow;
       card_imageData := dataUrl;
       card_frameId := selectedFrameId project;
       card_photoId := selectedPhotoId project |} in
  ls_items (handleSaveCard parseCards stringifyCards (Some (Some dataUrl))
              (Some frame) project now isoNow ls) !! SAVED_CARDS
  = Some (stringifyCards (keepLastCards newCard savedCards)).
Proof.
  intros Hok Hparse Hquota. cbv zeta.
  unfold handleSaveCard, getItem, setItem, JSON_parse, mbind,
    Completion_bind, Js.bind.
  rewrite Hok. cbn beta iota. rewrite Hparse. cbn beta iota.
  rewrite Hquota. cbn. apply lookup_insert_eq.
Qed.

(** ** Persistence reads *)

Section LoadProperties.

Variable parseFrames : string -> option (list FrameAsset).
Variable parsePhotos : string -> option (list PhotoAsset).
Variable parseProject : string -> option CardProject.
Variable ls : LocalStorage.

Lemma loadFrames_returns :
  exists frames, loadFrames parseFrames ls = Normal frames.
Proof. unfold loadFrames. unfold_read. read_returns parseFrames. Qed.

Lemma loadFrames_failure :
  readFails parseFrames ls FRAMES -> loadFrames parseFrames ls = Normal [].
Proof. unfold loadFrames. unfold_read. read_fails. Qed.

Lemma loadPhotos_returns :
  exists photos, loadPhotos parsePhotos ls = Normal photos.
Proof. unfold loadPhotos. unfold_read. read_returns parsePhotos. Qed.

Lemma loadPhotos_failure :
  readFails parsePhotos ls PHOTOS -> loadPhotos parsePhotos ls = Normal [].
Proof. unfold loadPhotos. unfold_read. read_fails. Qed.

Lemma loadProject_returns :
  exists project, loadProject parseProject ls = Normal project.
Proof. unfold loadProject. unfold_read. read_returns parseProject. Qed.

Lemma loadProject_failure :
  readFails parseProject ls PROJECT ->
  loadProject parseProject ls = Normal defaultProject.
Proof. unfold loadProject. unfold_read. read_fails. Qed.

End LoadProperties.

(** C9.  Each of the three reads completes normally, whatever the store
    holds: none throws.  A read that fails (the store denies access, or the
    stored text does not parse) or finds no stored value returns the empty
    collection for frames and for photos, and the default project (no
    selections, default transform and text properties) for the project. *)
Theorem storage_reads_absorb_failures
    (parseFrames : string -> option (list FrameAsset))
    (parsePhotos : string -> option (list PhotoAsset))
    (parseProject : string -> option CardProject) (ls : LocalStorage) :
  ((exists frames, loadFrames parseFrames ls = Normal frames) /\
   (exists photos, loadPhotos parsePhotos ls = Normal photos) /\
   (exists project, loadProject parseProject ls = Normal project)) /\
  (readFails parseFrames ls FRAMES -> loadFrames parseFrames ls = Normal []) /\
  (readFails parsePhotos ls PHOTOS -> loadPhotos parsePhotos ls = Normal []) /\
  (readFails parseProject ls PROJECT ->
   loadProject parseProject ls =
     Normal {| selectedFrameId := None;
               selectedPhotoId := None;
               photoTransform := DEFAULT_PHOTO_TRANSFORM;
               textProperties := DEFAULT_TEXT_PROPERTIES |}).
Proof.
  repeat split.
  - apply loadFrames_returns.
  - apply loadPhotos_returns.
  - apply loadProject_returns.
  - apply loadFrames_failure.
  - apply loadPhotos_failure.
  - apply loadProject_failure.
Qed.

Lemma storage_reads_absorb_failures_witness :
  let denied :=
    {| ls_items := ∅; ls_denied := true;
       ls_overQuota := fun _ _ => false |} in
  let garbled :=
    {| ls_items := {[ PROJECT := "{oops"%string ]}; ls_denied := false;
       ls_overQuota := fun _ _ => false |} in
  loadFrames (fun _ => None) denied = Normal [] /\
  loadPhotos (fun _ => None) garbled = Normal [] /\
  loadProject (fun _ => None) garbled = Normal defaultProject.
Proof.
  pose proof (storage_reads_absorb_failures (fun _ => None) (fun _ => None)
                (fun _ => None)
                {| ls_items := ∅; ls_denied := true;
                   ls_overQuota := fun _ _ => false |})
    as (_ & Hframes & _ & _).
  pose proof (storage_reads_absorb_failures (fun _ => None) (fun _ => None)
                (fun _ => None)
                {| ls_items := {[ PROJECT := "{oops"%string ]};
                   ls_denied := false;
                   ls_overQuota := fun _ _ => false |})
    as (_ & _ & Hphotos & Hproject).
  cbv zeta. split; [| split].
  - apply Hframes. left. reflexivity.
  - apply Hphotos. right; left. vm_compute. reflexivity.
  - apply Hproject. right; right. exists "{oops"%string.
    split; [vm_compute |]; reflexivity.
Defined.

(** ** Mask auto-detection *)

Lemma fold_left_fmap_list {A B C : Type} (f : A -> C -> A) (g : B -> C)
    (l : list B) (a : A) :
  fold_left f (g <$> l) a = fold_left (fun a x => f a (g x)) l a.
Proof. revert a. induction l as [| x l IH]; intros a; simpl; auto. Qed.

Lemma fold_left_bind_list {A B C : Type} (f : A -> C -> A) (g : B -> list C)
    (l : list B) (a : A) :
  fold_left f (l ≫= g) a = fold_left (fun a x => fold_left f (g x) a) l a.
Proof.
  revert a. induction l as [| x l IH]; intros a; simpl; [reflexivity |].
  rewrite fold_left_app. apply IH.
Qed.

Lemma fold_left_ext_list {A B : Type} (f g : A -> B -> A) (l : list B) (a : A) :
  (forall a x, f a x = g a x) -> fold_left f l a = fold_left g l a.
Proof.
  intros Hfg. revert a. induction l as [| x l IH]; intros a; simpl;
    [reflexivity |]. rewrite Hfg. apply IH.
Qed.

Section ScanProperties.

Variable pixels : Z -> option Z.
Variables width height : Z.

Lemma scanImage_flat :
  scanImage pixels width height
  = fold_left (visit pixels width) (imageCoords width height)
              (initialScan width height).
Proof.
  unfold scanImage, imageCoords. rewrite fold_left_bind_list.
  apply fold_left_ext_list. intros st y.
  unfold scanRow, rowCoords. rewrite fold_left_fmap_list. reflexivity.
Qed.

Lemma elem_of_imageCoords (p : Z * Z) :
  p ∈ imageCoords width height <-> inImage width height p.
Proof.
  unfold imageCoords, rowCoords, inImage. rewrite list_elem_of_bind.
  destruct p as [x y]; simpl. split.
  - intros (y' & Hin & Hy).
    apply list_elem_of_fmap in Hin as (x' & Heq & Hx).
    inversion Heq; subst x' y'.
    apply elem_of_seqZ in Hx, Hy. lia.
  - intros [Hx Hy]. exists y. split.
    + apply list_elem_of_fmap. exists x. split; [reflexivity |].
      apply elem_of_seqZ. lia.
    + apply elem_of_seqZ. lia.
Qed.

Lemma boundsOf_initial :
  boundsOf pixels width height [] (initialScan width height).
Proof.
  split; simpl; [| discriminate].
  intros _. split; [reflexivity |]. intros p Hp. inversion Hp.
Qed.

Lemma boundsOf_visit (ps : list (Z * Z)) (st : ScanState) (p : Z * Z) :
  inImage width height p ->
  boundsOf pixels width height ps st ->
  boundsOf pixels width height (ps ++ [p]) (visit pixels width st p).
Proof.
  intros [Hx Hy] [Hnone Hsome].
  unfold visit, visitPixel. fold (windowAt pixels width p).
  destruct (windowAt pixels width p) eqn:Hwin.
  - split; simpl; [discriminate |]. intros _.
    destruct (foundTransparent st) eqn:Hfound.
    + destruct (Hsome eq_refl) as (Hbox & Hx0 & Hx1 & Hy0 & Hy1).
      split; [| repeat split].
      * intros q Hq Hq_win. apply elem_of_app in Hq as [Hq | Hq].
        -- specialize (Hbox q Hq Hq_win). lia.
        -- apply list_elem_of_singleton in Hq. subst q. lia.
      * destruct (Z.min_spec (minX st) p.1) as [[_ ->] | [_ ->]];
          [old_extreme Hx0 | new_extreme p].
      * destruct (Z.max_spec (maxX st) p.1) as [[_ ->] | [_ ->]];
          [new_extreme p | old_extreme Hx1].
      * destruct (Z.min_spec (minY st) p.2) as [[_ ->] | [_ ->]];
          [old_extreme Hy0 | new_extreme p].
      * destruct (Z.max_spec (maxY st) p.2) as [[_ ->] | [_ ->]];
          [new_extreme p | old_extreme Hy1].
    + destruct (Hnone eq_refl) as [-> Hclean]. simpl.
      rewrite (Z.min_r width), (Z.max_r 0), (Z.min_r height), (Z.max_r 0)
        by lia.
      split; [| repeat split; new_extreme p].
      intros q Hq Hq_win. apply elem_of_app in Hq as [Hq | Hq].
      * rewrite (Hclean q Hq) in Hq_win. discriminate.
      * apply list_elem_of_singleton in Hq. subst q. lia.
  - split.
    + intros Hfound. destruct (Hnone Hfound) as [Hst Hclean].
      split; [exact Hst |]. intros q Hq.
      apply elem_of_app in Hq as [Hq | Hq]; [auto |].
      apply list_elem_of_singleton in Hq. subst q. exact Hwin.
    + intros Hfound.
      destruct (Hsome Hfound) as (Hbox & Hx0 & Hx1 & Hy0 & Hy1).
      split; [| repeat split;
                [old_extreme Hx0 | old_extreme Hx1
                 | old_extreme Hy0 | old_extreme Hy1]].
      intros q Hq Hq_win. apply elem_of_app in Hq as [Hq | Hq]; [auto |].
      apply list_elem_of_singleton in Hq. subst q. congruence.
Qed.

Lemma boundsOf_fold (ps pre : list (Z * Z)) (st : ScanState) :
  (forall p, p ∈ ps -> inImage width height p) ->
  boundsOf pixels width height pre st ->
  boundsOf pixels width height (pre ++ ps)
           (fold_left (visit pixels width) ps st).
Proof.
  revert pre st. induction ps as [| p ps IH]; intros pre st Hin Hinv; simpl.
  - rewrite app_nil_r. exact Hinv.
  - rewrite (cons_middle p pre ps), app_assoc. apply IH.
    + intros q Hq. apply Hin. apply elem_of_cons. auto.
    + apply boundsOf_visit; [| exact Hinv].
      apply Hin. apply elem_of_cons. auto.
Qed.

(** The scan ends with the bounding box of the image's window pixels. *)
Lemma scanImage_boundsOf :
  boundsOf pixels width height (imageCoords width height)
           (scanImage pixels width height).
Proof.
  rewrite scanImage_flat.
  apply (boundsOf_fold (imageCoords width height) []).
  - intros p. apply elem_of_imageCoords.
  - apply boundsOf_initial.
Qed.

(** Without window pixels nothing is found. *)
Lemma scanImage_nothing_found :
  (forall x y, (0 <= x < width)%Z -> (0 <= y < height)%Z ->
     isWindowPixel pixels (pixelIndex width x y) = false) ->
  foundTransparent (scanImage pixels width height) = false.
Proof.
  intros Hclean. destruct scanImage_boundsOf as [_ Hsome].
  destruct (foundTransparent _); [| reflexivity].
  destruct (Hsome eq_refl) as (_ & (p & Hp & Hwin & _) & _).
  apply elem_of_imageCoords in Hp as [Hx Hy].
  unfold windowAt in Hwin. rewrite (Hclean _ _ Hx Hy) in Hwin. discriminate.
Qed.

(** A detected box lies inside the image. *)
Lemma scanImage_box_in_image :
  foundTransparent (scanImage pixels width height) = true ->
  let st := scanImage pixels width height in
  (0 <= minX st <= maxX st)%Z /\ (maxX st < width)%Z /\
  (0 <= minY st <= maxY st)%Z /\ (maxY st < height)%Z.
Proof.
  intros Hfound. cbv zeta. destruct scanImage_boundsOf as [_ Hsome].
  destruct (Hsome Hfound)
    as (Hbox & (p0 & Hp0 & Hw0 & E0) & (p1 & Hp1 & Hw1 & E1)
        & (q0 & Hq0 & Hv0 & F0) & (q1 & Hq1 & Hv1 & F1)).
  pose proof (Hbox p0 Hp0 Hw0). pose proof (Hbox q0 Hq0 Hv0).
  apply elem_of_imageCoords in Hp0 as [? ?], Hp1 as [? ?],
    Hq0 as [? ?], Hq1 as [? ?].
  lia.
Qed.

End ScanProperties.

(** *** Pixel buffers given by a formula *)

Lemma scanImage_ext (p1 p2 : Z -> option Z) (width height : Z) :
  (forall i, p1 i = p2 i) ->
  scanImage p1 width height = scanImage p2 width height.
Proof.
  intros Hp. rewrite !scanImage_flat. apply fold_left_ext_list.
  intros st [x y]. unfold visit, visitPixel, isWindowPixel.
  rewrite !Hp. reflexivity.
Qed.

Lemma detectRegion_ext (p1 p2 : Z -> option Z) (width height : Z) :
  (forall i, p1 i = p2 i) ->
  detectRegion p1 width height = detectRegion p2 width height.
Proof.
  intros Hp. unfold detectRegion. rewrite (scanImage_ext p1 p2) by exact Hp.
  reflexivity.
Qed.

Section FormulaImages.

Variable pixelAt : Z -> Z -> list Z.
Hypothesis four_channels : forall x y, length (pixelAt x y) = 4%nat.

Lemma length_bind_pixels (g : Z -> list Z) (n : nat) :
  (forall i, length (g i) = 4%nat) ->
  length (seqZ 0 (Z.of_nat n) ≫= g) = (4 * n)%nat.
Proof.
  intros Hg. induction n as [| n IH]; [reflexivity |].
  rewrite seqZ_S, bind_app, length_app, IH. simpl.
  rewrite app_nil_r, Hg. lia.
Qed.

Lemma lookup_bind_pixels (g : Z -> list Z) (n k c : nat) :
  (forall i, length (g i) = 4%nat) ->
  (k < n)%nat -> (c < 4)%nat ->
  (seqZ 0 (Z.of_nat n) ≫= g) !! (4 * k + c)%nat = g (Z.of_nat k) !! c.
Proof.
  intros Hg. induction n as [| n IH]; intros Hk Hc; [lia |].
  rewrite seqZ_S, bind_app.
  destruct (decide (k = n)) as [-> | Hne].
  - rewrite lookup_app_r; rewrite length_bind_pixels by exact Hg; [| lia].
    replace (4 * n + c - 4 * n)%nat with c by lia.
    simpl. rewrite app_nil_r. reflexivity.
  - rewrite lookup_app_l; [apply IH; lia |].
    rewrite length_bind_pixels by exact Hg. lia.
Qed.

Lemma readPixel_rgbaData (width height idx : Z) :
  (0 <= width)%Z -> (0 <= height)%Z ->
  readPixel (rgbaData width height pixelAt) idx
  = pixelRead width height pixelAt idx.
Proof.
  intros Hw Hh. unfold readPixel, pixelRead, rgbaData.
  set (g := fun i => pixelAt (i `mod` width)%Z (i `div` width)%Z).
  assert (Hg : forall i, length (g i) = 4%nat)
    by (intros i; apply four_channels).
  assert (Hn : (width * height)%Z = Z.of_nat (Z.to_nat (width * height)))
    by (rewrite Z2Nat.id; nia).
  destruct (idx <? 0)%Z eqn:Hneg; [reflexivity |].
  apply Z.ltb_ge in Hneg. simpl.
  destruct (width * height * 4 <=? idx)%Z eqn:Hbig.
  - apply Z.leb_le in Hbig. apply lookup_ge_None.
    rewrite Hn, length_bind_pixels by exact Hg. lia.
  - apply Z.leb_gt in Hbig.
    pose proof (Z.div_mod idx 4 ltac:(lia)) as Hdm.
    pose proof (Z.mod_pos_bound idx 4 ltac:(lia)) as Hm.
    assert (Hq : (0 <= idx `div` 4)%Z) by (apply Z.div_pos; lia).
    replace (Z.to_nat idx)
      with (4 * Z.to_nat (idx `div` 4) + Z.to_nat (idx `mod` 4))%nat by lia.
    rewrite Hn, lookup_bind_pixels; try exact Hg; try lia.
    rewrite Z2Nat.id by exact Hq. reflexivity.
Qed.

End FormulaImages.

(** Reading channel [c] of the pixel at [(x, y)]. *)
Lemma pixelRead_at (pixelAt : Z -> Z -> list Z) (width height x y c : Z) :
  (0 <= x < width)%Z -> (0 <= y < height)%Z -> (0 <= c < 4)%Z ->
  pixelRead width height pixelAt (pixelIndex width x y + c)
  = pixelAt x y !! Z.to_nat c.
Proof.
  intros Hx Hy Hc. unfold pixelRead, pixelIndex.
  assert (Hlt : ((y * width + x) * 4 + c < width * height * 4)%Z) by nia.
  assert (Hge : (0 <= (y * width + x) * 4 + c)%Z) by nia.
  replace (((y * width + x) * 4 + c <? 0)%Z) with false
    by (symmetry; apply Z.ltb_ge; lia).
  replace ((width * height * 4 <=? (y * width + x) * 4 + c)%Z) with false
    by (symmetry; apply Z.leb_gt; lia).
  cbn [orb].
  assert (Hdiv : (((y * width + x) * 4 + c) `div` 4 = y * width + x)%Z).
  { rewrite Z.add_comm, Z.div_add by lia.
    rewrite (Z.div_small c 4) by lia. reflexivity. }
  assert (Hmod : (((y * width + x) * 4 + c) `mod` 4 = c)%Z).
  { rewrite Z.add_comm, Z.mod_add by lia. apply Z.mod_small. lia. }
  rewrite Hdiv, Hmod.
  assert (Hcol : ((y * width + x) `mod` width = x)%Z).
  { rewrite Z.add_comm, Z.mod_add by lia. apply Z.mod_small. lia. }
  assert (Hrow : ((y * width + x) `div` width = y)%Z).
  { rewrite Z.add_comm, Z.div_add by lia.
    rewrite (Z.div_small x width) by lia. reflexivity. }
  rewrite Hcol, Hrow. reflexivity.
Qed.

(** On a formula image the window test at [(x, y)] is the test on the
    pixel's four bytes. *)
Lemma isWindowPixel_pixelRead (pixelAt : Z -> Z -> list Z)
    (width height x y : Z) :
  (0 <= x < width)%Z -> (0 <= y < height)%Z ->
  isWindowPixel (pixelRead width height pixelAt) (pixelIndex width x y)
  = pixelIsWindow (pixelAt x y).
Proof.
  intros Hx Hy. unfold isWindowPixel, pixelIsWindow.
  rewrite <- (Z.add_0_r (pixelIndex width x y)) at 2.
  rewrite !pixelRead_at by lia. reflexivity.
Qed.

(** When the window pixels fill exactly the rectangle from [(x0, y0)] to
    [(x1, y1)], the scan ends with that rectangle. *)
Lemma scanImage_rectangle (pixels : Z -> option Z)
    (width height x0 y0 x1 y1 : Z) :
  (0 <= x0 <= x1)%Z -> (x1 < width)%Z ->
  (0 <= y0 <= y1)%Z -> (y1 < height)%Z ->
  (forall x y, (0 <= x < width)%Z -> (0 <= y < height)%Z ->
     isWindowPixel pixels (pixelIndex width x y) = true
     <-> (x0 <= x <= x1)%Z /\ (y0 <= y <= y1)%Z) ->
  scanImage pixels width height
  = {| minX := x0; minY := y0; maxX := x1; maxY := y1;
       foundTransparent := true |}.
Proof.
  intros Hx0 Hx1 Hy0 Hy1 Hwin.
  assert (Hin : forall p, p ∈ imageCoords width height ->
                  windowAt pixels width p = true ->
                  (x0 <= p.1 <= x1)%Z /\ (y0 <= p.2 <= y1)%Z).
  { intros p Hp Hw. apply elem_of_imageCoords in Hp as [Hpx Hpy].
    apply (Hwin _ _ Hpx Hpy). exact Hw. }
  assert (Hcorner : forall x y, (x0 <= x <= x1)%Z -> (y0 <= y <= y1)%Z ->
                      (x, y) ∈ imageCoords width height /\
                      windowAt pixels width (x, y) = true).
  { intros x y Hx Hy. split.
    - apply elem_of_imageCoords. split; simpl; lia.
    - apply Hwin; simpl; lia. }
  destruct (scanImage_boundsOf pixels width height) as [Hnone Hsome].
  destruct (scanImage pixels width height) as [a b c d found].
  simpl in Hnone, Hsome. destruct found.
  - destruct (Hsome eq_refl)
      as (Hbox & (p0 & Hp0 & Hw0 & E0) & (p1 & Hp1 & Hw1 & E1)
          & (q0 & Hq0 & Hv0 & F0) & (q1 & Hq1 & Hv1 & F1)).
    destruct (Hcorner x0 y0) as [Ha Ha']; try lia.
    destruct (Hcorner x1 y1) as [Hb Hb']; try lia.
    pose proof (Hbox _ Ha Ha') as Hlow. pose proof (Hbox _ Hb Hb') as Hhigh.
    pose proof (Hin _ Hp0 Hw0). pose proof (Hin _ Hp1 Hw1).
    pose proof (Hin _ Hq0 Hv0). pose proof (Hin _ Hq1 Hv1).
    simpl in Hlow, Hhigh.
    f_equal; lia.
  - destruct (Hnone eq_refl) as [_ Hclean].
    destruct (Hcorner x0 y0) as [Ha Ha']; try lia.
    rewrite (Hclean _ Ha) in Ha'. discriminate.
Qed.

(** *** Sample frames *)

Lemma squareWindowPixel_length (left top side x y : Z) :
  length (squareWindowPixel left top side x y) = 4%nat.
Proof. unfold squareWindowPixel. destruct (_ && _); reflexivity. Qed.

Lemma detect_squareWindowImage (width height left top side : Z) :
  (0 <= width)%Z -> (0 <= height)%Z ->
  detectTransparentRegion
    (Loaded (squareWindowImage width height left top side) true)
  = Some (detectRegion
            (pixelRead width height (squareWindowPixel left top side))
            width height).
Proof.
  intros Hw Hh. unfold detectTransparentRegion, squareWindowImage.
  cbn [img_data img_width img_height]. f_equal.
  apply detectRegion_ext. intros i.
  apply readPixel_rgbaData; [apply squareWindowPixel_length | |]; assumption.
Qed.

Lemma wellFormed_squareWindowImage (width height left top side : Z) :
  (0 < width)%Z -> (0 < height)%Z ->
  wellFormedImage (squareWindowImage width height left top side).
Proof.
  intros Hw Hh. unfold wellFormedImage, squareWindowImage, rgbaData.
  cbn [img_data img_width img_height]. repeat split; try assumption.
  rewrite <- (Z2Nat.id (width * height)) at 1 by nia.
  rewrite length_bind_pixels
    by (intros i; apply squareWindowPixel_length).
  rewrite Nat2Z.inj_mul, Z2Nat.id by nia. lia.
Qed.

(** The scan of a frame with a transparent square finds the square. *)
Lemma scan_squareWindow (width height left top side : Z) :
  (0 <= left)%Z -> (0 <= top)%Z -> (0 < side)%Z ->
  (left + side <= width)%Z -> (top + side <= height)%Z ->
  scanImage (pixelRead width height (squareWindowPixel left top side))
            width height
  = {| minX := left; minY := top;
       maxX := left + side - 1; maxY := top + side - 1;
       foundTransparent := true |}.
Proof.
  intros Hl Ht Hs Hr Hb. apply scanImage_rectangle; try lia.
  intros x y Hx Hy. rewrite isWindowPixel_pixelRead by assumption.
  unfold squareWindowPixel.
  destruct (_ && _) eqn:E.
  - split; [intros _ | reflexivity].
    repeat (apply andb_true_iff in E as [E ?]). lia.
  - split; [discriminate |]. intros [Hxs Hys].
    exfalso. apply not_true_iff_false in E. apply E.
    repeat (apply andb_true_iff; split); lia.
Qed.

(** What detection returns for a transparent square of side at least 51:
    x and y move out by the padding (not below 0), and the width and height
    are the side plus 9, wherever the square sits in the image. *)
Lemma detect_squareWindow (width height left top side : Z) :
  (0 <= left)%Z -> (0 <= top)%Z -> (51 <= side)%Z ->
  (left + side <= width)%Z -> (top + side <= height)%Z ->
  detectTransparentRegion
    (Loaded (squareWindowImage width height left top side) true)
  = Some {| mask_x := inject_Z (Z.max 0 (left - 5));
            mask_y := inject_Z (Z.max 0 (top - 5));
            mask_width := inject_Z (side + 9);
            mask_height := inject_Z (side + 9) |}.
Proof.
  intros Hl Ht Hs Hr Hb.
  rewrite detect_squareWindowImage by lia.
  unfold detectRegion. rewrite scan_squareWindow by lia.
  unfold insignificant, paddedMask, padding.
  cbn [minX minY maxX maxY foundTransparent negb orb].
  replace (left + side - 1 - left <? 50)%Z with false
    by (symmetry; apply Z.ltb_ge; lia).
  replace (top + side - 1 - top <? 50)%Z with false
    by (symmetry; apply Z.ltb_ge; lia).
  cbn [orb]. rewrite !Z.min_r by lia.
  do 3 f_equal; lia.
Qed.

(** The specification's example: the code returns 209, not 210, for the
    width and height, the box being measured between pixel indices. *)
Lemma detect_centredWindowFrame :
  detectTransparentRegion (Loaded centredWindowFrame true)
  = Some {| mask_x := 95; mask_y := 95;
            mask_width := 209; mask_height := 209 |}.
Proof.
  unfold centredWindowFrame.
  rewrite (detect_squareWindow 400 400 100 100 200) by lia. reflexivity.
Qed.

(** The width and height are never clamped: the first argument of each
    [Math.min] is always the larger one. *)
Lemma paddedMask_unclamped (pixels : Z -> option Z) (width height : Z) :
  let st := scanImage pixels width height in
  foundTransparent st = true ->
  paddedMask width height st
  = {| mask_x := inject_Z (Z.max 0 (minX st - padding));
       mask_y := inject_Z (Z.max 0 (minY st - padding));
       mask_width := inject_Z (maxX st - minX st + padding * 2);
       mask_height := inject_Z (maxY st - minY st + padding * 2) |}.
Proof.
  cbv zeta. intros Hfound.
  pose proof (scanImage_box_in_image pixels width height Hfound) as H.
  cbv zeta in H. unfold paddedMask.
  rewrite !Z.min_r by lia. reflexivity.
Qed.

(** A transparent square that ends less than 5 pixels from the right edge
    of the image, and starts at least 5 pixels from the left one, gives a
    mask that reaches past the right edge. *)
Lemma detect_squareWindow_past_right_edge (width height left top side : Z) :
  (5 <= left)%Z -> (0 <= top)%Z -> (51 <= side)%Z ->
  (left + side <= width)%Z -> (top + side <= height)%Z ->
  (width < left + side + 4)%Z ->
  exists m,
    detectTransparentRegion
      (Loaded (squareWindowImage width height left top side) true) = Some m
    /\ inject_Z width < mask_x m + mask_width m.
Proof.
  intros Hl Ht Hs Hr Hb Hedge. eexists. split.
  - apply detect_squareWindow; lia.
  - cbn [mask_x mask_width]. rewrite <- inject_Z_plus, <- Zlt_Qlt. lia.
Qed.

(** C5, at a frame the code can receive: a 60x60 frame that is transparent
    throughout.  The detected box is the whole frame; the returned mask has
    x = y = 0 and width = height = 69, so it reaches 9 pixels past the right
    and bottom edges of the image instead of being clamped to them. *)
Theorem detection_padding_exceeds_image :
  wellFormedImage clearFrame /\
  exists m,
    detectTransparentRegion (Loaded clearFrame true) = Some m /\
    m = {| mask_x := 0; mask_y := 0; mask_width := 69; mask_height := 69 |} /\
    ~ (mask_x m + mask_width m <= inject_Z (img_width clearFrame)) /\
    ~ (mask_y m + mask_height m <= inject_Z (img_height clearFrame)).
Proof.
  split; [apply wellFormed_squareWindowImage; lia |].
  eexists. split; [| split; [reflexivity | split]].
  - unfold clearFrame.
    rewrite (detect_squareWindow 60 60 0 0 60) by lia. reflexivity.
  - vm_compute. intros H. apply H. reflexivity.
  - vm_compute. intros H. apply H. reflexivity.
Qed.

Lemma detectRegion_insignificant (pixels : Z -> option Z) (width height : Z) :
  insignificant (scanImage pixels width height) = true ->
  detectRegion pixels width height = fallbackMask width height.
Proof. intros H. unfold detectRegion. rewrite H. reflexivity. Qed.

Lemma detectRegion_no_window (pixels : Z -> option Z) (width height : Z) :
  (forall x y, (0 <= x < width)%Z -> (0 <= y < height)%Z ->
     isWindowPixel pixels (pixelIndex width x y) = false) ->
  detectRegion pixels width height = fallbackMask width height.
Proof.
  intros Hclean. apply detectRegion_insignificant. unfold insignificant.
  rewrite (scanImage_nothing_found _ _ _ Hclean). reflexivity.
Qed.

(** C6.  When the image holds no window pixel, or the detected bounding
    box is less than 50 wide or less than 50 high, detection returns the
    fallback rectangle x = 0.15 W, y = 0.15 H, width = 0.7 W,
    height = 0.5 H, where W and H are the image's pixel dimensions. *)
Theorem detection_falls_back (img : ImageData) :
  let pixels := readPixel (img_data img) in
  let W := img_width img in
  let H := img_height img in
  let box := scanImage pixels W H in
  wellFormedImage img ->
  (forall x y, (0 <= x < W)%Z -> (0 <= y < H)%Z ->
     isWindowPixel pixels (pixelIndex W x y) = false)
  \/ (maxX box - minX box < 50)%Z
  \/ (maxY box - minY box < 50)%Z ->
  detectTransparentRegion (Loaded img true)
  = Some {| mask_x := inject_Z W * 0.15;
            mask_y := inject_Z H * 0.15;
            mask_width := inject_Z W * 0.7;
            mask_height := inject_Z H * 0.5 |}.
Proof.
  cbv zeta. intros _ Hcase. unfold detectTransparentRegion. f_equal.
  destruct Hcase as [Hclean | Hsmall].
  - apply detectRegion_no_window. exact Hclean.
  - apply detectRegion_insignificant. unfold insignificant.
    destruct Hsmall as [Hw | Hh].
    + apply Z.ltb_lt in Hw. rewrite Hw. apply orb_true_iff. left.
      apply orb_true_r.
    + apply Z.ltb_lt in Hh. rewrite Hh. apply orb_true_r.
Qed.

Lemma detection_falls_back_witness :
  detectTransparentRegion (Loaded grayDot true)
  = Some {| mask_x := inject_Z 1 * 0.15; mask_y := inject_Z 1 * 0.15;
            mask_width := inject_Z 1 * 0.7; mask_height := inject_Z 1 * 0.5 |}
  /\ detectTransparentRegion (Loaded speckFrame true)
     = Some {| mask_x := inject_Z 2 * 0.15; mask_y := inject_Z 1 * 0.15;
               mask_width := inject_Z 2 * 0.7;
               mask_height := inject_Z 1 * 0.5 |}.
Proof.
  split.
  - apply (detection_falls_back grayDot).
    + unfold wellFormedImage. simpl. lia.
    + left. intros x y Hx Hy. simpl in Hx, Hy.
      assert (x = 0%Z) by lia. assert (y = 0%Z) by lia. subst x y.
      reflexivity.
  - apply (detection_falls_back speckFrame).
    + unfold wellFormedImage. simpl. lia.
    + right. left. vm_compute. reflexivity.
Defined.

(** A uniformly mid-gray, fully opaque image has no window pixel. *)
Lemma grayImage_no_window (width height x y : Z) :
  (0 <= x < width)%Z -> (0 <= y < height)%Z ->
  isWindowPixel (pixelRead width height (fun _ _ => grayPixel))
                (pixelIndex width x y) = false.
Proof.
  intros Hx Hy. rewrite isWindowPixel_pixelRead by assumption. reflexivity.
Qed.

(** The specification's example for C6: a fully opaque, uniformly mid-gray
    image of any size yields the fallback rectangle. *)
Lemma detect_grayImage (width height : Z) :
  (0 <= width)%Z -> (0 <= height)%Z ->
  detectTransparentRegion (Loaded (grayImage width height) true)
  = Some {| mask_x := inject_Z width * 0.15;
            mask_y := inject_Z height * 0.15;
            mask_width := inject_Z width * 0.7;
            mask_height := inject_Z height * 0.5 |}.
Proof.
  intros Hw Hh. unfold detectTransparentRegion, grayImage.
  cbn [img_data img_width img_height]. f_equal.
  rewrite (detectRegion_ext _ (pixelRead width height (fun _ _ => grayPixel)))
    by (intros i; apply readPixel_rgbaData; [reflexivity | |]; assumption).
  apply detectRegion_no_window. intros x y. apply grayImage_no_window.
Qed.

(** * Further properties *)

(** ** More on the fit transform calculator *)

Lemma div_pos (a b : Q) : 0 < a -> 0 < b -> 0 < a / b.
Proof.
  intros Ha Hb. apply Qlt_shift_div_l; [assumption |].
  rewrite Qmult_0_l. assumption.
Qed.

(** Unfolding a transform down to the scale. *)
Ltac unfold_transform :=
  unfold scaledWidth, scaledHeight, calculateFitTransform,
    calculateFitTransformWith; cbn [default pt_x pt_y pt_scale pt_rotation].

(** ** More on mask auto-detection *)

(** Whenever detection keeps the box it found, the returned mask contains
    every window pixel of the image, as the unit square at its
    coordinates. *)
Theorem detected_mask_contains_window_pixels (img : ImageData)
    (m : MaskGeometry) (x y : Z) :
  let pixels := readPixel (img_data img) in
  let W := img_width img in
  let H := img_height img in
  detectTransparentRegion (Loaded img true) = Some m ->
  insignificant (scanImage pixels W H) = false ->
  (0 <= x < W)%Z -> (0 <= y < H)%Z ->
  isWindowPixel pixels (pixelIndex W x y) = true ->
  mask_x m <= inject_Z x /\ inject_Z x + 1 <= mask_x m + mask_width m /\
  mask_y m <= inject_Z y /\ inject_Z y + 1 <= mask_y m + mask_height m.
Proof.
  cbv zeta. intros Hdet Hsig Hx Hy Hwin.
  unfold detectTransparentRegion, detectRegion in Hdet.
  rewrite Hsig in Hdet. injection Hdet as <-.
  assert (Hfound : foundTransparent
                     (scanImage (readPixel (img_data img)) (img_width img)
                                (img_height img)) = true).
  { unfold insignificant in Hsig.
    apply orb_false_iff in Hsig as [Hsig _].
    apply orb_false_iff in Hsig as [Hsig _].
    apply negb_false_iff in Hsig. exact Hsig. }
  rewrite paddedMask_unclamped by exact Hfound.
  destruct (scanImage_boundsOf (readPixel (img_data img)) (img_width img)
                               (img_height img)) as [_ Hsome].
  destruct (Hsome Hfound) as (Hbox & _).
  assert (Hin : (x, y) ∈ imageCoords (img_width img) (img_height img))
    by (apply elem_of_imageCoords; split; assumption).
  destruct (Hbox (x, y) Hin Hwin) as [Hbx Hby]. simpl in Hbx, Hby.
  cbn [mask_x mask_y mask_width mask_height]. unfold padding.
  change 1 with (inject_Z 1).
  rewrite <- !inject_Z_plus, <- !Zle_Qle. lia.
Qed.

Lemma scan_squareWindowImage (width height left top side : Z) :
  (0 <= left)%Z -> (0 <= top)%Z -> (0 < side)%Z ->
  (left + side <= width)%Z -> (top + side <= height)%Z ->
  scanImage
    (readPixel (img_data (squareWindowImage width height left top side)))
    width height
  = {| minX := left; minY := top;
       maxX := left + side - 1; maxY := top + side - 1;
       foundTransparent := true |}.
Proof.
  intros Hl Ht Hs Hr Hb.
  rewrite <- (scan_squareWindow width height left top side) by assumption.
  apply scanImage_ext. intros i. unfold squareWindowImage.
  cbn [img_data].
  apply readPixel_rgbaData; [apply squareWindowPixel_length | lia | lia].
Qed.

Lemma detected_mask_contains_window_pixels_witness :
  let m := {| mask_x := 0; mask_y := 0;
              mask_width := 69; mask_height := 69 |} in
  mask_x m <= inject_Z 59 /\ inject_Z 59 + 1 <= mask_x m + mask_width m /\
  mask_y m <= inject_Z 0 /\ inject_Z 0 + 1 <= mask_y m + mask_height m.
Proof.
  apply (detected_mask_contains_window_pixels clearFrame
           {| mask_x := 0; mask_y := 0;
              mask_width := 69; mask_height := 69 |} 59 0).
  - unfold clearFrame. apply (detect_squareWindow 60 60 0 0 60); lia.
  - unfold clearFrame. cbn [img_width img_height squareWindowImage].
    rewrite scan_squareWindowImage by lia. reflexivity.
  - simpl. lia.
  - simpl. lia.
  - vm_compute. reflexivity.
Defined.

(** For a well-formed image detection always returns a mask with positive
    width and height whose top-left corner lies inside the image. *)
Theorem detected_mask_is_proper (img : ImageData) :
  wellFormedImage img ->
  exists m,
    detectTransparentRegion (Loaded img true) = Some m /\
    0 <= mask_x m /\ mask_x m < inject_Z (img_width img) /\
    0 <= mask_y m /\ mask_y m < inject_Z (img_height img) /\
    0 < mask_width m /\ 0 < mask_height m.
Proof.
  intros (HW & HH & _). eexists. split; [reflexivity |].
  unfold detectRegion.
  set (st := scanImage (readPixel (img_data img)) (img_width img)
                       (img_height img)).
  destruct (insignificant st) eqn:Hsig.
  - unfold fallbackMask. cbn [mask_x mask_y mask_width mask_height].
    assert (0 < inject_Z (img_width img))
      by (change 0 with (inject_Z 0); rewrite <- Zlt_Qlt; exact HW).
    assert (0 < inject_Z (img_height img))
      by (change 0 with (inject_Z 0); rewrite <- Zlt_Qlt; exact HH).
    repeat split; lra.
  - assert (Hfound : foundTransparent st = true).
    { unfold insignificant in Hsig.
      apply orb_false_iff in Hsig as [Hsig _].
      apply orb_false_iff in Hsig as [Hsig _].
      apply negb_false_iff in Hsig. exact Hsig. }
    pose proof (scanImage_box_in_image _ _ _ Hfound) as Hbox.
    cbv zeta in Hbox. fold st in Hbox.
    unfold paddedMask, padding. cbn [mask_x mask_y mask_width mask_height].
    change 0 with (inject_Z 0).
    rewrite <- !Zle_Qle, <- !Zlt_Qlt. lia.
Qed.

Lemma detected_mask_is_proper_witness :
  exists m,
    detectTransparentRegion (Loaded speckFrame true) = Some m /\
    0 <= mask_x m /\ mask_x m < inject_Z (img_width speckFrame) /\
    0 <= mask_y m /\ mask_y m < inject_Z (img_height speckFrame) /\
    0 < mask_width m /\ 0 < mask_height m.
Proof.
  apply (detected_mask_is_proper speckFrame).
  unfold wellFormedImage. simpl. lia.
Defined.

(** The size threshold, on a frame that is opaque mid-gray except for one
    transparent square inside it: a square of side 51 or more is detected,
    and the mask is the square moved out by 5 at the top-left (not below 0)
    with side plus 9 as width and height; a square of side 50 or less is
    discarded and the fallback rectangle returned. *)
Theorem square_window_threshold (width height left top side : Z) :
  (0 <= left)%Z -> (0 <= top)%Z -> (0 < side)%Z ->
  (left + side <= width)%Z -> (top + side <= height)%Z ->
  detectTransparentRegion
    (Loaded (squareWindowImage width height left top side) true)
  = Some (if (51 <=? side)%Z
          then {| mask_x := inject_Z (Z.max 0 (left - 5));
                  mask_y := inject_Z (Z.max 0 (top - 5));
                  mask_width := inject_Z (side + 9);
                  mask_height := inject_Z (side + 9) |}
          else {| mask_x := inject_Z width * 0.15;
                  mask_y := inject_Z height * 0.15;
                  mask_width := inject_Z width * 0.7;
                  mask_height := inject_Z height * 0.5 |}).
Proof.
  intros Hl Ht Hs Hr Hb.
  destruct (51 <=? side)%Z eqn:E.
  - apply Z.leb_le in E. apply detect_squareWindow; assumption.
  - apply Z.leb_gt in E.
    unfold detectTransparentRegion.
    cbn [img_width img_height squareWindowImage]. f_equal.
    apply detectRegion_insignificant.
    change (rgbaData width height (squareWindowPixel left top side))
      with (img_data (squareWindowImage width height left top side)).
    rewrite scan_squareWindowImage by assumption.
    unfold insignificant. cbn [minX maxX minY maxY foundTransparent negb orb].
    replace (left + side - 1 - left <? 50)%Z with true
      by (symmetry; apply Z.ltb_lt; lia).
    reflexivity.
Qed.

Lemma square_window_threshold_witness :
  detectTransparentRegion (Loaded (squareWindowImage 400 400 100 100 50) true)
  = Some {| mask_x := inject_Z 400 * 0.15;
            mask_y := inject_Z 400 * 0.15;
            mask_width := inject_Z 400 * 0.7;
            mask_height := inject_Z 400 * 0.5 |}
  /\ detectTransparentRegion
       (Loaded (squareWindowImage 400 400 100 100 51) true)
     = Some {| mask_x := 95; mask_y := 95;
               mask_width := 60; mask_height := 60 |}.
Proof.
  split.
  - apply (square_window_threshold 400 400 100 100 50); lia.
  - apply (square_window_threshold 400 400 100 100 51); lia.
Defined.

(** ** [Math.min] of three numbers *)

Lemma Qmin3_le (a b c : Q) :
  Qmin3 a b c <= a /\ Qmin3 a b c <= b /\ Qmin3 a b c <= c.
Proof.
  unfold Qmin3.
  pose proof (Q.le_min_l (Qmin a b) c). pose proof (Q.le_min_r (Qmin a b) c).
  pose proof (Q.le_min_l a b). pose proof (Q.le_min_r a b).
  repeat split; lra.
Qed.

Lemma Qmin3_pos (a b c : Q) : 0 < a -> 0 < b -> 0 < c -> 0 < Qmin3 a b c.
Proof.
  intros Ha Hb Hc. unfold Qmin3.
  apply Q.min_glb_lt; [apply Q.min_glb_lt |]; assumption.
Qed.

(** ** Writing to the store *)

(** Unfolding a write to the store, and a read after it. *)
Ltac unfold_write :=
  unfold saveFrames, savePhotos, saveProject, setItem, tryCatch.
Ltac unfold_load :=
  unfold loadFrames, loadPhotos, loadProject, tryCatch; unfold_read.

Lemma storage_keys_distinct :
  FRAMES <> PHOTOS /\ FRAMES <> PROJECT /\ PHOTOS <> PROJECT /\
  SAVED_CARDS <> FRAMES /\ SAVED_CARDS <> PHOTOS /\ SAVED_CARDS <> PROJECT.
Proof. repeat split; discriminate. Qed.

(** What is saved is what is loaded next: when the store is accessible
    and accepts the write in question, each save followed by the matching
    load returns the saved value, provided the serialised text is not empty
    and parses back to the value. *)
Theorem save_then_load_round_trip
    (parseFrames : string -> option (list FrameAsset))
    (parsePhotos : string -> option (list PhotoAsset))
    (parseProject : string -> option CardProject)
    (stringifyFrames : list FrameAsset -> string)
    (stringifyPhotos : list PhotoAsset -> string)
    (stringifyProject : CardProject -> string)
    (ls : LocalStorage) (frames : list FrameAsset)
    (photos : list PhotoAsset) (project : CardProject) :
  ls_denied ls = false ->
  (ls_overQuota ls FRAMES (stringifyFrames frames) = false ->
   stringifyFrames frames <> EmptyString ->
   parseFrames (stringifyFrames frames) = Some frames ->
   exists ls', saveFrames stringifyFrames ls frames = Normal ls' /\
               loadFrames parseFrames ls' = Normal frames) /\
  (ls_overQuota ls PHOTOS (stringifyPhotos photos) = false ->
   stringifyPhotos photos <> EmptyString ->
   parsePhotos (stringifyPhotos photos) = Some photos ->
   exists ls', savePhotos stringifyPhotos ls photos = Normal ls' /\
               loadPhotos parsePhotos ls' = Normal photos) /\
  (ls_overQuota ls PROJECT (stringifyProject project) = false ->
   stringifyProject project <> EmptyString ->
   parseProject (stringifyProject project) = Some project ->
   exists ls', saveProject stringifyProject ls project = Normal ls' /\
               loadProject parseProject ls' = Normal project).
Proof.
  intros Hok.
  split; [| split]; intros Hquota Hne Hparse; eexists;
    (split; [unfold_write; rewrite Hok, Hquota; reflexivity |]);
    unfold_load; cbn; rewrite lookup_insert_eq;
    match goal with
    | |- context [truthy (Some ?text)] => destruct text; [contradiction |]
    end;
    cbn; rewrite Hparse; reflexivity.
Qed.

Lemma save_then_load_round_trip_witness :
  let ls := {| ls_items := {[ FRAMES := "[]"%string ]}; ls_denied := false;
               ls_overQuota :=
                 fun _ value => (8 <? String.length value)%nat |} in
  let stringify := fun _ : list FrameAsset => "[f2]"%string in
  let parse := fun text : string =>
    if String.eqb text "[f2]" then Some [maskless_frame] else None in
  exists ls',
    saveFrames stringify ls [maskless_frame] = Normal ls' /\
    loadFrames parse ls' = Normal [maskless_frame].
Proof.
  cbv zeta.
  pose proof (save_then_load_round_trip
                (fun text : string =>
                   if String.eqb text "[f2]" then Some [maskless_frame]
                   else None)
                (fun _ => None) (fun _ => None)
                (fun _ => "[f2]"%string) (fun _ => "[]"%string)
                (fun _ => "{}"%string)
                {| ls_items := {[ FRAMES := "[]"%string ]};
                   ls_denied := false;
                   ls_overQuota :=
                     fun _ value => (8 <? String.length value)%nat |}
                [maskless_frame] [] defaultProject eq_refl) as (H & _).
  apply H; [reflexivity | discriminate | reflexivity].
Defined.

(** A guarded write completes normally; it changes nothing when refused,
    and never more than its own key. *)
Lemma guarded_write (ls : LocalStorage) (key text : string) :
  exists ls',
    tryCatch (setItem ls key text) (fun _ => Normal ls) = Normal ls' /\
    (ls_denied ls = true \/ ls_overQuota ls key text = true -> ls' = ls) /\
    ls_denied ls' = ls_denied ls /\
    (forall k, k <> key -> ls_items ls' !! k = ls_items ls !! k).
Proof.
  unfold setItem, tryCatch.
  destruct (ls_denied ls) eqn:Hd.
  { exists ls. repeat split; auto. }
  destruct (ls_overQuota ls key text) eqn:Hq.
  { exists ls. repeat split; auto. }
  eexists. split; [reflexivity |]. split; [| split].
  - intros [H | H]; discriminate.
  - reflexivity.
  - intros k Hk. cbn. apply lookup_insert_ne. congruence.
Qed.

(** A load sees only whether the store is accessible and its own item. *)
Lemma loads_local (parseFrames : string -> option (list FrameAsset))
    (parsePhotos : string -> option (list PhotoAsset))
    (parseProject : string -> option CardProject) (ls ls' : LocalStorage) :
  ls_denied ls' = ls_denied ls ->
  (ls_items ls' !! FRAMES = ls_items ls !! FRAMES ->
   loadFrames parseFrames ls' = loadFrames parseFrames ls) /\
  (ls_items ls' !! PHOTOS = ls_items ls !! PHOTOS ->
   loadPhotos parsePhotos ls' = loadPhotos parsePhotos ls) /\
  (ls_items ls' !! PROJECT = ls_items ls !! PROJECT ->
   loadProject parseProject ls' = loadProject parseProject ls).
Proof.
  intros Hd. unfold_load. rewrite Hd.
  repeat split; intros ->; reflexivity.
Qed.

(** The save functions never throw.  When the store refuses the write
    (access denied, or quota exceeded) the store is left as it was; in every
    case a save leaves what the loads of the two other records return
    unchanged. *)
Theorem saves_absorb_failures_and_stay_local
    (parseFrames : string -> option (list FrameAsset))
    (parsePhotos : string -> option (list PhotoAsset))
    (parseProject : string -> option CardProject)
    (stringifyFrames : list FrameAsset -> string)
    (stringifyPhotos : list PhotoAsset -> string)
    (stringifyProject : CardProject -> string)
    (ls : LocalStorage) (frames : list FrameAsset)
    (photos : list PhotoAsset) (project : CardProject) :
  (exists ls',
     saveFrames stringifyFrames ls frames = Normal ls' /\
     (ls_denied ls = true \/
      ls_overQuota ls FRAMES (stringifyFrames frames) = true -> ls' = ls) /\
     loadPhotos parsePhotos ls' = loadPhotos parsePhotos ls /\
     loadProject parseProject ls' = loadProject parseProject ls) /\
  (exists ls',
     savePhotos stringifyPhotos ls photos = Normal ls' /\
     (ls_denied ls = true \/
      ls_overQuota ls PHOTOS (stringifyPhotos photos) = true -> ls' = ls) /\
     loadFrames parseFrames ls' = loadFrames parseFrames ls /\
     loadProject parseProject ls' = loadProject parseProject ls) /\
  (exists ls',
     saveProject stringifyProject ls project = Normal ls' /\
     (ls_denied ls = true \/
      ls_overQuota ls PROJECT (stringifyProject project) = true -> ls' = ls) /\
     loadFrames parseFrames ls' = loadFrames parseFrames ls /\
     loadPhotos parsePhotos ls' = loadPhotos parsePhotos ls).
Proof.
  destruct storage_keys_distinct as (Hfp & Hfj & Hpj & _).
  split; [| split].
  - destruct (guarded_write ls FRAMES (stringifyFrames frames))
      as (ls' & Hw & Hsame & Hd & Hkeys).
    destruct (loads_local parseFrames parsePhotos parseProject ls ls' Hd)
      as (_ & Hp & Hj).
    exists ls'. repeat split; auto.
  - destruct (guarded_write ls PHOTOS (stringifyPhotos photos))
      as (ls' & Hw & Hsame & Hd & Hkeys).
    destruct (loads_local parseFrames parsePhotos parseProject ls ls' Hd)
      as (Hf & _ & Hj).
    exists ls'. repeat split; auto.
  - destruct (guarded_write ls PROJECT (stringifyProject project))
      as (ls' & Hw & Hsame & Hd & Hkeys).
    destruct (loads_local parseFrames parsePhotos parseProject ls ls' Hd)
      as (Hf & Hp & _).
    exists ls'. repeat split; auto.
Qed.

Lemma saves_absorb_failures_and_stay_local_witness :
  let ls := {| ls_items := {[ PHOTOS := "[]"%string ]}; ls_denied := true;
               ls_overQuota := fun _ _ => false |} in
  saveFrames (fun _ => "[]"%string) ls [] = Normal ls.
Proof.
  cbv zeta.
  destruct (saves_absorb_failures_and_stay_local
              (fun _ => None) (fun _ => None) (fun _ => None)
              (fun _ => "[]"%string) (fun _ => "[]"%string)
              (fun _ => "{}"%string)
              {| ls_items := {[ PHOTOS := "[]"%string ]}; ls_denied := true;
                 ls_overQuota := fun _ _ => false |} [] [] defaultProject)
    as ((ls' & Hsave & Hsame & _) & _).
  rewrite Hsave. f_equal. apply Hsame. left. reflexivity.
Defined.

(** [clearStorage] on an accessible store: afterwards the three loads
    return the empty collections and the default project, while every other
    item, the saved-card gallery among them, is kept.  On a store that
    denies access it throws: unlike the loads and saves, it has no
    [try]. *)
Theorem clearStorage_resets_loads
    (parseFrames : string -> option (list FrameAsset))
    (parsePhotos : string -> option (list PhotoAsset))
    (parseProject : string -> option CardProject)
    (ls : LocalStorage) :
  (ls_denied ls = false ->
   exists ls',
     clearStorage ls = Normal ls' /\
     loadFrames parseFrames ls' = Normal [] /\
     loadPhotos parsePhotos ls' = Normal [] /\
     loadProject parseProject ls' = Normal defaultProject /\
     (forall key, key <> FRAMES -> key <> PHOTOS -> key <> PROJECT ->
        ls_items ls' !! key = ls_items ls !! key) /\
     ls_items ls' !! SAVED_CARDS = ls_items ls !! SAVED_CARDS) /\
  (ls_denied ls = true -> exists error, clearStorage ls = Throw error).
Proof.
  destruct storage_keys_distinct as (Hfp & Hfj & Hpj & Hcf & Hcp & Hcj).
  unfold clearStorage, removeItem, mbind, Completion_bind, Js.bind.
  split; intros Hd; rewrite Hd; cbn; [| eauto].
  eexists. split; [reflexivity |].
  assert (Hkeep : forall key, key <> FRAMES -> key <> PHOTOS ->
            key <> PROJECT ->
            delete PROJECT (delete PHOTOS (delete FRAMES (ls_items ls)))
              !! key = ls_items ls !! key).
  { intros key H1 H2 H3. rewrite !lookup_delete_ne by congruence.
    reflexivity. }
  split; [| split; [| split; [| split]]].
  - unfold_load. cbn.
    rewrite lookup_delete_ne, lookup_delete_ne, lookup_delete_eq
      by congruence. reflexivity.
  - unfold_load. cbn.
    rewrite lookup_delete_ne, lookup_delete_eq by congruence. reflexivity.
  - unfold_load. cbn. rewrite lookup_delete_eq. reflexivity.
  - cbn. exact Hkeep.
  - cbn. apply Hkeep; assumption.
Qed.

Lemma clearStorage_resets_loads_witness :
  let ls := {| ls_items := {[ FRAMES := "[1]"%string ]}; ls_denied := false;
               ls_overQuota := fun _ _ => false |} in
  exists ls', clearStorage ls = Normal ls' /\
              loadFrames (fun _ => None) ls' = Normal [].
Proof.
  cbv zeta.
  destruct (clearStorage_resets_loads (fun _ => None) (fun _ => None)
              (fun _ => None)
              {| ls_items := {[ FRAMES := "[1]"%string ]};
                 ls_denied := false;
                 ls_overQuota := fun _ _ => false |}) as [Hok _].
  destruct (Hok eq_refl) as (ls' & Hclear & Hframes & _).
  exists ls'. split; assumption.
Defined.

(** ** Selecting, and the canvas geometry *)

(** With a frame that has a mask, selecting the frame and then the photo
    ends in the same project as selecting the photo and then the frame. *)
Theorem frame_and_photo_selection_commute (frames : list FrameAsset)
    (photos : list PhotoAsset) (frameId photoId : string)
    (prev : CardProject) (frame : FrameAsset) (photo : PhotoAsset)
    (mask : MaskGeometry) :
  List.find (fun f => String.eqb (frame_id f) frameId) frames = Some frame ->
  frame_mask frame = Some mask ->
  List.find (fun p => String.eqb (photo_id p) photoId) photos = Some photo ->
  handlePhotoSelect frames photos photoId
    (handleFrameSelect frames photos frameId prev)
  = handleFrameSelect frames photos frameId
      (handlePhotoSelect frames photos photoId prev)
  /\ photoTransform (handlePhotoSelect frames photos photoId
                       (handleFrameSelect frames photos frameId prev))
     = calculateFitTransform (photo_width photo) (photo_height photo)
                             (scaledMask frame mask) (Some fill).
Proof.
  intros Hframe Hmask Hphoto.
  unfold handlePhotoSelect, handleFrameSelect.
  cbn [selectedFrameId selectedPhotoId photoTransform textProperties].
  cbn [isSelected]. rewrite Hframe, Hphoto, Hmask. split; reflexivity.
Qed.

Lemma frame_and_photo_selection_commute_witness :
  let masked :=
    mkFrame "f1" "frame.png" "" 572 800 (Some (mkMask 86 235 400 385)) in
  handlePhotoSelect [masked] [portrait_photo] "p1"
    (handleFrameSelect [masked] [portrait_photo] "f1" dragged_project)
  = handleFrameSelect [masked] [portrait_photo] "f1"
      (handlePhotoSelect [masked] [portrait_photo] "p1" dragged_project).
Proof.
  cbv zeta.
  apply (frame_and_photo_selection_commute
           [mkFrame "f1" "frame.png" "" 572 800
                    (Some (mkMask 86 235 400 385))]
           [portrait_photo] "f1" "p1" dragged_project
           (mkFrame "f1" "frame.png" "" 572 800
                    (Some (mkMask 86 235 400 385)))
           portrait_photo (mkMask 86 235 400 385)); reflexivity.
Defined.

(** ** Saving a mask *)

Lemma find_map_same_test {A : Type} (test : A -> bool) (g : A -> A)
    (l : list A) :
  (forall a, test (g a) = test a) ->
  List.find test (map g l) = option_map g (List.find test l).
Proof.
  intros Htest. induction l as [| a l IH]; [reflexivity |].
  cbn [map List.find]. rewrite Htest.
  destruct (test a); [reflexivity | exact IH].
Qed.

(** Saving an edited mask for the selected frame, with a photo selected:
    the frame then resolves to itself with the new mask, the project is the
    one that selecting the frame afresh in the updated collection gives,
    and [getCurrentMask] reports the new mask in canvas coordinates. *)
Theorem handleMaskSave_agrees_with_reselection (frames : list FrameAsset)
    (photos : list PhotoAsset) (project : CardProject) (editing : string)
    (frame : FrameAsset) (photo : PhotoAsset) (mask : MaskGeometry) :
  editing <> EmptyString ->
  selectedFrameId project = Some editing ->
  List.find (fun f => String.eqb (frame_id f) editing) frames = Some frame ->
  List.find (fun p => isSelected (photo_id p) (selectedPhotoId project))
            photos = Some photo ->
  let saved := handleMaskSave (Some editing) frames photos project mask in
  List.find (fun f => String.eqb (frame_id f) editing) saved.1
    = Some (withMask frame mask) /\
  saved.2 = handleFrameSelect saved.1 photos editing project /\
  getCurrentMask saved.1 saved.2 = Some (scaledMask frame mask).
Proof.
  intros Hne Hsel Hframe Hphoto. cbv zeta.
  unfold handleMaskSave.
  destruct editing as [| c editing']; [contradiction |].
  cbn [truthy]. set (editing := String c editing') in *.
  cbn [fst snd]. rewrite Hsel, Hphoto, Hframe.
  assert (Hself : isSelected editing (Some editing) = true)
    by (apply String.eqb_refl).
  rewrite Hself.
  set (g := fun frame0 : FrameAsset =>
              if String.eqb (frame_id frame0) editing
              then withMask frame0 mask else frame0).
  assert (Hfind : List.find (fun f => String.eqb (frame_id f) editing)
                            (map g frames) = Some (withMask frame mask)).
  { rewrite find_map_same_test.
    - rewrite Hframe. cbn [option_map]. unfold g.
      apply find_some in Hframe as [_ Hid]. rewrite Hid. reflexivity.
    - intros a. unfold g.
      destruct (String.eqb (frame_id a) editing) eqn:E;
        exact E. }
  split; [exact Hfind | split].
  - unfold handleFrameSelect. rewrite Hfind, Hphoto.
    unfold withTransform. rewrite Hsel. reflexivity.
  - unfold getCurrentMask, selectedFrame, withTransform.
    cbn [selectedFrameId]. rewrite Hsel. cbn [isSelected].
    rewrite Hfind. reflexivity.
Qed.

Lemma handleMaskSave_agrees_with_reselection_witness :
  let unmasked := mkFrame "f1" "frame.png" "" 572 800 None in
  let saved :=
    handleMaskSave (Some "f1"%string) [unmasked] [portrait_photo]
                   dragged_project (mkMask 86 235 400 385) in
  saved.2 = handleFrameSelect saved.1 [portrait_photo] "f1" dragged_project.
Proof.
  cbv zeta.
  pose proof (handleMaskSave_agrees_with_reselection
                [mkFrame "f1" "frame.png" "" 572 800 None] [portrait_photo]
                dragged_project "f1"
                (mkFrame "f1" "frame.png" "" 572 800 None) portrait_photo
                (mkMask 86 235 400 385)) as H.
  cbv zeta in H.
  exact (proj1 (proj2 (H ltac:(discriminate) eq_refl eq_refl eq_refl))).
Defined.

(** Saving a mask while no frame is being edited changes nothing; saving
    it for a frame that is not the selected one, or while no photo is
    selected, leaves the project as it is. *)
Theorem handleMaskSave_leaves_project (frames : list FrameAsset)
    (photos : list PhotoAsset) (project : CardProject)
    (editingMaskFrameId : option string) (mask : MaskGeometry) :
  (truthy editingMaskFrameId = None ->
   handleMaskSave editingMaskFrameId frames photos project mask
   = (frames, project)) /\
  (editingMaskFrameId <> selectedFrameId project \/
   List.find (fun p => isSelected (photo_id p) (selectedPhotoId project))
             photos = None ->
   (handleMaskSave editingMaskFrameId frames photos project mask).2
   = project).
Proof.
  unfold handleMaskSave. split.
  - intros ->. reflexivity.
  - intros Hcase. destruct (truthy editingMaskFrameId) as [editing |] eqn:E;
      [| reflexivity].
    cbn [snd]. destruct Hcase as [Hother | Hphoto].
    + assert (Hno : isSelected editing (selectedFrameId project) = false).
      { destruct (selectedFrameId project) as [sel |]; [| reflexivity].
        cbn [isSelected]. apply String.eqb_neq. intros ->.
        apply Hother. destruct editingMaskFrameId as [[| c e] |];
          cbn [truthy] in E; congruence. }
      rewrite Hno. reflexivity.
    + rewrite Hphoto. destruct (isSelected _ _); reflexivity.
Qed.

Lemma handleMaskSave_leaves_project_witness :
  (handleMaskSave (Some "f9"%string) [maskless_frame] [portrait_photo]
                  dragged_project (mkMask 1 2 3 4)).2 = dragged_project.
Proof.
  apply (handleMaskSave_leaves_project [maskless_frame] [portrait_photo]
           dragged_project (Some "f9"%string) (mkMask 1 2 3 4)).
  left. discriminate.
Defined.

(** ** More on the saved-card gallery *)

Lemma keepLastCards_length (newCard : SavedCard) (cards : list SavedCard) :
  (length cards <= 20)%nat ->
  (length (keepLastCards newCard cards) <= 20)%nat.
Proof.
  intros Hlen. unfold keepLastCards.
  destruct (20 <? length (newCard :: cards))%nat eqn:E.
  - rewrite removelast_length_pred. simpl. lia.
  - apply Nat.ltb_ge in E. exact E.
Qed.

Section SaveCardProperties.

Variable parseCards : string -> option (list SavedCard).
Variable stringifyCards : list SavedCard -> string.
Variable stage : option (option string).
Variable frame : option FrameAsset.
Variable project : CardProject.
Variables now isoNow : string.
Variable ls : LocalStorage.

(** The store after [handleSaveCard] is the store before, or the store
    before with one write under the gallery's key. *)
Lemma handleSaveCard_cases :
  handleSaveCard parseCards stringifyCards stage frame project now isoNow ls
  = ls \/
  exists dataUrl cards,
    stage = Some (Some dataUrl) /\ ls_denied ls = false /\
    parseCards (default "[]"%string (truthy (ls_items ls !! SAVED_CARDS)))
      = Some cards /\
    ls_overQuota ls SAVED_CARDS
      (stringifyCards
         (keepLastCards (newCardOf project now isoNow dataUrl) cards))
    = false /\
    handleSaveCard parseCards stringifyCards stage frame project now isoNow ls
    = {| ls_items :=
           <[SAVED_CARDS :=
               stringifyCards
                 (keepLastCards
                    {| card_id := "card-" +:+ now;
                       card_timestamp := isoNow;
                       card_imageData := dataUrl;
                       card_frameId := selectedFrameId project;
                       card_photoId := selectedPhotoId project |} cards)]>
             (ls_items ls);
         ls_denied := false;
         ls_overQuota := ls_overQuota ls |}.
Proof.
  unfold handleSaveCard.
  destruct stage as [[dataUrl |] |]; [| left; destruct frame; reflexivity
                                      | left; reflexivity].
  destruct frame as [f |]; [| left; reflexivity].
  unfold getItem, setItem, JSON_parse, mbind, Completion_bind, Js.bind.
  destruct (ls_denied ls) eqn:Hd; [left; reflexivity |].
  destruct (parseCards _) as [cards |] eqn:Hparse; [| left; reflexivity].
  destruct (ls_overQuota ls _ _) eqn:Hq; [left; reflexivity |].
  right. exists dataUrl, cards. repeat split; assumption.
Qed.

End SaveCardProperties.

(** Saving a card never touches an item other than the gallery's: the
    frame, photo and project records stay as they were.  When there is no
    stage or no selected frame, when rendering throws, when the store denies
    access, when the stored gallery does not parse, or when the store
    refuses the write of the new list, the store is left exactly as it
    was. *)
Theorem handleSaveCard_is_local_and_safe
    (parseCards : string -> option (list SavedCard))
    (stringifyCards : list SavedCard -> string)
    (stage : option (option string)) (frame : option FrameAsset)
    (project : CardProject) (now isoNow : string) (ls : LocalStorage) :
  let ls' :=
    handleSaveCard parseCards stringifyCards stage frame project now isoNow
                   ls in
  (forall key, key <> SAVED_CARDS ->
     ls_items ls' !! key = ls_items ls !! key) /\
  ls_denied ls' = ls_denied ls /\
  (stage = None \/ stage = Some None \/ frame = None \/
   ls_denied ls = true \/
   parseCards (default "[]"%string (truthy (ls_items ls !! SAVED_CARDS)))
     = None \/
   (exists dataUrl cards,
      stage = Some (Some dataUrl) /\
      parseCards (default "[]"%string (truthy (ls_items ls !! SAVED_CARDS)))
        = Some cards /\
      ls_overQuota ls SAVED_CARDS
        (stringifyCards
           (keepLastCards (newCardOf project now isoNow dataUrl) cards))
      = true) ->
   ls' = ls).
Proof.
  cbv zeta.
  destruct (handleSaveCard_cases parseCards stringifyCards stage frame
              project now isoNow ls)
    as [-> | (dataUrl & cards & Hstage & Hd & Hparse & Hquota & Heq)].
  { repeat split; auto. }
  split; [| split].
  - rewrite Heq. intros key Hkey. cbn. apply lookup_insert_ne. congruence.
  - rewrite Heq. cbn. symmetry. exact Hd.
  - intros [H | [H | [H | [H | [H | H]]]]]; try congruence.
    + subst frame. unfold handleSaveCard.
      destruct stage as [[|]|]; reflexivity.
    + destruct H as (dataUrl' & cards' & Hstage' & Hparse' & Hrefused).
      rewrite Hstage in Hstage'. injection Hstage' as <-.
      rewrite Hparse in Hparse'. injection Hparse' as <-.
      congruence.
Qed.

Lemma handleSaveCard_is_local_and_safe_witness :
  let ls := {| ls_items := {[ FRAMES := "[]"%string ]}; ls_denied := false;
               ls_overQuota :=
                 fun _ value => (8 <? String.length value)%nat |} in
  handleSaveCard (fun _ => Some []) (fun _ => "[a long card]"%string)
                 (Some (Some "url"%string)) (Some maskless_frame)
                 dragged_project "1" "t" ls = ls.
Proof.
  cbv zeta.
  pose proof (handleSaveCard_is_local_and_safe
                (fun _ => Some []) (fun _ => "[a long card]"%string)
                (Some (Some "url"%string)) (Some maskless_frame)
                dragged_project "1" "t"
                {| ls_items := {[ FRAMES := "[]"%string ]};
                   ls_denied := false;
                   ls_overQuota :=
                     fun _ value => (8 <? String.length value)%nat |}) as H.
  cbv zeta in H. destruct H as (_ & _ & H).
  apply H. do 5 right. exists "url"%string, [].
  split; [reflexivity | split; reflexivity].
Defined.

(** The gallery stays bounded across saves: if the stored gallery parses to
    at most 20 cards, then after [handleSaveCard], whatever its outcome, it
    still parses to at most 20 cards, given that the serialised new list is
    not empty and parses back to that list. *)
Theorem handleSaveCard_keeps_gallery_bounded
    (parseCards : string -> option (list SavedCard))
    (stringifyCards : list SavedCard -> string)
    (stage : option (option string)) (frame : option FrameAsset)
    (project : CardProject) (now isoNow : string) (ls : LocalStorage)
    (cards : list SavedCard) :
  parseCards (default "[]"%string (truthy (ls_items ls !! SAVED_CARDS)))
    = Some cards ->
  (length cards <= 20)%nat ->
  (forall dataUrl, stage = Some (Some dataUrl) ->
     let saved :=
       keepLastCards (newCardOf project now isoNow dataUrl) cards in
     stringifyCards saved <> EmptyString /\
     parseCards (stringifyCards saved) = Some saved) ->
  let ls' :=
    handleSaveCard parseCards stringifyCards stage frame project now isoNow
                   ls in
  exists cards',
    parseCards (default "[]"%string (truthy (ls_items ls' !! SAVED_CARDS)))
      = Some cards' /\
    (length cards' <= 20)%nat /\
    (ls' = ls \/ exists newCard, cards' = keepLastCards newCard cards).
Proof.
  intros Hparse Hlen Hround. cbv zeta.
  destruct (handleSaveCard_cases parseCards stringifyCards stage frame
              project now isoNow ls)
    as [-> | (dataUrl & cards0 & Hstage & Hd & Hparse0 & _ & Heq)].
  { exists cards. auto. }
  rewrite Hparse in Hparse0. injection Hparse0 as <-.
  destruct (Hround dataUrl Hstage) as [Hne Hback]. unfold newCardOf in *.
  rewrite Heq. cbn [ls_items]. rewrite lookup_insert_eq.
  eexists. split; [| split; [apply keepLastCards_length; exact Hlen
                            | right; eexists; reflexivity]].
  remember (stringifyCards _) as text eqn:Etext in *.
  destruct text; [contradiction |].
  cbn [truthy default]. exact Hback.
Qed.

Lemma handleSaveCard_keeps_gallery_bounded_witness :
  let ls := {| ls_items := ∅; ls_denied := false;
               ls_overQuota := fun _ _ => false |} in
  let first := newCardOf dragged_project "1" "t" "url" in
  let parse := fun text : string =>
    if String.eqb text "[card]" then Some [first] else Some [] in
  let ls' :=
    handleSaveCard parse (fun _ => "[card]"%string) (Some (Some "url"%string))
                   (Some maskless_frame) dragged_project "1" "t" ls in
  exists cards',
    parse (default "[]"%string (truthy (ls_items ls' !! SAVED_CARDS)))
      = Some cards' /\
    (length cards' <= 20)%nat.
Proof.
  cbv zeta.
  destruct (handleSaveCard_keeps_gallery_bounded
              (fun text : string =>
                 if String.eqb text "[card]"
                 then Some [newCardOf dragged_project "1" "t" "url"]
                 else Some [])
              (fun _ => "[card]"%string) (Some (Some "url"%string))
              (Some maskless_frame) dragged_project "1" "t"
              {| ls_items := ∅; ls_denied := false;
                 ls_overQuota := fun _ _ => false |} [])
    as (cards' & Hparse & Hlen & _).
  - reflexivity.
  - simpl. lia.
  - intros dataUrl Hstage. injection Hstage as <-.
    split; [discriminate | reflexivity].
  - exists cards'. split; assumption.
Defined.

(** ** Start-up and the galleries *)

(** [initializeApp] never drops or reorders a saved frame, leaves the
    collection alone when the bundled frame fails to load, puts the default
    frame first when it adds it, ends with the default frame present
    whenever the bundled frame loads, and adds it at most once: running
    it again on its own result changes nothing. *)
Theorem initialFrames_adds_default_once (savedFrames : list FrameAsset)
    (imageData : string) (width height : Q) :
  let d := defaultFrameOf imageData width height in
  let frames := initialFrames savedFrames (Some d) in
  initialFrames savedFrames None = savedFrames /\
  (frames = savedFrames \/ frames = d :: savedFrames) /\
  existsb (fun f => String.eqb (frame_id f) DEFAULT_FRAME_ID) frames = true /\
  initialFrames frames (Some d) = frames /\
  (forall id, id <> DEFAULT_FRAME_ID ->
     List.find (fun f => String.eqb (frame_id f) id) frames
     = List.find (fun f => String.eqb (frame_id f) id) savedFrames).
Proof.
  cbv zeta. unfold initialFrames.
  destruct (existsb _ savedFrames) eqn:E; cbn [negb].
  - rewrite E. cbn [negb]. repeat split; auto.
  - cbn [existsb frame_id defaultFrameOf negb orb].
    rewrite String.eqb_refl. cbn [negb orb].
    repeat split; auto.
    intros id Hid. cbn [List.find].
    change (frame_id (defaultFrameOf imageData width height))
      with DEFAULT_FRAME_ID.
    replace (String.eqb DEFAULT_FRAME_ID id) with false; [reflexivity |].
    symmetry. apply String.eqb_neq. congruence.
Qed.

Lemma find_filter_other {A : Type} (test keep : A -> bool) (l : list A) :
  (forall a, test a = true -> keep a = true) ->
  List.find test (List.filter keep l) = List.find test l.
Proof.
  intros Hkeep. induction l as [| a l IH]; [reflexivity |].
  cbn [List.filter List.find].
  destruct (test a) eqn:Ht.
  - rewrite (Hkeep a Ht). cbn [List.find]. rewrite Ht. reflexivity.
  - destruct (keep a); [cbn [List.find]; rewrite Ht |]; exact IH.
Qed.

Lemma find_filter_gone {A : Type} (test keep : A -> bool) (l : list A) :
  (forall a, test a = true -> keep a = false) ->
  List.find test (List.filter keep l) = None.
Proof.
  intros Hdrop. induction l as [| a l IH]; [reflexivity |].
  cbn [List.filter].
  destruct (keep a) eqn:Hk; [| exact IH].
  cbn [List.find]. destruct (test a) eqn:Ht; [| exact IH].
  rewrite (Hdrop a Ht) in Hk. discriminate.
Qed.

(** Deleting a frame: its id no longer resolves, so a project that had it
    selected has no selected frame and no current mask; every other id
    resolves to the frame it resolved to before. *)
Theorem handleDelete_removes_only_that_frame (frames : list FrameAsset)
    (frameId : string) (project : CardProject) :
  let remaining := handleDelete frames frameId in
  List.find (fun f => String.eqb (frame_id f) frameId) remaining = None /\
  (selectedFrameId project = Some frameId ->
   selectedFrame remaining project = None /\
   getCurrentMask remaining project = None) /\
  (forall id, id <> frameId ->
     List.find (fun f => String.eqb (frame_id f) id) remaining
     = List.find (fun f => String.eqb (frame_id f) id) frames).
Proof.
  cbv zeta. unfold handleDelete.
  assert (Hgone : List.find (fun f => String.eqb (frame_id f) frameId)
                    (List.filter
                       (fun f => negb (String.eqb (frame_id f) frameId))
                       frames) = None).
  { apply find_filter_gone. intros a ->. reflexivity. }
  split; [exact Hgone | split].
  - intros Hsel. unfold getCurrentMask, selectedFrame. rewrite Hsel.
    cbn [isSelected]. rewrite Hgone. split; reflexivity.
  - intros id Hid. apply find_filter_other. intros a Ha.
    apply String.eqb_eq in Ha. apply negb_true_iff, String.eqb_neq.
    congruence.
Qed.

Lemma handleDelete_removes_only_that_frame_witness :
  let masked :=
    mkFrame "f1" "frame.png" "" 572 800 (Some (mkMask 86 235 400 385)) in
  let remaining := handleDelete [masked; maskless_frame] "f1" in
  getCurrentMask [masked; maskless_frame] dragged_project
  = Some (scaledMask masked (mkMask 86 235 400 385)) /\
  getCurrentMask remaining dragged_project = None /\
  List.find (fun f => String.eqb (frame_id f) "f2") remaining
  = Some maskless_frame.
Proof.
  pose proof (handleDelete_removes_only_that_frame
                [mkFrame "f1" "frame.png" "" 572 800
                         (Some (mkMask 86 235 400 385)); maskless_frame]
                "f1" dragged_project) as H.
  cbv zeta in H. destruct H as (_ & H1 & H2).
  split; [reflexivity | split].
  - exact (proj2 (H1 eq_refl)).
  - exact (H2 "f2"%string ltac:(discriminate)).
Defined.

Lemma omap_length_le {A B : Type} (f : A -> option B) (l : list A) :
  (length (omap f l) <= length l)%nat.
Proof.
  induction l as [| a l IH]; [reflexivity |].
  change (omap f (a :: l))
    with (match f a with Some b => b :: omap f l | None => omap f l end).
  destruct (f a); cbn [length]; lia.
Qed.

Lemma find_app_found {A : Type} (test : A -> bool) (l1 l2 : list A) (a : A) :
  List.find test l1 = Some a -> List.find test (l1 ++ l2) = Some a.
Proof.
  induction l1 as [| b l1 IH]; [discriminate |].
  cbn [List.find app]. destruct (test b); [trivial | exact IH].
Qed.

(** Uploading frames: a file that is not an image or fails to decode adds
    nothing and does not stop the files after it; at most one frame per
    file is appended; and every id that resolved before the upload still
    resolves to the same frame, whatever ids the new frames get. *)
Theorem handleUpload_appends (frames : list FrameAsset)
    (before after : list UploadFile) (bad : UploadFile) :
  uploadedFrame bad = None ->
  handleUpload frames (Some (before ++ bad :: after))
  = handleUpload frames (Some (before ++ after)) /\
  exists added,
    handleUpload frames (Some (before ++ after)) = Some (frames ++ added) /\
    (length added <= length (before ++ after))%nat /\
    (forall id frame,
       List.find (fun f => String.eqb (frame_id f) id) frames = Some frame ->
       List.find (fun f => String.eqb (frame_id f) id) (frames ++ added)
       = Some frame).
Proof.
  intros Hbad. unfold handleUpload. split.
  - rewrite !omap_app. simpl. rewrite Hbad. reflexivity.
  - eexists. split; [reflexivity | split].
    + apply omap_length_le.
    + intros id frame Hfind. apply find_app_found. exact Hfind.
Qed.

Lemma handleUpload_appends_witness :
  let doc := mkUpload "application/pdf" "notes.pdf" None LoadError "id1" in
  let png :=
    mkUpload "image/png" "frame.png" (Some ("data:"%string, 572, 800))
             LoadError "id2" in
  handleUpload [maskless_frame] (Some ([] ++ doc :: [png]))
  = handleUpload [maskless_frame] (Some ([] ++ [png])).
Proof.
  cbv zeta.
  apply (handleUpload_appends [maskless_frame] []
           [mkUpload "image/png" "frame.png" (Some ("data:"%string, 572, 800))
                     LoadError "id2"]
           (mkUpload "application/pdf" "notes.pdf" None LoadError "id1")).
  reflexivity.
Defined.

Lemma initialFrames_adds_default_once_witness :
  let d := defaultFrameOf "data:" 572 800 in
  List.find (fun f => String.eqb (frame_id f) "f2")
            (initialFrames [maskless_frame] (Some d))
  = List.find (fun f => String.eqb (frame_id f) "f2") [maskless_frame].
Proof.
  pose proof (initialFrames_adds_default_once [maskless_frame] "data:"
                572 800) as H.
  cbv zeta in H. destruct H as (_ & _ & _ & _ & H).
  apply H. discriminate.
Defined.

(** ** The PDF page layout *)



(** * Properties under rounding *)

(** The identity rounds nothing: the rounded calculator is then the exact
    one. *)
Lemma calculateFitTransformR_exact (photoWidth photoHeight : Q)
    (mask : MaskGeometry) (mode : option Mode) :
  calculateFitTransformR (fun q => q) photoWidth photoHeight mask mode
  = calculateFitTransform photoWidth photoHeight mask mode.
Proof.
  unfold calculateFitTransformR, calculateFitTransform,
    calculateFitTransformWith, fitScale.
  destruct (Mode_eqb (default fill mode) fit); reflexivity.
Qed.

(** ** Inequalities between products *)

(** Multiplying an inequality by a factor that is not negative. *)
Lemma times (c x y : Q) : 0 <= c -> x <= y -> x * c <= y * c.
Proof. intros Hc Hxy. apply Qmult_le_compat_r; assumption. Qed.

(** Cancelling a positive factor. *)
Lemma untimes (c x y : Q) : 0 < c -> x * c <= y * c -> x <= y.
Proof. intros Hc H. apply (Qmult_le_r _ _ c Hc). exact H. Qed.

(** A product of two bounded numbers. *)
Lemma abs_prod (x X y Y : Q) :
  - X <= x -> x <= X -> - Y <= y -> y <= Y ->
  - (X * Y) <= x * y /\ x * y <= X * Y.
Proof.
  intros Hx1 Hx2 Hy1 Hy2.
  assert (HX : Qabs x <= X) by (apply Qabs_Qle_condition; split; assumption).
  assert (HY : Qabs y <= Y) by (apply Qabs_Qle_condition; split; assumption).
  pose proof (Qabs_nonneg x) as Hx0. pose proof (Qabs_nonneg y) as Hy0.
  pose proof (times (Qabs y) _ _ Hy0 HX) as H1.
  assert (HX0 : 0 <= X) by lra.
  pose proof (times X _ _ HX0 HY) as H2.
  assert (H : Qabs (x * y) <= X * Y) by (rewrite Qabs_Qmult; lra).
  apply Qabs_Qle_condition in H. lra.
Qed.

(** Multiplication of rationals commutes on the nose, numerator and
    denominator alike. *)
Lemma Qmult_comm_eq (a b : Q) : (a * b = b * a)%Q.
Proof.
  destruct a as [an ad], b as [bn bd]. unfold Qmult. cbn [Qnum Qden].
  f_equal; [apply Z.mul_comm | apply Pos.mul_comm].
Qed.

(** Every number lies between minus its absolute value and its absolute
    value. *)
Lemma within_Qabs (c : Q) : - Qabs c <= c /\ c <= Qabs c.
Proof. apply Qabs_Qle_condition. apply Qle_refl. Qed.

Section RoundedArithmetic.

(** A rounding whose every result has relative error at most [u]; binary64
    arithmetic is one, with [u] = 2^-53, as long as no result overflows
    or falls below the normal range. *)
Variable rnd : Q -> Q.
Variable u : Q.
Hypothesis u_nonneg : 0 <= u.
Hypothesis u_small : u <= 1 # 16.
Hypothesis rnd_error : forall q, Qabs (rnd q - q) <= u * Qabs q.

#[local] Set Default Proof Using "All".

Lemma rnd_nonneg_bounds (q : Q) :
  0 <= q -> q * (1 - u) <= rnd q /\ rnd q <= q * (1 + u).
Proof.
  intros Hq. pose proof (rnd_error q) as H.
  rewrite (Qabs_pos q Hq) in H. apply Qabs_Qle_condition in H. lra.
Qed.

Lemma rnd_nonneg (q : Q) : 0 <= q -> 0 <= rnd q.
Proof.
  intros Hq. destruct (rnd_nonneg_bounds q Hq) as [Hlo _].
  assert (0 <= q * (1 - u)) by (apply Qmult_le_0_compat; lra).
  lra.
Qed.

(** [b * rnd (a / b)] is [a] up to one rounding. *)
Lemma rnd_quotient_scaled (a b : Q) :
  0 <= a -> 0 < b ->
  a * (1 - u) <= b * rnd (a / b) /\ b * rnd (a / b) <= a * (1 + u).
Proof.
  intros Ha Hb.
  assert (Hq : 0 <= a / b).
  { apply Qle_shift_div_l; [assumption | lra]. }
  destruct (rnd_nonneg_bounds (a / b) Hq) as [Hlo Hhi].
  apply (times b) in Hlo; [| lra]. apply (times b) in Hhi; [| lra].
  assert (E1 : a / b * (1 - u) * b == a * (1 - u)) by (field; lra).
  assert (E2 : a / b * (1 + u) * b == a * (1 + u)) by (field; lra).
  rewrite E1 in Hlo. rewrite E2 in Hhi. lra.
Qed.

(** A comparison of two rounded quotients, cross-multiplied. *)
Lemma rounded_aspects_lt (a b c d : Q) :
  0 < a -> 0 < b -> 0 < c -> 0 < d ->
  rnd (a / b) < rnd (c / d) ->
  a * d * (1 - u) <= c * b * (1 + u).
Proof.
  intros Ha Hb Hc Hd H.
  assert (Hab : 0 <= a / b) by (apply Qle_shift_div_l; lra).
  assert (Hcd : 0 <= c / d) by (apply Qle_shift_div_l; lra).
  destruct (rnd_nonneg_bounds _ Hab) as [Hlo _].
  destruct (rnd_nonneg_bounds _ Hcd) as [_ Hhi].
  assert (Hle : a / b * (1 - u) <= c / d * (1 + u)) by lra.
  apply (times (b * d)) in Hle;
    [| apply Qmult_le_0_compat; lra].
  assert (E1 : a / b * (1 - u) * (b * d) == a * d * (1 - u)) by (field; lra).
  assert (E2 : c / d * (1 + u) * (b * d) == c * b * (1 + u)) by (field; lra).
  rewrite E1, E2 in Hle. exact Hle.
Qed.

Lemma rounded_aspects_le (a b c d : Q) :
  0 < a -> 0 < b -> 0 < c -> 0 < d ->
  rnd (a / b) <= rnd (c / d) ->
  a * d * (1 - u) <= c * b * (1 + u).
Proof.
  intros Ha Hb Hc Hd H.
  assert (Hab : 0 <= a / b) by (apply Qle_shift_div_l; lra).
  assert (Hcd : 0 <= c / d) by (apply Qle_shift_div_l; lra).
  destruct (rnd_nonneg_bounds _ Hab) as [Hlo _].
  destruct (rnd_nonneg_bounds _ Hcd) as [_ Hhi].
  assert (Hle : a / b * (1 - u) <= c / d * (1 + u)) by lra.
  apply (times (b * d)) in Hle;
    [| apply Qmult_le_0_compat; lra].
  assert (E1 : a / b * (1 - u) * (b * d) == a * d * (1 - u)) by (field; lra).
  assert (E2 : c / d * (1 + u) * (b * d) == c * b * (1 + u)) by (field; lra).
  rewrite E1, E2 in Hle. exact Hle.
Qed.

(** Facts about the unit roundoff alone. *)
Lemma roundoff_facts :
  u * u <= u * (1 # 16) /\ 0 < 1 - u /\ 0 <= 1 + u.
Proof.
  pose proof (times u u (1 # 16) u_nonneg u_small).
  repeat split; lra.
Qed.

(** The dimension that fixes the scale: the scale is [rnd (m / p)] and the
    scaled size [rnd (p * scale)] is [m] up to two roundings. *)
Lemma governing_size (m p : Q) :
  0 <= m -> 0 < p ->
  let s := rnd (m / p) in
  0 <= s /\
  (m * (1 - u) <= p * s /\ p * s <= m * (1 + u)) /\
  (m * (1 - 2 * u) <= rnd (p * s) /\ rnd (p * s) <= m * (1 + 3 * u)).
Proof.
  intros Hm Hp. cbv zeta.
  destruct roundoff_facts as (Huu & Hlow & Hup).
  assert (Hq : 0 <= m / p) by (apply Qle_shift_div_l; lra).
  pose proof (rnd_nonneg _ Hq) as Hs.
  destruct (rnd_quotient_scaled m p Hm Hp) as [Hlo Hhi].
  set (s := rnd (m / p)) in *.
  assert (Hps : 0 <= p * s) by (apply Qmult_le_0_compat; lra).
  destruct (rnd_nonneg_bounds _ Hps) as [Glo Ghi].
  pose proof (times (1 + u) _ _ Hup Hhi) as Hhi'.
  pose proof (times (1 - u) _ _ (Qlt_le_weak _ _ Hlow) Hlo) as Hlo'.
  pose proof (times m _ _ Hm Huu) as Hmu.
  assert (0 <= m * (u * u)).
  { apply Qmult_le_0_compat; [assumption |].
    apply Qmult_le_0_compat; assumption. }
  repeat split; try assumption; lra.
Qed.

(** The other dimension, bounded above through the comparison of the
    rounded aspect ratios: first the exact product, then its rounding. *)
Lemma other_product_upper (m1 p1 m2 p2 s : Q) :
  0 < m1 -> 0 < p1 -> 0 < m2 -> 0 < p2 -> 0 <= s ->
  p1 * s <= m1 * (1 + u) ->
  p2 * m1 * (1 - u) <= m2 * p1 * (1 + u) ->
  p2 * s <= m2 * (1 + 4 * u).
Proof.
  intros Hm1 Hp1 Hm2 Hp2 Hs Hgov Hcross.
  destruct roundoff_facts as (Huu & Hlow & Hup).
  assert (Hc : 0 <= p2 * (1 - u)) by (apply Qmult_le_0_compat; lra).
  pose proof (times _ _ _ Hc Hgov) as H1.
  pose proof (times _ _ _ Hup Hcross) as H2.
  assert (H3 : p2 * s * (1 - u) * p1 <= m2 * (1 + u) * (1 + u) * p1) by lra.
  apply untimes in H3; [| assumption].
  pose proof (times m2 _ _ (Qlt_le_weak _ _ Hm2) Huu) as Hmu.
  assert (0 <= m2 * u) by (apply Qmult_le_0_compat; lra).
  assert (H4 : p2 * s * (1 - u) <= m2 * (1 + 4 * u) * (1 - u)) by lra.
  apply untimes in H4; assumption.
Qed.

Lemma other_size_upper (m1 p1 m2 p2 s : Q) :
  0 < m1 -> 0 < p1 -> 0 < m2 -> 0 < p2 -> 0 <= s ->
  p1 * s <= m1 * (1 + u) ->
  p2 * m1 * (1 - u) <= m2 * p1 * (1 + u) ->
  rnd (p2 * s) <= m2 * (1 + 6 * u).
Proof.
  intros Hm1 Hp1 Hm2 Hp2 Hs Hgov Hcross.
  destruct roundoff_facts as (Huu & Hlow & Hup).
  assert (Hps : 0 <= p2 * s) by (apply Qmult_le_0_compat; lra).
  destruct (rnd_nonneg_bounds _ Hps) as [_ Ghi].
  pose proof (other_product_upper m1 p1 m2 p2 s Hm1 Hp1 Hm2 Hp2 Hs Hgov
                Hcross) as H4.
  pose proof (times m2 _ _ (Qlt_le_weak _ _ Hm2) Huu) as Hmu.
  assert (0 <= m2 * u) by (apply Qmult_le_0_compat; lra).
  pose proof (times _ _ _ Hup H4) as H5.
  lra.
Qed.

(** The other dimension, bounded below. *)
Lemma other_size_lower (m1 p1 m2 p2 s : Q) :
  0 < m1 -> 0 < p1 -> 0 < m2 -> 0 < p2 -> 0 <= s ->
  m1 * (1 - u) <= p1 * s ->
  m2 * p1 * (1 - u) <= p2 * m1 * (1 + u) ->
  m2 * (1 - 6 * u) <= rnd (p2 * s).
Proof.
  intros Hm1 Hp1 Hm2 Hp2 Hs Hgov Hcross.
  destruct roundoff_facts as (Huu & Hlow & Hup).
  assert (Hps : 0 <= p2 * s) by (apply Qmult_le_0_compat; lra).
  destruct (rnd_nonneg_bounds _ Hps) as [Glo _].
  assert (Hc : 0 <= p2 * (1 + u)) by (apply Qmult_le_0_compat; lra).
  pose proof (times _ _ _ Hc Hgov) as H1.
  pose proof (times _ _ _ (Qlt_le_weak _ _ Hlow) Hcross) as H2.
  assert (H3 : m2 * (1 - u) * (1 - u) * p1 <= p2 * s * (1 + u) * p1) by lra.
  apply untimes in H3; [| assumption].
  pose proof (times m2 _ _ (Qlt_le_weak _ _ Hm2) Huu) as Hmu.
  assert (0 <= m2 * (u * u)).
  { apply Qmult_le_0_compat; [lra |].
    apply Qmult_le_0_compat; assumption. }
  assert (0 <= m2 * u) by (apply Qmult_le_0_compat; lra).
  assert (H4 : m2 * (1 - 4 * u) * (1 + u) <= p2 * s * (1 + u)) by lra.
  apply untimes in H4; [| lra].
  pose proof (times _ _ _ (Qlt_le_weak _ _ Hlow) H4) as H5.
  lra.
Qed.

(** One rounding of a number between [- B] and [B]. *)
Lemma rnd_within (q B : Q) :
  - B <= q -> q <= B -> q - u * B <= rnd q /\ rnd q <= q + u * B.
Proof.
  intros Hlo Hhi. pose proof (rnd_error q) as H.
  assert (HB : Qabs q <= B) by (apply Qabs_Qle_condition; split; assumption).
  pose proof (times u _ _ u_nonneg HB) as HuB.
  assert (H' : Qabs (rnd q - q) <= u * B) by lra.
  apply Qabs_Qle_condition in H'. lra.
Qed.

(** Powers of the unit roundoff against a size [E]. *)
Lemma roundoff_of_size (E : Q) :
  0 <= E ->
  0 <= u * E /\ u * E <= (1 # 16) * E /\
  0 <= u * u * E /\ u * u * E <= (1 # 16) * (u * E).
Proof.
  intros HE.
  assert (H1 : 0 <= u * E) by (apply Qmult_le_0_compat; assumption).
  pose proof (times E _ _ HE u_small) as H2.
  pose proof (times (u * E) _ _ H1 u_small) as H3.
  assert (H4 : 0 <= u * (u * E)) by (apply Qmult_le_0_compat; assumption).
  repeat split; lra.
Qed.

(** The centring [c + (a - b) / 2] as computed, against its exact
    value. *)
Lemma centred_error (c a b C : Q) :
  0 <= a -> 0 <= b -> - C <= c -> c <= C ->
  let x := rnd (c + rnd (rnd (a - b) / 2)) in
  c + (a - b) * (1 # 2) - u * (C + 3 * (a + b)) <= x /\
  x <= c + (a - b) * (1 # 2) + u * (C + 3 * (a + b)).
Proof.
  intros Ha Hb Hc1 Hc2. cbv zeta.
  assert (HE : 0 <= a + b) by lra.
  destruct (roundoff_of_size _ HE) as (F1 & F2 & F3 & F4).
  destruct (rnd_within (a - b) (a + b)) as [D1 D2]; [lra | lra |].
  set (d := rnd (a - b)) in *.
  destruct (rnd_within (d / 2) ((a + b + u * (a + b)) * (1 # 2)))
    as [H1 H2]; [rewrite Qhalf; lra | rewrite Qhalf; lra |].
  set (h := rnd (d / 2)) in *. rewrite Qhalf in H1, H2.
  destruct (rnd_within (c + h) (C + (a + b))) as [X1 X2]; [lra | lra |].
  lra.
Qed.

(** The biased placement [c - (a - b) * 0.2] as computed, against its
    exact value. *)
Lemma biased_error (c a b C : Q) :
  0 <= a -> 0 <= b -> - C <= c -> c <= C ->
  let y := rnd (c - rnd (rnd (a - b) * rnd 0.2)) in
  c - (a - b) * 0.2 - u * (C + 3 * (a + b)) <= y /\
  y <= c - (a - b) * 0.2 + u * (C + 3 * (a + b)).
Proof.
  intros Ha Hb Hc1 Hc2. cbv zeta.
  assert (HE : 0 <= a + b) by lra.
  destruct (roundoff_of_size _ HE) as (F1 & F2 & F3 & F4).
  destruct (rnd_within (a - b) (a + b)) as [D1 D2]; [lra | lra |].
  set (o := rnd (a - b)) in *.
  destruct (rnd_nonneg_bounds 0.2) as [K1 K2]; [lra |].
  set (k := rnd 0.2) in *.
  destruct (abs_prod (o - (a - b)) (u * (a + b)) k (0.2 * (1 + u)))
    as [P1 P2]; [lra | lra | lra | lra |].
  destruct (abs_prod (a - b) (a + b) (k - 0.2) (0.2 * u))
    as [P3 P4]; [lra | lra | lra | lra |].
  destruct (rnd_within (o * k) (a + b)) as [R1 R2]; [lra | lra |].
  set (p := rnd (o * k)) in *.
  destruct (rnd_within (c - p) (C + (a + b + u * (a + b))))
    as [Y1 Y2]; [lra | lra |].
  lra.
Qed.

(** A coordinate scaled for display and read back. *)
Lemma read_back_error (x s C : Q) :
  0 < s -> - C <= x -> x <= C ->
  let back := rnd (rnd (x * s) / s) in
  x - 3 * u * C <= back /\ back <= x + 3 * u * C.
Proof.
  intros Hs Hx1 Hx2. cbv zeta.
  assert (HC : 0 <= C) by lra.
  destruct (roundoff_of_size _ HC) as (F1 & F2 & F3 & F4).
  assert (Hs0 : 0 <= s) by lra.
  pose proof (times s _ _ Hs0 Hx1) as S1.
  pose proof (times s _ _ Hs0 Hx2) as S2.
  destruct (rnd_within (x * s) (C * s)) as [N1 N2]; [lra | lra |].
  set (n := rnd (x * s)) in *.
  assert (Q1 : x - u * C <= n / s).
  { apply Qle_shift_div_l; [assumption | lra]. }
  assert (Q2 : n / s <= x + u * C).
  { apply Qle_shift_div_r; [assumption | lra]. }
  destruct (rnd_within (n / s) (C + u * C)) as [B1 B2]; [lra | lra |].
  lra.
Qed.

(** A size scaled by no more than the rounded quotient that fits it. *)
Lemma scaled_at_most (m p s : Q) :
  0 <= m -> 0 < p -> 0 <= s -> s <= rnd (m / p) ->
  0 <= rnd (p * s) /\ rnd (p * s) <= m * (1 + 3 * u).
Proof.
  intros Hm Hp Hs Hle.
  destruct (roundoff_of_size _ Hm) as (F1 & F2 & F3 & F4).
  destruct (rnd_quotient_scaled m p Hm Hp) as [_ Hhi].
  assert (Hp0 : 0 <= p) by lra.
  pose proof (times p _ _ Hp0 Hle) as H1.
  assert (Hps : 0 <= p * s) by (apply Qmult_le_0_compat; lra).
  destruct (rnd_nonneg_bounds _ Hps) as [_ Ghi].
  destruct roundoff_facts as (_ & _ & Hup).
  assert (H2 : p * s <= m * (1 + u)) by lra.
  pose proof (times _ _ _ Hup H2) as H3.
  split; [apply rnd_nonneg; assumption | lra].
Qed.

(** Rounding keeps a positive number positive. *)
Lemma rnd_pos (q : Q) : 0 < q -> 0 < rnd q.
Proof.
  intros Hq. destruct (rnd_nonneg_bounds q) as [Hlo _]; [lra |].
  destruct roundoff_facts as (_ & Hlow & _).
  assert (0 < q * (1 - u)) by (apply Qmult_lt_0_compat; assumption).
  lra.
Qed.

(** Three roundings in a row, each of relative error at most [u]. *)
Lemma chain3 (M Y0 Y1 W : Q) :
  0 <= M ->
  M * (1 - u) <= Y0 -> Y0 <= M * (1 + u) ->
  Y0 * (1 - u) <= Y1 -> Y1 <= Y0 * (1 + u) ->
  Y1 * (1 - u) <= W -> W <= Y1 * (1 + u) ->
  M * (1 - 3 * u) <= W /\ W <= M * (1 + 4 * u).
Proof.
  intros HM A1 A2 B1 B2 C1 C2.
  destruct roundoff_facts as (Huu & Hlow & Hup).
  assert (Hlow0 : 0 <= 1 - u) by lra.
  destruct (roundoff_of_size M HM) as (F1 & F2 & F3 & F4).
  destruct (roundoff_of_size (u * M) F1) as (G1 & G2 & G3 & G4).
  pose proof (times _ _ _ Hup B2) as B2'.
  pose proof (times _ _ _ Hlow0 B1) as B1'.
  assert (Hup2 : 0 <= (1 + u) * (1 + u))
    by (apply Qmult_le_0_compat; assumption).
  assert (Hlow2 : 0 <= (1 - u) * (1 - u))
    by (apply Qmult_le_0_compat; assumption).
  pose proof (times _ _ _ Hup2 A2) as A2'.
  pose proof (times _ _ _ Hlow2 A1) as A1'.
  split; lra.
Qed.

(** A scaled coordinate multiplied by a factor and read back. *)
Lemma resized_back_error (x k s C : Q) :
  0 < s -> - C <= x * k -> x * k <= C ->
  let back := rnd (rnd (rnd (x * s) * k) / s) in
  x * k - 4 * u * C <= back /\ back <= x * k + 4 * u * C.
Proof.
  intros Hs Hx1 Hx2. cbv zeta.
  assert (HC : 0 <= C) by lra.
  destruct (roundoff_of_size C HC) as (F1 & F2 & F3 & F4).
  destruct (roundoff_of_size (u * C) F1) as (G1 & G2 & G3 & G4).
  assert (Hs0 : 0 <= s) by lra.
  pose proof (times s _ _ Hs0 F1) as S1.
  pose proof (times s _ _ Hs0 F3) as S3.
  pose proof (times s _ _ Hs0 F4) as S4.
  pose proof (times s _ _ Hs0 Hx1) as X1.
  pose proof (times s _ _ Hs0 Hx2) as X2.
  assert (HN : Qabs ((rnd (x * s) - x * s) * k) <= u * C * s).
  { rewrite Qabs_Qmult.
    pose proof (times (Qabs k) _ _ (Qabs_nonneg k) (rnd_error (x * s))) as H.
    assert (E : u * Qabs (x * s) * Qabs k == u * Qabs (x * k) * s).
    { rewrite !Qabs_Qmult, (Qabs_pos s Hs0). ring. }
    rewrite E in H.
    assert (HB : Qabs (x * k) <= C)
      by (apply Qabs_Qle_condition; split; assumption).
    assert (Hus : 0 <= u * s) by (apply Qmult_le_0_compat; assumption).
    pose proof (times _ _ _ Hus HB) as H'. lra. }
  apply Qabs_Qle_condition in HN. set (n := rnd (x * s)) in *.
  destruct (rnd_within (n * k) (C * s + u * C * s)) as [M1 M2];
    [lra | lra |].
  set (m := rnd (n * k)) in *.
  assert (Q1 : x * k - (2 * u * C + u * u * C) <= m / s).
  { apply Qle_shift_div_l; [assumption | lra]. }
  assert (Q2 : m / s <= x * k + (2 * u * C + u * u * C)).
  { apply Qle_shift_div_r; [assumption | lra]. }
  destruct (rnd_within (m / s) (C + 2 * u * C + u * u * C)) as [B1 B2];
    [lra | lra |].
  lra.
Qed.

(** Half a difference as computed, against its exact value. *)
Lemma halved_error (a b : Q) :
  0 <= a -> 0 <= b ->
  let h := rnd (rnd (a - b) / 2) in
  (a - b) * (1 # 2) - 2 * u * (a + b) <= h /\
  h <= (a - b) * (1 # 2) + 2 * u * (a + b).
Proof.
  intros Ha Hb. cbv zeta.
  assert (HE : 0 <= a + b) by lra.
  destruct (roundoff_of_size _ HE) as (F1 & F2 & F3 & F4).
  destruct (rnd_within (a - b) (a + b)) as [D1 D2]; [lra | lra |].
  set (d := rnd (a - b)) in *.
  destruct (rnd_within (d / 2) ((a + b + u * (a + b)) * (1 # 2)))
    as [H1 H2]; [rewrite Qhalf; lra | rewrite Qhalf; lra |].
  set (h := rnd (d / 2)) in *. rewrite Qhalf in H1, H2.
  lra.
Qed.

(** One axis of the frame-to-canvas conversion: a canvas of extent [W], a
    frame of extent [f] scaled by [s], a mask at [a] of extent [b] inside
    the frame. *)
Lemma canvas_axis (W f s a b : Q) :
  0 < W -> 0 < f -> 0 <= s -> s <= rnd (W / f) ->
  0 <= a -> 0 <= b -> a + b <= f ->
  let offset := rnd (rnd (W - rnd (f * s)) / 2) in
  let x := rnd (offset + rnd (a * s)) in
  - (16 * u * W) <= x /\ x + rnd (b * s) <= W + 16 * u * W.
Proof.
  intros HW Hf Hs Hle Ha Hb Hab. cbv zeta.
  assert (HW0 : 0 <= W) by lra.
  destruct (roundoff_of_size W HW0) as (F1 & F2 & F3 & F4).
  destruct roundoff_facts as (Huu & Hlow & Hup).
  destruct (rnd_quotient_scaled W f HW0 Hf) as [_ Hq].
  assert (Hf0 : 0 <= f) by lra.
  pose proof (times f _ _ Hf0 Hle) as Hfs'.
  assert (Hfs : f * s <= W * (1 + u)) by lra.
  assert (Hfs0 : 0 <= f * s) by (apply Qmult_le_0_compat; assumption).
  assert (Has0 : 0 <= a * s) by (apply Qmult_le_0_compat; assumption).
  assert (Hbs0 : 0 <= b * s) by (apply Qmult_le_0_compat; assumption).
  pose proof (times s _ _ Hs Hab) as Habs.
  destruct (rnd_nonneg_bounds _ Hfs0) as [P1 P2].
  pose proof (rnd_nonneg _ Hfs0) as P0.
  destruct (rnd_nonneg_bounds _ Has0) as [A1 A2].
  pose proof (rnd_nonneg _ Has0) as A0.
  destruct (rnd_nonneg_bounds _ Hbs0) as [B1 B2].
  pose proof (times u _ _ u_nonneg Hfs) as Hfsu.
  assert (Hfsu0 : 0 <= f * s * u) by (apply Qmult_le_0_compat; assumption).
  assert (Hasu0 : 0 <= a * s * u) by (apply Qmult_le_0_compat; assumption).
  assert (Hbsu0 : 0 <= b * s * u) by (apply Qmult_le_0_compat; assumption).
  pose proof (times u _ _ u_nonneg Habs) as Habsu.
  destruct (halved_error W (rnd (f * s)) HW0 P0) as [O1 O2].
  set (F := rnd (f * s)) in *.
  assert (HuF : u * F <= 2 * (u * W)).
  { pose proof (times u _ _ u_nonneg P2) as H.
    pose proof (times u _ _ u_nonneg Hfsu) as H'.
    destruct (roundoff_of_size (u * W) F1) as (G1 & G2 & G3 & G4). lra. }
  assert (HuF0 : 0 <= u * F) by (apply Qmult_le_0_compat; assumption).
  set (offset := rnd (rnd (W - F) / 2)) in *.
  set (A := rnd (a * s)) in *.
  destruct (rnd_within (offset + A) (3 * W)) as [X1 X2]; [lra | lra |].
  split; lra.
Qed.

(** The two scales a comparison of the rounded aspect ratios tells
    apart: the one of the smaller side is at most the other, up to the
    factor [1 - 5u]. *)
Lemma ordered_scales (m1 p1 m2 p2 : Q) :
  0 < m1 -> 0 < p1 -> 0 < m2 -> 0 < p2 ->
  p2 * m1 * (1 - u) <= m2 * p1 * (1 + u) ->
  rnd (m1 / p1) * (1 - 5 * u) <= rnd (m2 / p2).
Proof.
  intros Hm1 Hp1 Hm2 Hp2 Hcross.
  destruct roundoff_facts as (Huu & Hlow & Hup).
  destruct (governing_size m1 p1) as (Hf & (_ & F2) & _); [lra | lra |].
  destruct (governing_size m2 p2) as (Hg & (G1 & _) & _); [lra | lra |].
  set (f := rnd (m1 / p1)) in *. set (g := rnd (m2 / p2)) in *.
  pose proof (other_product_upper m1 p1 m2 p2 f Hm1 Hp1 Hm2 Hp2 Hf F2
                Hcross) as H1.
  assert (Hlow0 : 0 <= 1 - u) by lra.
  assert (Hup4 : 0 < 1 + 4 * u) by lra.
  pose proof (times _ _ _ Hlow0 H1) as H1'.
  pose proof (times _ _ _ (Qlt_le_weak _ _ Hup4) G1) as G1'.
  assert (H2 : f * (1 - u) * p2 <= g * (1 + 4 * u) * p2) by lra.
  apply untimes in H2; [| assumption].
  assert (Hfuu : 0 <= f * (u * u)).
  { apply Qmult_le_0_compat; [assumption |].
    apply Qmult_le_0_compat; assumption. }
  assert (H3 : f * (1 - 5 * u) * (1 + 4 * u) <= g * (1 + 4 * u)) by lra.
  apply untimes in H3; assumption.
Qed.

Section RoundedFit.

Variables photoWidth photoHeight : Q.
Variable mask : MaskGeometry.
Hypothesis photoWidth_pos : 0 < photoWidth.
Hypothesis photoHeight_pos : 0 < photoHeight.
Hypothesis maskWidth_pos : 0 < mask_width mask.
Hypothesis maskHeight_pos : 0 < mask_height mask.

(** The scale and the two scaled sizes the rounded calculator works
    with. *)
Lemma rounded_scale_nonneg (mode : option Mode) :
  0 <= pt_scale (calculateFitTransformR rnd photoWidth photoHeight mask mode).
Proof.
  unfold calculateFitTransformR. cbn [pt_scale].
  destruct (Mode_eqb _ fit), (Qgt_bool _ _); apply rnd_nonneg;
    apply Qle_shift_div_l; lra.
Qed.

(** In 'fit' mode both scaled sizes are at most the mask's, up to the
    factor [1 + 6u]. *)
Lemma rounded_fit_sizes :
  let t := calculateFitTransformR rnd photoWidth photoHeight mask (Some fit) in
  scaledWidthR rnd photoWidth t <= mask_width mask * (1 + 6 * u) /\
  scaledHeightR rnd photoHeight t <= mask_height mask * (1 + 6 * u).
Proof.
  cbv zeta. unfold scaledWidthR, scaledHeightR, calculateFitTransformR.
  cbn [default from_option id Mode_eqb pt_scale].
  assert (0 <= mask_width mask * u) by (apply Qmult_le_0_compat; lra).
  assert (0 <= mask_height mask * u) by (apply Qmult_le_0_compat; lra).
  destruct (Qgt_bool _ _) eqn:E.
  - apply Qgt_bool_true in E.
    apply rounded_aspects_lt in E; try assumption.
    destruct (governing_size (mask_width mask) photoWidth)
      as (Hs & (_ & Hgov) & (_ & Hg)); try lra.
    split; [lra |].
    apply (other_size_upper (mask_width mask) photoWidth); try assumption; lra.
  - apply Qgt_bool_false in E.
    apply rounded_aspects_le in E; try assumption.
    destruct (governing_size (mask_height mask) photoHeight)
      as (Hs & (_ & Hgov) & (_ & Hg)); try lra.
    split; [| lra].
    apply (other_size_upper (mask_height mask) photoHeight);
      try assumption; lra.
Qed.

(** In the other modes both scaled sizes are at least the mask's, up to
    the factor [1 - 6u]. *)
Lemma rounded_cover_sizes (mode : option Mode) :
  mode <> Some fit ->
  let t := calculateFitTransformR rnd photoWidth photoHeight mask mode in
  mask_width mask * (1 - 6 * u) <= scaledWidthR rnd photoWidth t /\
  mask_height mask * (1 - 6 * u) <= scaledHeightR rnd photoHeight t.
Proof.
  intros Hmode. cbv zeta.
  unfold scaledWidthR, scaledHeightR, calculateFitTransformR.
  cbn [pt_scale].
  replace (Mode_eqb (default fill mode) fit) with false
    by (destruct mode as [[ | | ] | ]; try reflexivity; congruence).
  assert (0 <= mask_width mask * u) by (apply Qmult_le_0_compat; lra).
  assert (0 <= mask_height mask * u) by (apply Qmult_le_0_compat; lra).
  destruct (Qgt_bool _ _) eqn:E.
  - apply Qgt_bool_true in E.
    apply rounded_aspects_lt in E; try assumption.
    destruct (governing_size (mask_height mask) photoHeight)
      as (Hs & (Hgov & _) & (Hg & _)); try lra.
    split; [| lra].
    apply (other_size_lower (mask_height mask) photoHeight);
      try assumption; lra.
  - apply Qgt_bool_false in E.
    apply rounded_aspects_le in E; try assumption.
    destruct (governing_size (mask_width mask) photoWidth)
      as (Hs & (Hgov & _) & (Hg & _)); try lra.
    split; [lra |].
    apply (other_size_lower (mask_width mask) photoWidth); try assumption; lra.
Qed.

(** The position against the exact centring and bias of the scaled sizes
    as computed. *)
Lemma rounded_placement (mode : option Mode) :
  let t := calculateFitTransformR rnd photoWidth photoHeight mask mode in
  let sw := scaledWidthR rnd photoWidth t in
  let sh := scaledHeightR rnd photoHeight t in
  let ex := u * (Qabs (mask_x mask) + 3 * (mask_width mask + sw)) in
  let ey := u * (Qabs (mask_y mask) + 3 * (mask_height mask + sh)) in
  let x0 := mask_x mask + (mask_width mask - sw) * (1 # 2) in
  let y0 :=
    if Mode_eqb (default fill mode) center
    then mask_y mask + (mask_height mask - sh) * (1 # 2)
    else mask_y mask - (sh - mask_height mask) * 0.2 in
  (0 <= sw /\ 0 <= sh) /\
  (x0 - ex <= pt_x t /\ pt_x t <= x0 + ex) /\
  (y0 - ey <= pt_y t /\ pt_y t <= y0 + ey).
Proof.
  cbv zeta. pose proof (rounded_scale_nonneg mode) as Hs.
  unfold scaledWidthR, scaledHeightR. revert Hs.
  unfold calculateFitTransformR. cbn [pt_x pt_y pt_scale].
  set (s := if Mode_eqb (default fill mode) fit then _ else _).
  intros Hs.
  assert (Hsw : 0 <= rnd (photoWidth * s)).
  { apply rnd_nonneg, Qmult_le_0_compat; lra. }
  assert (Hsh : 0 <= rnd (photoHeight * s)).
  { apply rnd_nonneg, Qmult_le_0_compat; lra. }
  destruct (within_Qabs (mask_x mask)) as [Cx1 Cx2].
  destruct (within_Qabs (mask_y mask)) as [Cy1 Cy2].
  split; [split; assumption |]. split.
  - apply centred_error; try assumption; lra.
  - destruct (Mode_eqb (default fill mode) center).
    + apply centred_error; try assumption; lra.
    + destruct (biased_error (mask_y mask) (rnd (photoHeight * s))
                  (mask_height mask) (Qabs (mask_y mask)))
        as [Y1 Y2]; try assumption; [lra |]. split; lra.
Qed.

(** In every mode the dimension that fixed the scale matches the mask's up
    to two roundings. *)
Lemma rounded_touch (mode : option Mode) :
  let t := calculateFitTransformR rnd photoWidth photoHeight mask mode in
  (mask_width mask * (1 - 2 * u) <= scaledWidthR rnd photoWidth t /\
   scaledWidthR rnd photoWidth t <= mask_width mask * (1 + 3 * u)) \/
  (mask_height mask * (1 - 2 * u) <= scaledHeightR rnd photoHeight t /\
   scaledHeightR rnd photoHeight t <= mask_height mask * (1 + 3 * u)).
Proof.
  cbv zeta. unfold scaledWidthR, scaledHeightR, calculateFitTransformR.
  cbn [pt_scale].
  destruct (governing_size (mask_width mask) photoWidth)
    as (_ & _ & Hw); [lra | assumption |].
  destruct (governing_size (mask_height mask) photoHeight)
    as (_ & _ & Hh); [lra | assumption |].
  destruct (Mode_eqb _ fit), (Qgt_bool _ _);
    solve [left; exact Hw | right; exact Hh].
Qed.

(** A photo of the mask's aspect ratio: both scaled sizes match the
    mask's up to the factor [1 - 6u] below and [1 + 6u] above. *)
Lemma rounded_same_aspect_sizes (mode : option Mode) :
  photoWidth * mask_height mask == mask_width mask * photoHeight ->
  let t := calculateFitTransformR rnd photoWidth photoHeight mask mode in
  (mask_width mask * (1 - 6 * u) <= scaledWidthR rnd photoWidth t /\
   scaledWidthR rnd photoWidth t <= mask_width mask * (1 + 6 * u)) /\
  (mask_height mask * (1 - 6 * u) <= scaledHeightR rnd photoHeight t /\
   scaledHeightR rnd photoHeight t <= mask_height mask * (1 + 6 * u)).
Proof.
  intros Hcross. cbv zeta.
  unfold scaledWidthR, scaledHeightR, calculateFitTransformR.
  cbn [pt_scale].
  assert (Hmu : 0 <= mask_width mask * u) by (apply Qmult_le_0_compat; lra).
  assert (Hhu : 0 <= mask_height mask * u) by (apply Qmult_le_0_compat; lra).
  assert (Hc : 0 <= mask_width mask * photoHeight * u).
  { apply Qmult_le_0_compat; [apply Qmult_le_0_compat |]; lra. }
  assert (Hcu : photoWidth * mask_height mask * u
                == mask_width mask * photoHeight * u)
    by (rewrite Hcross; reflexivity).
  destruct (governing_size (mask_width mask) photoWidth)
    as (Hsw & (Hw1 & Hw2) & (Hw3 & Hw4)); [lra | assumption |].
  destruct (governing_size (mask_height mask) photoHeight)
    as (Hsh & (Hh1 & Hh2) & (Hh3 & Hh4)); [lra | assumption |].
  assert (Hhw_up : rnd (photoHeight * rnd (mask_width mask / photoWidth))
                   <= mask_height mask * (1 + 6 * u)).
  { apply (other_size_upper (mask_width mask) photoWidth);
      try assumption; lra. }
  assert (Hhw_lo : mask_height mask * (1 - 6 * u)
                   <= rnd (photoHeight * rnd (mask_width mask / photoWidth))).
  { apply (other_size_lower (mask_width mask) photoWidth);
      try assumption; lra. }
  assert (Hwh_up : rnd (photoWidth * rnd (mask_height mask / photoHeight))
                   <= mask_width mask * (1 + 6 * u)).
  { apply (other_size_upper (mask_height mask) photoHeight);
      try assumption; lra. }
  assert (Hwh_lo : mask_width mask * (1 - 6 * u)
                   <= rnd (photoWidth * rnd (mask_height mask / photoHeight))).
  { apply (other_size_lower (mask_height mask) photoHeight);
      try assumption; lra. }
  destruct (Mode_eqb _ fit), (Qgt_bool _ _); repeat split; lra.
Qed.

(** The scale is positive in every mode; 'fit' scales the photo up no
    more than 'fill' does, up to the factor [1 - 5u]; 'center' and the
    omitted mode use the scale of 'fill'. *)
Lemma rounded_scales :
  let scaleOf mode :=
    pt_scale (calculateFitTransformR rnd photoWidth photoHeight mask mode) in
  (forall mode, 0 < scaleOf mode) /\
  scaleOf (Some fit) * (1 - 5 * u) <= scaleOf (Some fill) /\
  scaleOf (Some center) = scaleOf (Some fill) /\
  scaleOf None = scaleOf (Some fill).
Proof.
  cbv zeta. unfold calculateFitTransformR. cbn [pt_scale].
  split; [| split; [| split; reflexivity]].
  - intros mode. destruct (Mode_eqb _ fit), (Qgt_bool _ _);
      apply rnd_pos, div_pos; assumption.
  - cbn [default from_option id Mode_eqb].
    destruct (Qgt_bool _ _) eqn:E.
    + apply Qgt_bool_true in E.
      apply rounded_aspects_lt in E; try assumption.
      apply ordered_scales; try assumption; lra.
    + apply Qgt_bool_false in E.
      apply rounded_aspects_le in E; try assumption.
      apply ordered_scales; try assumption; lra.
Qed.

End RoundedFit.

End RoundedArithmetic.

(** ** The fit transform calculator under rounding *)

(** The rounding every result of which is a thousandth too large. *)
Lemma inflate_rounds : rounds inflate (1 # 1000).
Proof.
  split; [lra | split; [lra |]]. intros q. unfold inflate.
  assert (E : q * (1001 # 1000) - q == (1 # 1000) * q) by ring.
  rewrite E, Qabs_Qmult. apply Qle_refl.
Qed.

(** Exact arithmetic rounds with no error. *)
Lemma identity_rounds : rounds (fun q => q) 0.
Proof.
  split; [lra | split; [lra |]]. intros q.
  assert (E : q - q == 0) by ring.
  rewrite E, Qmult_0_l. apply (Qle_refl 0).
Qed.

(** C10, amended.  For a photo and a mask with positive sizes, the
    transform computed in 'fit' mode places the scaled photo rectangle
    inside the mask rectangle on both axes up to rounding: when every
    operation rounds with relative error at most [u], each of the four
    inequalities holds within [u] times the magnitudes involved (the
    mask's coordinate and eight times the two extents).  The overflow of
    the bias formula is then negative or zero up to that slack, and the
    photo stays between the mask's top and bottom edges.  With no rounding
    ([u] = 0) the four inequalities hold as the claim states them. *)
Theorem fit_mode_photo_inside_mask (rnd : Q -> Q) (u : Q)
    (photoWidth photoHeight : Q) (mask : MaskGeometry) :
  rounds rnd u ->
  0 < photoWidth -> 0 < photoHeight ->
  0 < mask_width mask -> 0 < mask_height mask ->
  let t := calculateFitTransformR rnd photoWidth photoHeight mask (Some fit) in
  let sw := scaledWidthR rnd photoWidth t in
  let sh := scaledHeightR rnd photoHeight t in
  let slackX := slack u (mask_x mask) (mask_width mask) sw in
  let slackY := slack u (mask_y mask) (mask_height mask) sh in
  mask_x mask - slackX <= pt_x t /\
  pt_x t + sw <= mask_x mask + mask_width mask + slackX /\
  mask_y mask - slackY <= pt_y t /\
  pt_y t + sh <= mask_y mask + mask_height mask + slackY.
Proof.
  intros (Hu0 & Hu1 & Herr) Hpw Hph Hmw Hmh. cbv zeta. unfold slack.
  destruct (rounded_fit_sizes rnd u Hu0 Hu1 Herr photoWidth photoHeight mask
              Hpw Hph Hmw Hmh) as [Hw Hh].
  destruct (rounded_placement rnd u Hu0 Hu1 Herr photoWidth photoHeight mask
              Hpw Hph Hmw Hmh (Some fit))
    as ((Hsw & Hsh) & (Hx1 & Hx2) & (Hy1 & Hy2)).
  cbn [default from_option id Mode_eqb] in Hy1, Hy2.
  set (t := calculateFitTransformR rnd photoWidth photoHeight mask
              (Some fit)) in *.
  set (sw := scaledWidthR rnd photoWidth t) in *.
  set (sh := scaledHeightR rnd photoHeight t) in *.
  assert (0 <= u * mask_width mask) by (apply Qmult_le_0_compat; lra).
  assert (0 <= u * mask_height mask) by (apply Qmult_le_0_compat; lra).
  assert (0 <= u * sw) by (apply Qmult_le_0_compat; lra).
  assert (0 <= u * sh) by (apply Qmult_le_0_compat; lra).
  repeat split; lra.
Qed.

Lemma fit_mode_photo_inside_mask_witness :
  let mask := mkMask 100 385 880 900 in
  let t := calculateFitTransformR inflate 800 600 mask (Some fit) in
  let sw := scaledWidthR inflate 800 t in
  let sh := scaledHeightR inflate 600 t in
  let slackX := slack (1 # 1000) 100 880 sw in
  let slackY := slack (1 # 1000) 385 900 sh in
  100 - slackX <= pt_x t /\
  pt_x t + sw <= 100 + 880 + slackX /\
  385 - slackY <= pt_y t /\
  pt_y t + sh <= 385 + 900 + slackY.
Proof.
  apply (fit_mode_photo_inside_mask inflate (1 # 1000) 800 600
           (mkMask 100 385 880 900) inflate_rounds);
    reflexivity.
Defined.

(** The tolerance of the two size guarantees, spelled out: when every
    operation rounds with relative error at most [u], 'fit' scales the
    photo to at most [1 + 6u] times the mask's width and height, and every
    other mode to at least [1 - 6u] times them. *)
Theorem scaled_sizes_within_roundoff (rnd : Q -> Q) (u : Q)
    (photoWidth photoHeight : Q) (mask : MaskGeometry) :
  rounds rnd u ->
  0 < photoWidth -> 0 < photoHeight ->
  0 < mask_width mask -> 0 < mask_height mask ->
  let sizeOf mode :=
    let t := calculateFitTransformR rnd photoWidth photoHeight mask mode in
    (scaledWidthR rnd photoWidth t, scaledHeightR rnd photoHeight t) in
  ((sizeOf (Some fit)).1 <= mask_width mask * (1 + 6 * u) /\
   (sizeOf (Some fit)).2 <= mask_height mask * (1 + 6 * u)) /\
  (forall mode, mode <> Some fit ->
     mask_width mask * (1 - 6 * u) <= (sizeOf mode).1 /\
     mask_height mask * (1 - 6 * u) <= (sizeOf mode).2).
Proof.
  intros (Hu0 & Hu1 & Herr) Hpw Hph Hmw Hmh. cbv zeta. cbn [fst snd].
  split.
  - apply (rounded_fit_sizes rnd u Hu0 Hu1 Herr); assumption.
  - intros mode Hmode.
    apply (rounded_cover_sizes rnd u Hu0 Hu1 Herr); assumption.
Qed.

Lemma scaled_sizes_within_roundoff_witness :
  let mask := mkMask 100 385 880 900 in
  let t := calculateFitTransformR inflate 800 600 mask (Some fit) in
  scaledWidthR inflate 800 t <= 880 * (1 + 6 * (1 # 1000)) /\
  scaledHeightR inflate 600 t <= 900 * (1 + 6 * (1 # 1000)).
Proof.
  pose proof (scaled_sizes_within_roundoff inflate (1 # 1000) 800 600
                (mkMask 100 385 880 900) inflate_rounds
                eq_refl eq_refl eq_refl eq_refl) as H.
  cbv zeta in H. exact (proj1 H).
Defined.

(** The placement in the modes that cover, shared by the calculator's
    own guarantee and by the selection handlers. *)
Lemma cover_placement_rounded (rnd : Q -> Q) (u : Q)
    (photoWidth photoHeight : Q) (mask : MaskGeometry)
    (mode : option Mode) :
  rounds rnd u ->
  0 < photoWidth -> 0 < photoHeight ->
  0 < mask_width mask -> 0 < mask_height mask ->
  mode <> Some fit ->
  let t := calculateFitTransformR rnd photoWidth photoHeight mask mode in
  let sw := scaledWidthR rnd photoWidth t in
  let sh := scaledHeightR rnd photoHeight t in
  let slackX := slack u (mask_x mask) (mask_width mask) sw in
  let slackY := slack u (mask_y mask) (mask_height mask) sh in
  pt_x t <= mask_x mask + slackX /\
  mask_x mask + mask_width mask <= pt_x t + sw + slackX /\
  pt_y t <= mask_y mask + slackY /\
  mask_y mask + mask_height mask <= pt_y t + sh + slackY.
Proof.
  intros (Hu0 & Hu1 & Herr) Hpw Hph Hmw Hmh Hmode. cbv zeta. unfold slack.
  destruct (rounded_cover_sizes rnd u Hu0 Hu1 Herr photoWidth photoHeight
              mask Hpw Hph Hmw Hmh mode Hmode) as [Hw Hh].
  destruct (rounded_placement rnd u Hu0 Hu1 Herr photoWidth photoHeight mask
              Hpw Hph Hmw Hmh mode)
    as ((Hsw & Hsh) & (Hx1 & Hx2) & (Hy1 & Hy2)).
  set (t := calculateFitTransformR rnd photoWidth photoHeight mask mode) in *.
  set (sw := scaledWidthR rnd photoWidth t) in *.
  set (sh := scaledHeightR rnd photoHeight t) in *.
  assert (0 <= u * mask_width mask) by (apply Qmult_le_0_compat; lra).
  assert (0 <= u * mask_height mask) by (apply Qmult_le_0_compat; lra).
  assert (0 <= u * sw) by (apply Qmult_le_0_compat; lra).
  assert (0 <= u * sh) by (apply Qmult_le_0_compat; lra).
  destruct (Mode_eqb (default fill mode) center); repeat split; lra.
Qed.

(** In every mode but 'fit' the mask rectangle lies inside the scaled photo
    rectangle up to rounding: the photo leaves no part of the window
    uncovered beyond the slack, [u] times the magnitudes involved. *)
Theorem cover_modes_mask_inside_photo (rnd : Q -> Q) (u : Q)
    (photoWidth photoHeight : Q) (mask : MaskGeometry)
    (mode : option Mode) :
  rounds rnd u ->
  0 < photoWidth -> 0 < photoHeight ->
  0 < mask_width mask -> 0 < mask_height mask ->
  mode <> Some fit ->
  let t := calculateFitTransformR rnd photoWidth photoHeight mask mode in
  let sw := scaledWidthR rnd photoWidth t in
  let sh := scaledHeightR rnd photoHeight t in
  let slackX := slack u (mask_x mask) (mask_width mask) sw in
  let slackY := slack u (mask_y mask) (mask_height mask) sh in
  pt_x t <= mask_x mask + slackX /\
  mask_x mask + mask_width mask <= pt_x t + sw + slackX /\
  pt_y t <= mask_y mask + slackY /\
  mask_y mask + mask_height mask <= pt_y t + sh + slackY.
Proof. apply cover_placement_rounded. Qed.

Lemma cover_modes_mask_inside_photo_witness :
  let mask := mkMask 100 385 880 900 in
  let t := calculateFitTransformR inflate 600 800 mask (Some fill) in
  let sw := scaledWidthR inflate 600 t in
  let sh := scaledHeightR inflate 800 t in
  let slackX := slack (1 # 1000) 100 880 sw in
  let slackY := slack (1 # 1000) 385 900 sh in
  pt_x t <= 100 + slackX /\
  100 + 880 <= pt_x t + sw + slackX /\
  pt_y t <= 385 + slackY /\
  385 + 900 <= pt_y t + sh + slackY.
Proof.
  apply (cover_modes_mask_inside_photo inflate (1 # 1000) 600 800
           (mkMask 100 385 880 900) (Some fill) inflate_rounds);
    try reflexivity. discriminate.
Defined.

(** In every mode the scaled photo matches the mask in width or in height
    up to two roundings: between [1 - 2u] and [1 + 3u] times the mask's
    size. *)
Theorem scaled_photo_touches_mask (rnd : Q -> Q) (u : Q)
    (photoWidth photoHeight : Q) (mask : MaskGeometry)
    (mode : option Mode) :
  rounds rnd u ->
  0 < photoWidth -> 0 < photoHeight ->
  0 < mask_width mask -> 0 < mask_height mask ->
  let t := calculateFitTransformR rnd photoWidth photoHeight mask mode in
  (mask_width mask * (1 - 2 * u) <= scaledWidthR rnd photoWidth t /\
   scaledWidthR rnd photoWidth t <= mask_width mask * (1 + 3 * u)) \/
  (mask_height mask * (1 - 2 * u) <= scaledHeightR rnd photoHeight t /\
   scaledHeightR rnd photoHeight t <= mask_height mask * (1 + 3 * u)).
Proof.
  intros (Hu0 & Hu1 & Herr) Hpw Hph Hmw Hmh.
  apply (rounded_touch rnd u Hu0 Hu1 Herr); assumption.
Qed.

Lemma scaled_photo_touches_mask_witness :
  let mask := mkMask 0 0 1 1 in
  let t := calculateFitTransformR inflate 49 49 mask (Some fill) in
  (1 * (1 - 2 * (1 # 1000)) <= scaledWidthR inflate 49 t /\
   scaledWidthR inflate 49 t <= 1 * (1 + 3 * (1 # 1000))) \/
  (1 * (1 - 2 * (1 # 1000)) <= scaledHeightR inflate 49 t /\
   scaledHeightR inflate 49 t <= 1 * (1 + 3 * (1 # 1000))).
Proof.
  apply (scaled_photo_touches_mask inflate (1 # 1000) 49 49
           (mkMask 0 0 1 1) (Some fill) inflate_rounds);
    reflexivity.
Defined.

(** A photo with the aspect ratio of the mask lands on the mask in every
    mode up to rounding: each scaled size between [1 - 6u] and [1 + 6u]
    times the mask's, the top-left corner within the slack of the
    mask's. *)
Theorem same_aspect_photo_lands_on_mask (rnd : Q -> Q) (u : Q)
    (photoWidth photoHeight : Q) (mask : MaskGeometry)
    (mode : option Mode) :
  rounds rnd u ->
  0 < photoWidth -> 0 < photoHeight ->
  0 < mask_width mask -> 0 < mask_height mask ->
  photoWidth * mask_height mask == mask_width mask * photoHeight ->
  let t := calculateFitTransformR rnd photoWidth photoHeight mask mode in
  let sw := scaledWidthR rnd photoWidth t in
  let sh := scaledHeightR rnd photoHeight t in
  let slackX := slack u (mask_x mask) (mask_width mask) sw in
  let slackY := slack u (mask_y mask) (mask_height mask) sh in
  (mask_width mask * (1 - 6 * u) <= sw /\
   sw <= mask_width mask * (1 + 6 * u)) /\
  (mask_height mask * (1 - 6 * u) <= sh /\
   sh <= mask_height mask * (1 + 6 * u)) /\
  (mask_x mask - slackX <= pt_x t /\ pt_x t <= mask_x mask + slackX) /\
  (mask_y mask - slackY <= pt_y t /\ pt_y t <= mask_y mask + slackY).
Proof.
  intros (Hu0 & Hu1 & Herr) Hpw Hph Hmw Hmh Hcross. cbv zeta. unfold slack.
  destruct (rounded_same_aspect_sizes rnd u Hu0 Hu1 Herr photoWidth
              photoHeight mask Hpw Hph Hmw Hmh mode Hcross)
    as ((Hw1 & Hw2) & (Hh1 & Hh2)).
  destruct (rounded_placement rnd u Hu0 Hu1 Herr photoWidth photoHeight mask
              Hpw Hph Hmw Hmh mode)
    as ((Hsw & Hsh) & (Hx1 & Hx2) & (Hy1 & Hy2)).
  set (t := calculateFitTransformR rnd photoWidth photoHeight mask mode) in *.
  set (sw := scaledWidthR rnd photoWidth t) in *.
  set (sh := scaledHeightR rnd photoHeight t) in *.
  assert (0 <= u * mask_width mask) by (apply Qmult_le_0_compat; lra).
  assert (0 <= u * mask_height mask) by (apply Qmult_le_0_compat; lra).
  assert (0 <= u * sw) by (apply Qmult_le_0_compat; lra).
  assert (0 <= u * sh) by (apply Qmult_le_0_compat; lra).
  destruct (Mode_eqb (default fill mode) center); repeat split; lra.
Qed.

Lemma same_aspect_photo_lands_on_mask_witness :
  let mask := mkMask 100 385 822 822 in
  let t := calculateFitTransformR inflate 600 600 mask None in
  let sw := scaledWidthR inflate 600 t in
  let sh := scaledHeightR inflate 600 t in
  let slackX := slack (1 # 1000) 100 822 sw in
  let slackY := slack (1 # 1000) 385 822 sh in
  (822 * (1 - 6 * (1 # 1000)) <= sw /\
   sw <= 822 * (1 + 6 * (1 # 1000))) /\
  (822 * (1 - 6 * (1 # 1000)) <= sh /\
   sh <= 822 * (1 + 6 * (1 # 1000))) /\
  (100 - slackX <= pt_x t /\ pt_x t <= 100 + slackX) /\
  (385 - slackY <= pt_y t /\ pt_y t <= 385 + slackY).
Proof.
  apply (same_aspect_photo_lands_on_mask inflate (1 # 1000) 600 600
           (mkMask 100 385 822 822) None inflate_rounds);
    reflexivity.
Defined.

(** The scale is positive in every mode; 'fit' never scales the photo up
    more than 'fill' does, up to the factor [1 - 5u]; 'center' and the
    omitted mode use the scale of 'fill'. *)
Theorem fit_scale_at_most_fill_scale (rnd : Q -> Q) (u : Q)
    (photoWidth photoHeight : Q) (mask : MaskGeometry) :
  rounds rnd u ->
  0 < photoWidth -> 0 < photoHeight ->
  0 < mask_width mask -> 0 < mask_height mask ->
  let scaleOf mode :=
    pt_scale (calculateFitTransformR rnd photoWidth photoHeight mask mode) in
  (forall mode, 0 < scaleOf mode) /\
  scaleOf (Some fit) * (1 - 5 * u) <= scaleOf (Some fill) /\
  scaleOf (Some center) = scaleOf (Some fill) /\
  scaleOf None = scaleOf (Some fill).
Proof.
  intros (Hu0 & Hu1 & Herr) Hpw Hph Hmw Hmh.
  apply (rounded_scales rnd u Hu0 Hu1 Herr); assumption.
Qed.

Lemma fit_scale_at_most_fill_scale_witness :
  let mask := scaledMaskR inflate
                (mkFrame "f1" "frame.png" "" 729 1531 None)
                (mkMask 3 7 243 765) in
  pt_scale (calculateFitTransformR inflate 81 255 mask (Some fit))
  * (1 - 5 * (1 # 1000))
  <= pt_scale (calculateFitTransformR inflate 81 255 mask (Some fill)).
Proof.
  pose proof (fit_scale_at_most_fill_scale inflate (1 # 1000) 81 255
                (scaledMaskR inflate
                   (mkFrame "f1" "frame.png" "" 729 1531 None)
                   (mkMask 3 7 243 765))
                inflate_rounds eq_refl eq_refl eq_refl eq_refl) as H.
  cbv zeta in H. exact (proj1 (proj2 H)).
Defined.

(** ** Sizes scaled to fit *)

(** A size scaled down keeps within itself, up to one rounding. *)
Lemma scaled_down_at_most (rnd : Q -> Q) (u p s : Q) :
  rounds rnd u -> 0 < p -> 0 < s -> s <= 1 ->
  0 < rnd (p * s) /\ rnd (p * s) <= p * (1 + u).
Proof.
  intros (Hu0 & Hu1 & Herr) Hp Hs Hs1.
  assert (Hps : 0 < p * s) by (apply Qmult_lt_0_compat; assumption).
  split; [apply (rnd_pos rnd u Hu0 Hu1 Herr); assumption |].
  destruct (rnd_nonneg_bounds rnd u Hu0 Hu1 Herr (p * s)) as [_ Hhi];
    [lra |].
  assert (Hp0 : 0 <= p) by lra.
  pose proof (times p _ _ Hp0 Hs1) as H1.
  assert (Hu : 0 <= 1 + u) by lra.
  assert (H2 : p * s <= p) by lra.
  pose proof (times _ _ _ Hu H2) as H3. lra.
Qed.

(** The scale [Math.min(a / p, b / q, 1)] as computed is positive and at
    most [1]. *)
Lemma fitting_scale_bounds (rnd : Q -> Q) (u a p b q : Q) :
  rounds rnd u -> 0 < a -> 0 < p -> 0 < b -> 0 < q ->
  let s := Qmin3 (rnd (a / p)) (rnd (b / q)) 1 in
  0 < s /\ s <= 1 /\ s <= rnd (a / p) /\ s <= rnd (b / q).
Proof.
  intros (Hu0 & Hu1 & Herr) Ha Hp Hb Hq. cbv zeta.
  destruct (Qmin3_le (rnd (a / p)) (rnd (b / q)) 1) as (H1 & H2 & H3).
  repeat split; try assumption.
  apply Qmin3_pos; [| | reflexivity];
    apply (rnd_pos rnd u Hu0 Hu1 Herr), div_pos; assumption.
Qed.

(** [createPreviewImage] draws the preview within the bounds and within
    the image's own size up to rounding: at most [1 + 3u] times each
    bound, at most [1 + u] times each side, and never empty. *)
Theorem preview_size_fits (rnd : Q -> Q) (u : Q)
    (maxWidth maxHeight width height : Q) :
  rounds rnd u ->
  0 < maxWidth -> 0 < maxHeight -> 0 < width -> 0 < height ->
  let size := previewSizeR rnd maxWidth maxHeight width height in
  (0 < size.1 /\ 0 < size.2) /\
  (size.1 <= maxWidth * (1 + 3 * u) /\
   size.2 <= maxHeight * (1 + 3 * u)) /\
  (size.1 <= width * (1 + u) /\ size.2 <= height * (1 + u)).
Proof.
  intros Hr HW HH Hw Hh. cbv zeta. unfold previewSizeR. cbn [fst snd].
  destruct (fitting_scale_bounds rnd u maxWidth width maxHeight height Hr
              HW Hw HH Hh) as (Hs0 & Hs1 & Hsw & Hsh).
  set (s := Qmin3 _ _ 1) in *.
  destruct (scaled_down_at_most rnd u width s Hr Hw Hs0 Hs1) as [Pw Bw].
  destruct (scaled_down_at_most rnd u height s Hr Hh Hs0 Hs1) as [Ph Bh].
  destruct Hr as (Hu0 & Hu1 & Herr).
  destruct (scaled_at_most rnd u Hu0 Hu1 Herr maxWidth width s)
    as [_ Mw]; [lra | lra | lra | assumption |].
  destruct (scaled_at_most rnd u Hu0 Hu1 Herr maxHeight height s)
    as [_ Mh]; [lra | lra | lra | assumption |].
  repeat split; assumption.
Qed.

Lemma preview_size_fits_witness :
  let size := previewSizeR inflate 300 300 577 577 in
  (0 < size.1 /\ 0 < size.2) /\
  (size.1 <= 300 * (1 + 3 * (1 # 1000)) /\
   size.2 <= 300 * (1 + 3 * (1 # 1000))) /\
  (size.1 <= 577 * (1 + (1 # 1000)) /\ size.2 <= 577 * (1 + (1 # 1000))).
Proof.
  apply (preview_size_fits inflate (1 # 1000) 300 300 577 577 inflate_rounds);
    reflexivity.
Defined.

(** The composer's stage fits its container up to rounding: the display
    scale is positive and at most [1], the stage at most [1 + 3u] times the
    container's width and height and at most [1 + u] times the canvas. *)
Theorem displayScale_fits_container (rnd : Q -> Q) (u : Q)
    (containerWidth containerHeight : Q) :
  rounds rnd u ->
  0 < containerWidth -> 0 < containerHeight ->
  let s := displayScaleR rnd containerWidth containerHeight in
  (0 < s /\ s <= 1) /\
  (0 < stageWidthR rnd s /\ 0 < stageHeightR rnd s) /\
  (stageWidthR rnd s <= containerWidth * (1 + 3 * u) /\
   stageHeightR rnd s <= containerHeight * (1 + 3 * u)) /\
  (stageWidthR rnd s <= CANVAS_WIDTH * (1 + u) /\
   stageHeightR rnd s <= CANVAS_HEIGHT * (1 + u)).
Proof.
  intros Hr Hw Hh. cbv zeta.
  unfold displayScaleR, stageWidthR, stageHeightR.
  assert (HW : 0 < CANVAS_WIDTH) by reflexivity.
  assert (HH : 0 < CANVAS_HEIGHT) by reflexivity.
  destruct (fitting_scale_bounds rnd u containerWidth CANVAS_WIDTH
              containerHeight CANVAS_HEIGHT Hr Hw HW Hh HH)
    as (Hs0 & Hs1 & Hsw & Hsh).
  set (s := Qmin3 _ _ 1) in *.
  destruct (scaled_down_at_most rnd u CANVAS_WIDTH s Hr HW Hs0 Hs1)
    as [Pw Bw].
  destruct (scaled_down_at_most rnd u CANVAS_HEIGHT s Hr HH Hs0 Hs1)
    as [Ph Bh].
  destruct Hr as (Hu0 & Hu1 & Herr).
  destruct (scaled_at_most rnd u Hu0 Hu1 Herr containerWidth CANVAS_WIDTH s)
    as [_ Mw]; [lra | lra | lra | assumption |].
  destruct (scaled_at_most rnd u Hu0 Hu1 Herr containerHeight CANVAS_HEIGHT
              s)
    as [_ Mh]; [lra | lra | lra | assumption |].
  repeat split; assumption.
Qed.

Lemma displayScale_fits_container_witness :
  let s := displayScaleR inflate 301 700 in
  (0 < s /\ s <= 1) /\
  (0 < stageWidthR inflate s /\ 0 < stageHeightR inflate s) /\
  (stageWidthR inflate s <= 301 * (1 + 3 * (1 # 1000)) /\
   stageHeightR inflate s <= 700 * (1 + 3 * (1 # 1000))) /\
  (stageWidthR inflate s <= CANVAS_WIDTH * (1 + (1 # 1000)) /\
   stageHeightR inflate s <= CANVAS_HEIGHT * (1 + (1 # 1000))).
Proof.
  apply (displayScale_fits_container inflate (1 # 1000) 301 700
           inflate_rounds);
    reflexivity.
Defined.

(** ** The export *)

(** The export ratio brings any stage up to the canvas size in both
    dimensions up to one rounding; the composer's own stage it brings to
    the canvas size within the factors [1 - u] and [1 + 4u]. *)
Theorem exportPixelRatio_reaches_canvas (rnd : Q -> Q) (u : Q)
    (currentWidth currentHeight : Q) :
  rounds rnd u ->
  0 < currentWidth -> 0 < currentHeight ->
  let r := exportPixelRatioR rnd currentWidth currentHeight in
  (CANVAS_WIDTH * (1 - u) <= r * currentWidth /\
   CANVAS_HEIGHT * (1 - u) <= r * currentHeight) /\
  (forall s, 0 < s ->
     currentWidth = stageWidthR rnd s ->
     currentHeight = stageHeightR rnd s ->
     r * currentWidth <= CANVAS_WIDTH * (1 + 4 * u) /\
     r * currentHeight <= CANVAS_HEIGHT * (1 + 4 * u)).
Proof.
  intros (Hu0 & Hu1 & Herr) Hw Hh. cbv zeta. unfold exportPixelRatioR.
  assert (HW : 0 < CANVAS_WIDTH) by reflexivity.
  assert (HH : 0 < CANVAS_HEIGHT) by reflexivity.
  destruct (governing_size rnd u Hu0 Hu1 Herr CANVAS_WIDTH currentWidth)
    as (Hf & (Hf1 & Hf2) & _); [lra | assumption |].
  destruct (governing_size rnd u Hu0 Hu1 Herr CANVAS_HEIGHT currentHeight)
    as (Hg & (Hg1 & Hg2) & _); [lra | assumption |].
  set (f := rnd (CANVAS_WIDTH / currentWidth)) in *.
  set (g := rnd (CANVAS_HEIGHT / currentHeight)) in *.
  pose proof (Q.le_max_l f g) as Hrf. pose proof (Q.le_max_r f g) as Hrg.
  assert (Hw0 : 0 <= currentWidth) by lra.
  assert (Hh0 : 0 <= currentHeight) by lra.
  pose proof (times currentWidth _ _ Hw0 Hrf) as L1.
  pose proof (times currentHeight _ _ Hh0 Hrg) as L2.
  split; [split; lra |].
  intros s Hs Ew Eh.
  assert (Hs0 : 0 <= CANVAS_WIDTH * s) by (apply Qmult_le_0_compat; lra).
  assert (Hs1 : 0 <= CANVAS_HEIGHT * s) by (apply Qmult_le_0_compat; lra).
  destruct (rnd_nonneg_bounds rnd u Hu0 Hu1 Herr _ Hs0) as [A1 A2].
  destruct (rnd_nonneg_bounds rnd u Hu0 Hu1 Herr _ Hs1) as [B1 B2].
  fold (stageWidthR rnd s) in A1, A2. fold (stageHeightR rnd s) in B1, B2.
  rewrite <- Ew in A1, A2. rewrite <- Eh in B1, B2.
  destruct (roundoff_facts rnd u Hu0 Hu1 Herr) as (Huu & Hlow & Hup).
  assert (Hlow0 : 0 <= 1 - u) by lra.
  pose proof (times _ _ _ Hlow0 A1) as A1'.
  pose proof (times _ _ _ Hlow0 A2) as A2'.
  pose proof (times _ _ _ Hup B1) as B1'.
  pose proof (times _ _ _ Hup B2) as B2'.
  pose proof (times _ _ _ Hlow0 B1) as B1''.
  pose proof (times _ _ _ Hlow0 B2) as B2''.
  pose proof (times _ _ _ Hup A1) as A1''.
  pose proof (times _ _ _ Hup A2) as A2''.
  assert (Gw : currentWidth * g <= CANVAS_WIDTH * (1 + 4 * u)).
  { apply (other_product_upper rnd u Hu0 Hu1 Herr CANVAS_HEIGHT currentHeight
             CANVAS_WIDTH currentWidth g); try assumption.
    unfold CANVAS_WIDTH, CANVAS_HEIGHT in *. lra. }
  assert (Gh : currentHeight * f <= CANVAS_HEIGHT * (1 + 4 * u)).
  { apply (other_product_upper rnd u Hu0 Hu1 Herr CANVAS_WIDTH currentWidth
             CANVAS_HEIGHT currentHeight f); try assumption.
    unfold CANVAS_WIDTH, CANVAS_HEIGHT in *. lra. }
  assert (0 <= CANVAS_WIDTH * u) by (apply Qmult_le_0_compat; lra).
  assert (0 <= CANVAS_HEIGHT * u) by (apply Qmult_le_0_compat; lra).
  destruct (Q.max_spec f g) as [[_ E] | [_ E]]; rewrite E; split; lra.
Qed.

Lemma exportPixelRatio_reaches_canvas_witness :
  let cw := stageWidthR inflate (198 # 1080) in
  let ch := stageHeightR inflate (198 # 1080) in
  let r := exportPixelRatioR inflate cw ch in
  (CANVAS_WIDTH * (1 - (1 # 1000)) <= r * cw /\
   CANVAS_HEIGHT * (1 - (1 # 1000)) <= r * ch) /\
  r * cw <= CANVAS_WIDTH * (1 + 4 * (1 # 1000)) /\
  r * ch <= CANVAS_HEIGHT * (1 + 4 * (1 # 1000)).
Proof.
  pose proof (exportPixelRatio_reaches_canvas inflate (1 # 1000)
                (stageWidthR inflate (198 # 1080))
                (stageHeightR inflate (198 # 1080))
                inflate_rounds eq_refl eq_refl) as H.
  cbv zeta in H. destruct H as [H1 H2].
  split; [exact H1 | exact (H2 (198 # 1080) eq_refl eq_refl eq_refl)].
Defined.

(** ** Positions read back *)

(** The composer reads a dragged photo's position back from the node: a
    photo that was not moved returns to the position it was drawn from
    within [3u] times that position's magnitude, and the drag leaves scale
    and rotation alone. *)
Theorem handlePhotoDrag_reads_back (rnd : Q -> Q) (u : Q)
    (t : PhotoTransform) (mask : MaskGeometry) (s : Q) :
  rounds rnd u ->
  0 < s ->
  let x0 := js_or (pt_x t) (mask_x mask) in
  let y0 := js_or (pt_y t) (mask_y mask) in
  let still :=
    handlePhotoDragR rnd t (photoNodeXR rnd t mask s)
                     (photoNodeYR rnd t mask s) s in
  near u 3 x0 (pt_x still) /\ near u 3 y0 (pt_y still) /\
  pt_scale still = pt_scale t /\ pt_rotation still = pt_rotation t.
Proof.
  intros (Hu0 & Hu1 & Herr) Hs. cbv zeta.
  unfold near, handlePhotoDragR, photoNodeXR, photoNodeYR.
  cbn [pt_x pt_y pt_scale pt_rotation].
  split; [| split; [| split; reflexivity]];
    apply (read_back_error rnd u Hu0 Hu1 Herr); try assumption;
    apply within_Qabs.
Qed.

Lemma handlePhotoDrag_reads_back_witness :
  let t := mkTransform 200 (-50) 1 0 in
  let mask := mkMask 100 385 880 900 in
  let s := 700 # 1920 in
  let still :=
    handlePhotoDragR inflate t (photoNodeXR inflate t mask s)
                     (photoNodeYR inflate t mask s) s in
  near (1 # 1000) 3 200 (pt_x still) /\
  near (1 # 1000) 3 (- (50)) (pt_y still) /\
  pt_scale still = 1 /\ pt_rotation still = 0.
Proof.
  apply (handlePhotoDrag_reads_back inflate (1 # 1000)
           (mkTransform 200 (-50) 1 0) (mkMask 100 385 880 900)
           (700 # 1920) inflate_rounds).
  reflexivity.
Defined.

(** The mask editor: the frame is drawn inside the container less its
    margin of 40, up to the factor [1 + 5u]; a rectangle drawn from a
    mask and read back without being moved returns the mask's position
    within [3u] times its magnitude, and one resized by the factors [kx],
    [ky] the resized sizes within [4u] times their magnitude; a drag
    keeps the sizes. *)
Theorem mask_editor_reads_back (rnd : Q -> Q) (u : Q)
    (containerWidth containerHeight : Q)
    (frame : FrameAsset) (mask : MaskGeometry) (kx ky : Q) :
  rounds rnd u ->
  40 < containerWidth -> 40 < containerHeight ->
  0 < frame_width frame -> 0 < frame_height frame ->
  let s := editorScaleR rnd containerWidth containerHeight frame in
  let nodeX := rnd (mask_x mask * s) in
  let nodeY := rnd (mask_y mask * s) in
  let dragged := handleDragEndR rnd mask nodeX nodeY s in
  let resized :=
    handleTransformEndR rnd nodeX nodeY (rnd (mask_width mask * s))
                        (rnd (mask_height mask * s)) kx ky s in
  (0 < s /\ s <= 1 /\
   rnd (frame_width frame * s) <= (containerWidth - 40) * (1 + 5 * u) /\
   rnd (frame_height frame * s) <= (containerHeight - 40) * (1 + 5 * u)) /\
  (near u 3 (mask_x mask) (mask_x dragged) /\
   near u 3 (mask_y mask) (mask_y dragged) /\
   mask_width dragged = mask_width mask /\
   mask_height dragged = mask_height mask) /\
  (near u 3 (mask_x mask) (mask_x resized) /\
   near u 3 (mask_y mask) (mask_y resized) /\
   near u 4 (mask_width mask * kx) (mask_width resized) /\
   near u 4 (mask_height mask * ky) (mask_height resized)).
Proof.
  intros Hr Hcw Hch Hfw Hfh. cbv zeta.
  unfold near, editorScaleR, handleDragEndR, handleTransformEndR.
  cbn [mask_x mask_y mask_width mask_height].
  pose proof Hr as (Hu0 & Hu1 & Herr).
  assert (Pw : 0 < rnd (containerWidth - 40))
    by (apply (rnd_pos rnd u Hu0 Hu1 Herr); lra).
  assert (Ph : 0 < rnd (containerHeight - 40))
    by (apply (rnd_pos rnd u Hu0 Hu1 Herr); lra).
  destruct (fitting_scale_bounds rnd u _ (frame_width frame) _
              (frame_height frame) Hr Pw Hfw Ph Hfh)
    as (Hs0 & Hs1 & Hsw & Hsh).
  set (s := Qmin3 _ _ 1) in *.
  destruct (rnd_nonneg_bounds rnd u Hu0 Hu1 Herr (containerWidth - 40))
    as [_ Cw]; [lra |].
  destruct (rnd_nonneg_bounds rnd u Hu0 Hu1 Herr (containerHeight - 40))
    as [_ Ch]; [lra |].
  destruct (scaled_at_most rnd u Hu0 Hu1 Herr (rnd (containerWidth - 40))
              (frame_width frame) s)
    as [_ Mw]; [lra | lra | lra | exact Hsw |].
  destruct (scaled_at_most rnd u Hu0 Hu1 Herr (rnd (containerHeight - 40))
              (frame_height frame) s)
    as [_ Mh]; [lra | lra | lra | exact Hsh |].
  assert (Hu3 : 0 <= 1 + 3 * u) by lra.
  pose proof (times _ _ _ Hu3 Cw) as Cw'.
  pose proof (times _ _ _ Hu3 Ch) as Ch'.
  assert (Hcw0 : 0 <= containerWidth - 40) by lra.
  assert (Hch0 : 0 <= containerHeight - 40) by lra.
  destruct (roundoff_of_size rnd u Hu0 Hu1 Herr _ Hcw0) as (F1 & F2 & F3 & F4).
  destruct (roundoff_of_size rnd u Hu0 Hu1 Herr _ Hch0) as (G1 & G2 & G3 & G4).
  split; [repeat split; try assumption; lra |].
  split; [split; [| split; [| split; reflexivity]] | repeat split].
  all: first
    [ apply (read_back_error rnd u Hu0 Hu1 Herr); try assumption;
      apply within_Qabs
    | apply (resized_back_error rnd u Hu0 Hu1 Herr); try assumption;
      apply within_Qabs ].
Qed.

Lemma mask_editor_reads_back_witness :
  let frame := mkFrame "f1" "wide.png" "data:image/png;base64,AAAA"
                       1031 800 None in
  let mask := mkMask 100 235 400 300 in
  let s := editorScaleR inflate 400 700 frame in
  let dragged :=
    handleDragEndR inflate mask (inflate (100 * s)) (inflate (235 * s)) s in
  inflate (1031 * s) <= (400 - 40) * (1 + 5 * (1 # 1000)) /\
  near (1 # 1000) 3 235 (mask_y dragged).
Proof.
  pose proof (mask_editor_reads_back inflate (1 # 1000) 400 700
                (mkFrame "f1" "wide.png" "data:image/png;base64,AAAA"
                         1031 800 None)
                (mkMask 100 235 400 300) 2 2 inflate_rounds
                eq_refl eq_refl eq_refl eq_refl) as H.
  cbv zeta in H. destruct H as ((_ & _ & Hw & _) & (_ & Hy & _) & _).
  split; [exact Hw | exact Hy].
Defined.

(** ** The photo node's size *)

(** The size the composer draws the photo at does not follow the slider:
    whatever positive scale the transform carries, the dimension that
    governs is the mask's within [1 - 2u] and [1 + 3u], and the other one
    follows from it by the photo's computed aspect ratio within [1 - 3u]
    and [1 + 4u]. *)
Theorem getPhotoDisplayProps_ignores_scale (rnd : Q -> Q) (u : Q)
    (photo : PhotoAsset) (t : PhotoTransform) (mask : MaskGeometry) :
  rounds rnd u ->
  0 < photo_width photo -> 0 < photo_height photo ->
  0 < mask_width mask -> 0 < mask_height mask ->
  0 < pt_scale t ->
  let photoAspect := rnd (photo_width photo / photo_height photo) in
  let maskAspect := rnd (mask_width mask / mask_height mask) in
  exists size,
    getPhotoDisplayPropsR rnd (Some photo) t mask = Some size /\
    if Qgt_bool photoAspect maskAspect then
      (mask_height mask * (1 - 2 * u) <= size.2 /\
       size.2 <= mask_height mask * (1 + 3 * u)) /\
      (mask_height mask * photoAspect * (1 - 3 * u) <= size.1 /\
       size.1 <= mask_height mask * photoAspect * (1 + 4 * u))
    else
      (mask_width mask * (1 - 2 * u) <= size.1 /\
       size.1 <= mask_width mask * (1 + 3 * u)) /\
      (mask_width mask * (1 - 3 * u) <= photoAspect * size.2 /\
       photoAspect * size.2 <= mask_width mask * (1 + 4 * u)).
Proof.
  intros (Hu0 & Hu1 & Herr) Hpw Hph Hmw Hmh Hsc. cbv zeta.
  unfold getPhotoDisplayPropsR.
  assert (HA : 0 < rnd (photo_width photo / photo_height photo))
    by (apply (rnd_pos rnd u Hu0 Hu1 Herr), div_pos; assumption).
  set (A := rnd (photo_width photo / photo_height photo)) in *.
  set (sc := pt_scale t) in *.
  assert (Hsc0 : 0 <= sc) by lra. assert (HA0 : 0 <= A) by lra.
  destruct (roundoff_facts rnd u Hu0 Hu1 Herr) as (Huu & Hlow & Hup).
  assert (Hlow0 : 0 <= 1 - u) by lra.
  destruct (Qgt_bool A _); eexists; (split; [reflexivity |]);
    cbn [fst snd].
  - destruct (governing_size rnd u Hu0 Hu1 Herr (mask_height mask) sc)
      as (Hd & (G1 & G2) & (G3 & G4)); [lra | assumption |].
    set (pdh := rnd (mask_height mask / sc)) in *.
    rewrite (Qmult_comm_eq pdh sc). split; [split; assumption |].
    assert (HdA : 0 <= pdh * A) by (apply Qmult_le_0_compat; assumption).
    destruct (rnd_nonneg_bounds rnd u Hu0 Hu1 Herr _ HdA) as [W1 W2].
    set (pdw := rnd (pdh * A)) in *.
    assert (Hpdw : 0 <= pdw * sc).
    { apply Qmult_le_0_compat; [| assumption].
      apply (rnd_nonneg rnd u Hu0 Hu1 Herr); assumption. }
    destruct (rnd_nonneg_bounds rnd u Hu0 Hu1 Herr _ Hpdw) as [V1 V2].
    pose proof (times _ _ _ Hsc0 W1) as W1'.
    pose proof (times _ _ _ Hsc0 W2) as W2'.
    pose proof (times _ _ _ HA0 G1) as G1'.
    pose proof (times _ _ _ HA0 G2) as G2'.
    apply (chain3 rnd u Hu0 Hu1 Herr (mask_height mask * A)
             (sc * pdh * A) (pdw * sc));
      try assumption; try lra.
    apply Qmult_le_0_compat; lra.
  - destruct (governing_size rnd u Hu0 Hu1 Herr (mask_width mask) sc)
      as (Hd & (G1 & G2) & (G3 & G4)); [lra | assumption |].
    set (pdw := rnd (mask_width mask / sc)) in *.
    rewrite (Qmult_comm_eq pdw sc). split; [split; assumption |].
    destruct (rnd_quotient_scaled rnd u Hu0 Hu1 Herr pdw A Hd HA)
      as [W1 W2].
    set (pdh := rnd (pdw / A)) in *.
    assert (Hpdh0 : 0 <= pdh).
    { apply (rnd_nonneg rnd u Hu0 Hu1 Herr).
      apply Qle_shift_div_l; [assumption | lra]. }
    assert (Hpdh : 0 <= pdh * sc) by (apply Qmult_le_0_compat; assumption).
    destruct (rnd_nonneg_bounds rnd u Hu0 Hu1 Herr _ Hpdh) as [V1 V2].
    pose proof (times _ _ _ Hsc0 W1) as W1'.
    pose proof (times _ _ _ Hsc0 W2) as W2'.
    pose proof (times _ _ _ HA0 V1) as V1'.
    pose proof (times _ _ _ HA0 V2) as V2'.
    apply (chain3 rnd u Hu0 Hu1 Herr (mask_width mask)
             (sc * pdw) (A * pdh * sc));
      try assumption; try lra.
Qed.

Lemma getPhotoDisplayProps_ignores_scale_witness :
  let mask := mkMask 100 385 880 900 in
  let t := mkTransform 100 385 (3 # 2) 0 in
  exists size,
    getPhotoDisplayPropsR inflate (Some portrait_photo) t mask = Some size /\
    (880 * (1 - 2 * (1 # 1000)) <= size.1 /\
     size.1 <= 880 * (1 + 3 * (1 # 1000))).
Proof.
  destruct (getPhotoDisplayProps_ignores_scale inflate (1 # 1000)
              portrait_photo (mkTransform 100 385 (3 # 2) 0)
              (mkMask 100 385 880 900) inflate_rounds
              eq_refl eq_refl eq_refl eq_refl eq_refl)
    as (size & Hsize & Hbounds).
  exists size. split; [exact Hsize | exact (proj1 Hbounds)].
Defined.

(** ** Frame space and canvas space under rounding *)

Lemma frameScaleOfR_bounds (rnd : Q -> Q) (u : Q) (frame : FrameAsset) :
  rounds rnd u ->
  0 < frame_width frame -> 0 < frame_height frame ->
  let fs := frameScaleOfR rnd frame in
  0 < fs /\
  fs <= rnd (CANVAS_WIDTH / frame_width frame) /\
  fs <= rnd (CANVAS_HEIGHT / frame_height frame) /\
  (fs = rnd (CANVAS_WIDTH / frame_width frame) \/
   fs = rnd (CANVAS_HEIGHT / frame_height frame)).
Proof.
  intros (Hu0 & Hu1 & Herr) Hw Hh. cbv zeta. unfold frameScaleOfR.
  split; [| split; [apply Q.le_min_l | split; [apply Q.le_min_r |]]].
  - apply Q.min_glb_lt; apply (rnd_pos rnd u Hu0 Hu1 Herr), div_pos;
      solve [assumption | reflexivity].
  - unfold Qmin, GenericMinMax.gmin.
    destruct (_ ?= _); [left | left | right]; reflexivity.
Qed.

(** The frame is drawn inside the canvas and spans it in one dimension, and
    a mask that lies inside the frame lands inside the canvas, each up to
    rounding: sizes within the factors [1 - 2u] and [1 + 3u], positions
    within [16u] times the canvas extent. *)
Theorem scaledMask_inside_canvas (rnd : Q -> Q) (u : Q)
    (frame : FrameAsset) (mask : MaskGeometry) :
  rounds rnd u ->
  0 < frame_width frame -> 0 < frame_height frame ->
  0 <= mask_x mask -> 0 <= mask_y mask ->
  0 <= mask_width mask -> 0 <= mask_height mask ->
  mask_x mask + mask_width mask <= frame_width frame ->
  mask_y mask + mask_height mask <= frame_height frame ->
  let frameScale := frameScaleOfR rnd frame in
  let frameWidth := rnd (frame_width frame * frameScale) in
  let frameHeight := rnd (frame_height frame * frameScale) in
  let m := scaledMaskR rnd frame mask in
  let slackX := 16 * u * CANVAS_WIDTH in
  let slackY := 16 * u * CANVAS_HEIGHT in
  (frameWidth <= CANVAS_WIDTH * (1 + 3 * u) /\
   frameHeight <= CANVAS_HEIGHT * (1 + 3 * u)) /\
  (CANVAS_WIDTH * (1 - 2 * u) <= frameWidth \/
   CANVAS_HEIGHT * (1 - 2 * u) <= frameHeight) /\
  (- slackX <= mask_x m /\ mask_x m + mask_width m <= CANVAS_WIDTH + slackX) /\
  (- slackY <= mask_y m /\
   mask_y m + mask_height m <= CANVAS_HEIGHT + slackY).
Proof.
  intros Hr Hfw Hfh Hx Hy Hw Hh Hxw Hyh. cbv zeta.
  destruct (frameScaleOfR_bounds rnd u frame Hr Hfw Hfh)
    as (Hs & Hsw & Hsh & Hcase).
  destruct Hr as (Hu0 & Hu1 & Herr).
  assert (HW : 0 < CANVAS_WIDTH) by reflexivity.
  assert (HH : 0 < CANVAS_HEIGHT) by reflexivity.
  assert (Hs0 : 0 <= frameScaleOfR rnd frame) by lra.
  split; [| split; [| split]].
  - split; apply (scaled_at_most rnd u Hu0 Hu1 Herr);
      solve [assumption | lra].
  - destruct Hcase as [E | E]; rewrite E; [left | right];
      apply (governing_size rnd u Hu0 Hu1 Herr); solve [assumption | lra].
  - unfold scaledMaskR, frameOffsetXOfR. cbn [mask_x mask_width].
    apply (canvas_axis rnd u Hu0 Hu1 Herr); assumption.
  - unfold scaledMaskR, frameOffsetYOfR. cbn [mask_y mask_height].
    apply (canvas_axis rnd u Hu0 Hu1 Herr); assumption.
Qed.

Lemma scaledMask_inside_canvas_witness :
  let frame := mkFrame "f1" "frame.png" "" 532 945 None in
  let m := scaledMaskR inflate frame (mkMask 0 0 532 945) in
  - (16 * (1 # 1000) * CANVAS_WIDTH) <= mask_x m /\
  mask_x m + mask_width m
  <= CANVAS_WIDTH + 16 * (1 # 1000) * CANVAS_WIDTH.
Proof.
  pose proof (scaledMask_inside_canvas inflate (1 # 1000)
                (mkFrame "f1" "frame.png" "" 532 945 None)
                (mkMask 0 0 532 945) inflate_rounds) as H.
  cbv zeta in H.
  exact (proj1 (proj2 (proj2 (H eq_refl eq_refl (Qle_refl 0) (Qle_refl 0)
                                 ltac:(discriminate) ltac:(discriminate)
                                 ltac:(discriminate) ltac:(discriminate))))).
Defined.

(** Selecting a frame that has a mask while a photo is selected leaves the
    photo covering the mask the project then shows, up to rounding: each
    edge of the mask within the slack of the photo's. *)
Theorem selected_photo_covers_current_mask (rnd : Q -> Q) (u : Q)
    (frames : list FrameAsset) (photos : list PhotoAsset)
    (frameId : string) (prev : CardProject)
    (frame : FrameAsset) (photo : PhotoAsset) (mask : MaskGeometry) :
  rounds rnd u ->
  List.find (fun f => String.eqb (frame_id f) frameId) frames = Some frame ->
  frame_mask frame = Some mask ->
  List.find (fun p => isSelected (photo_id p) (selectedPhotoId prev)) photos
    = Some photo ->
  0 < frame_width frame -> 0 < frame_height frame ->
  0 < mask_width mask -> 0 < mask_height mask ->
  0 < photo_width photo -> 0 < photo_height photo ->
  let next := handleFrameSelectR rnd frames photos frameId prev in
  let t := photoTransform next in
  let sw := scaledWidthR rnd (photo_width photo) t in
  let sh := scaledHeightR rnd (photo_height photo) t in
  exists m,
    getCurrentMaskR rnd frames next = Some m /\
    pt_x t <= mask_x m + slack u (mask_x m) (mask_width m) sw /\
    mask_x m + mask_width m
    <= pt_x t + sw + slack u (mask_x m) (mask_width m) sw /\
    pt_y t <= mask_y m + slack u (mask_y m) (mask_height m) sh /\
    mask_y m + mask_height m
    <= pt_y t + sh + slack u (mask_y m) (mask_height m) sh.
Proof.
  intros Hr Hframe Hmask Hphoto Hfw Hfh Hmw Hmh Hpw Hph. cbv zeta.
  exists (scaledMaskR rnd frame mask). split.
  - unfold getCurrentMaskR, selectedFrame, handleFrameSelectR.
    cbn [selectedFrameId isSelected]. rewrite Hframe, Hmask. reflexivity.
  - unfold handleFrameSelectR. rewrite Hframe, Hphoto, Hmask.
    cbn [photoTransform].
    destruct (frameScaleOfR_bounds rnd u frame Hr Hfw Hfh) as (Hs & _).
    pose proof Hr as (Hu0 & Hu1 & Herr).
    apply (cover_placement_rounded rnd u); try assumption;
      try discriminate;
      unfold scaledMaskR; cbn [mask_width mask_height];
      apply (rnd_pos rnd u Hu0 Hu1 Herr), Qmult_lt_0_compat; assumption.
Qed.

Lemma selected_photo_covers_current_mask_witness :
  let masked :=
    mkFrame "f1" "frame.png" "" 1080 1350 (Some (mkMask 100 100 880 900)) in
  let next :=
    handleFrameSelectR inflate [masked] [portrait_photo] "f1"
                       dragged_project in
  let t := photoTransform next in
  exists m,
    getCurrentMaskR inflate [masked] next = Some m /\
    pt_x t
    <= mask_x m
       + slack (1 # 1000) (mask_x m) (mask_width m)
               (scaledWidthR inflate 600 t).
Proof.
  cbv zeta.
  destruct (selected_photo_covers_current_mask inflate (1 # 1000)
              [mkFrame "f1" "frame.png" "" 1080 1350
                       (Some (mkMask 100 100 880 900))]
              [portrait_photo] "f1" dragged_project
              (mkFrame "f1" "frame.png" "" 1080 1350
                       (Some (mkMask 100 100 880 900)))
              portrait_photo (mkMask 100 100 880 900) inflate_rounds)
    as (m & Hm & Hx & _); try reflexivity.
  exists m. split; assumption.
Defined.

